(** * Scheduling core of xiaoyou-core: a shallow embedding

    Two schedulers live in [cpp_scheduler/core]:
    - [AsyncScheduler] (async_scheduler.h / async_scheduler.cpp), with
      numeric task ids drawn from a process-wide counter and three
      vector-backed class queues;
    - [ResourceIsolationScheduler] (resource_isolation_scheduler.h / .cpp),
      with string task ids, shared task objects carrying a status, FIFO
      class queues and a worker registry with one dedicated LLM worker.

    Every critical section (a region guarded by one mutex) is one function
    on the scheduler state.  Calls into code the scheduler does not own
    (task bodies, callbacks, workers) are recorded in a trace. *)

From stdpp Require Import gmap strings list pretty.

Open Scope N_scope.

(** ** AsyncScheduler *)
Module Async.

(** [enum class TaskType] and [enum class TaskPriority] of async_scheduler.h. *)
Inductive TaskType := LLM_GPU | TTS_CPU | IMAGE_GPU_QUEUE.
Inductive TaskPriority := HIGH | MEDIUM | LOW.

#[global] Instance TaskType_eq_dec : EqDecision TaskType.
Proof. solve_decision. Defined.
#[global] Instance TaskPriority_eq_dec : EqDecision TaskPriority.
Proof. solve_decision. Defined.

(** [uint64_t] arithmetic wraps modulo 2^64. *)
Definition uint64_modulus : N := 2 ^ 64.

(** [class Task]: the fields of the base class, plus the [name_] that the
    concrete [ExampleTask] of main.cpp carries.  [callback_] records
    whether [setCallback] installed a callback. *)
Record Task := mkTask {
  type_ : TaskType;
  priority_ : TaskPriority;
  id_ : N;
  name_ : string;
  callback_ : bool
}.

#[global] Instance Task_eq_dec : EqDecision Task.
Proof. solve_decision. Defined.

Definition getType (t : Task) : TaskType := type_ t.
Definition getPriority (t : Task) : TaskPriority := priority_ t.
Definition getId (t : Task) : N := id_ t.

(** [Task::Task]: [id_(next_id_++)] on the static [std::atomic<uint64_t>
    next_id_], which is initialised to 0.  The counter is threaded
    explicitly; the constructor returns the task and the new counter. *)
Definition next_id_init : N := 0.

Definition Task_new (type : TaskType) (priority : TaskPriority)
    (name : string) (next_id_ : N) : Task * N :=
  ({| type_ := type; priority_ := priority; id_ := next_id_;
      name_ := name; callback_ := false |},
   (next_id_ + 1) mod uint64_modulus).

(** Constructing a batch of tasks, one after the other. *)
Fixpoint Task_new_all (specs : list (TaskType * TaskPriority * string))
    (next_id_ : N) : list Task * N :=
  match specs with
  | [] => ([], next_id_)
  | (ty, pr, nm) :: rest =>
      let '(t, n1) := Task_new ty pr nm next_id_ in
      let '(ts, n2) := Task_new_all rest n1 in
      (t :: ts, n2)
  end.

(** Calls from the scheduler's threads into task code. *)
Inductive Event :=
  | EvExecute (id : N)
  | EvCallback (id : N) (success : bool) (result : string).

(** [Task::notifyComplete]: the callback runs only when one is set. *)
Definition notifyComplete (t : Task) (success : bool) (result : string)
    : list Event :=
  if callback_ t then [EvCallback (id_ t) success result] else [].

(** The data members of [class AsyncScheduler] that the operations below
    read or write.  [gpu_workers_] and [cpu_workers_] hold the worker type
    of each live worker thread. *)
Record Scheduler := mkScheduler {
  running_ : bool;
  tasks_ : gmap N Task;
  llm_queue_ : list Task;
  tts_queue_ : list Task;
  image_queue_ : list Task;
  gpu_workers_ : list TaskType;
  cpu_workers_ : list TaskType;
  trace : list Event
}.

Definition AsyncScheduler_new : Scheduler :=
  {| running_ := false; tasks_ := ∅;
     llm_queue_ := []; tts_queue_ := []; image_queue_ := [];
     gpu_workers_ := []; cpu_workers_ := []; trace := [] |}.

Definition queue_of (ty : TaskType) (s : Scheduler) : list Task :=
  match ty with
  | LLM_GPU => llm_queue_ s
  | TTS_CPU => tts_queue_ s
  | IMAGE_GPU_QUEUE => image_queue_ s
  end.

Definition set_queue (ty : TaskType) (q : list Task) (s : Scheduler)
    : Scheduler :=
  match ty with
  | LLM_GPU =>
      {| running_ := running_ s; tasks_ := tasks_ s; llm_queue_ := q;
         tts_queue_ := tts_queue_ s; image_queue_ := image_queue_ s;
         gpu_workers_ := gpu_workers_ s; cpu_workers_ := cpu_workers_ s;
         trace := trace s |}
  | TTS_CPU =>
      {| running_ := running_ s; tasks_ := tasks_ s;
         llm_queue_ := llm_queue_ s; tts_queue_ := q;
         image_queue_ := image_queue_ s;
         gpu_workers_ := gpu_workers_ s; cpu_workers_ := cpu_workers_ s;
         trace := trace s |}
  | IMAGE_GPU_QUEUE =>
      {| running_ := running_ s; tasks_ := tasks_ s;
         llm_queue_ := llm_queue_ s; tts_queue_ := tts_queue_ s;
         image_queue_ := q;
         gpu_workers_ := gpu_workers_ s; cpu_workers_ := cpu_workers_ s;
         trace := trace s |}
  end.

Definition set_tasks (m : gmap N Task) (s : Scheduler) : Scheduler :=
  {| running_ := running_ s; tasks_ := m; llm_queue_ := llm_queue_ s;
     tts_queue_ := tts_queue_ s; image_queue_ := image_queue_ s;
     gpu_workers_ := gpu_workers_ s; cpu_workers_ := cpu_workers_ s;
     trace := trace s |}.

Definition add_trace (evs : list Event) (s : Scheduler) : Scheduler :=
  {| running_ := running_ s; tasks_ := tasks_ s; llm_queue_ := llm_queue_ s;
     tts_queue_ := tts_queue_ s; image_queue_ := image_queue_ s;
     gpu_workers_ := gpu_workers_ s; cpu_workers_ := cpu_workers_ s;
     trace := trace s ++ evs |}.

(** [AsyncScheduler::submitTask].  The argument is a [shared_ptr<Task>]:
    [None] is the null pointer. *)
Definition submitTask (task : option Task) (s : Scheduler) : N * Scheduler :=
  match task with
  | None => (0, s)
  | Some t =>
      let task_id := getId t in
      let s1 := set_tasks (<[task_id := t]> (tasks_ s)) s in
      (task_id, set_queue (getType t) (queue_of (getType t) s1 ++ [t]) s1)
  end.

(** [AsyncScheduler::cancelTask]: [remove_if] on the class queue of the
    task found in [tasks_], then [tasks_.erase(it)]. *)
Definition cancelTask (task_id : N) (s : Scheduler) : bool * Scheduler :=
  match tasks_ s !! task_id with
  | Some t =>
      let q := filter (λ u, getId u ≠ task_id) (queue_of (getType t) s) in
      (true, set_tasks (delete task_id (tasks_ s)) (set_queue (getType t) q s))
  | None => (false, s)
  end.

(** The selection inside [workerThreadFunction]: [std::find_if] for the
    first task whose priority is HIGH, erased from the vector when found;
    otherwise the front of the vector. *)
Definition is_high (t : Task) : bool :=
  bool_decide (getPriority t = HIGH).

Fixpoint erase_first_high (q : list Task) : option (Task * list Task) :=
  match q with
  | [] => None
  | t :: rest =>
      if is_high t then Some (t, rest)
      else match erase_first_high rest with
           | Some (h, rest') => Some (h, t :: rest')
           | None => None
           end
  end.

Definition pick_next (q : list Task) : option (Task * list Task) :=
  match q with
  | [] => None
  | front :: rest =>
      match erase_first_high q with
      | Some r => Some r
      | None => Some (front, rest)
      end
  end.

(** The locked block at the top of the loop body of
    [workerThreadFunction]: the thread-local [task] and the new state. *)
Definition worker_fetch (worker_type : TaskType) (s : Scheduler)
    : option Task * Scheduler :=
  match pick_next (queue_of worker_type s) with
  | Some (t, q') => (Some t, set_queue worker_type q' s)
  | None => (None, s)
  end.

(** The outcome of the virtual [Task::execute]: the [notifyComplete]
    calls it made, and the [what()] of the [std::exception] it threw, if
    any. *)
Record ExecResult := mkExecResult {
  notified : list (bool * string);
  thrown : option string
}.

Section Execution.
Variable execute : Task -> ExecResult.

(** The [if (task)] block of [workerThreadFunction], for a fetched task:
    [task->execute()], the [catch] clause, and the erasure from
    [tasks_] that both paths end with. *)
Definition worker_execute (t : Task) (s : Scheduler) : Scheduler :=
  let r := execute t in
  let during :=
    EvExecute (getId t)
    :: flat_map (λ '(ok, msg), notifyComplete t ok msg) (notified r) in
  let caught :=
    match thrown r with
    | Some what => notifyComplete t false ("Exception: " +:+ what)
    | None => []
    end in
  set_tasks (delete (getId t) (tasks_ s)) (add_trace (during ++ caught) s).

(** One iteration of the loop of [workerThreadFunction]. *)
Definition worker_iteration (worker_type : TaskType) (s : Scheduler)
    : Scheduler :=
  match worker_fetch worker_type s with
  | (Some t, s1) => worker_execute t s1
  | (None, s1) => s1
  end.
End Execution.

(** What one worker thread fetches in [n] consecutive iterations. *)
Fixpoint fetch_sequence (n : nat) (worker_type : TaskType) (s : Scheduler)
    : list Task :=
  match n with
  | O => []
  | S m =>
      match worker_fetch worker_type s with
      | (Some t, s1) => t :: fetch_sequence m worker_type s1
      | (None, _) => []
      end
  end.

(** Submitting a list of task pointers in order: the returned ids and the
    final state. *)
Fixpoint submit_all (tasks : list (option Task)) (s : Scheduler)
    : list N * Scheduler :=
  match tasks with
  | [] => ([], s)
  | t :: rest =>
      let '(id, s1) := submitTask t s in
      let '(ids, s2) := submit_all rest s1 in
      (id :: ids, s2)
  end.

(** The order in which one worker thread starts the tasks of a queue when
    nothing else is submitted meanwhile. *)
Fixpoint dispatch_order_fuel (fuel : nat) (q : list Task) : list Task :=
  match fuel with
  | O => []
  | S n =>
      match pick_next q with
      | Some (t, q') => t :: dispatch_order_fuel n q'
      | None => []
      end
  end.

(** [AsyncScheduler::start], up to the blocking [uv_run]. *)
Definition start (num_gpu_workers num_cpu_workers : nat) (s : Scheduler)
    : Scheduler :=
  if running_ s then s
  else
    {| running_ := true; tasks_ := tasks_ s; llm_queue_ := llm_queue_ s;
       tts_queue_ := tts_queue_ s; image_queue_ := image_queue_ s;
       gpu_workers_ := gpu_workers_ s ++
         imap (λ i _, if decide (i = 0%nat) then LLM_GPU else IMAGE_GPU_QUEUE)
              (replicate num_gpu_workers ());
       cpu_workers_ := cpu_workers_ s ++ replicate num_cpu_workers TTS_CPU;
       trace := trace s |}.

(** [AsyncScheduler::stop] once its joins have returned: the map, the
    queues and the thread vectors are cleared.  What the worker threads
    still do while they are joined is [join_step] below. *)
Definition stop (s : Scheduler) : Scheduler :=
  if running_ s then
    {| running_ := false; tasks_ := ∅; llm_queue_ := []; tts_queue_ := [];
       image_queue_ := []; gpu_workers_ := []; cpu_workers_ := [];
       trace := trace s |}
  else s.

(** The scheduler together with the locals of its worker threads: [held]
    lists, for every thread that has left the locked block with a task,
    the thread's worker type and that task. *)
Record Config := mkConfig {
  sched : Scheduler;
  held : list (TaskType * Task)
}.

(** The number of live worker threads of one type. *)
Definition live_threads (worker_type : TaskType) (s : Scheduler) : nat :=
  length (filter (λ ty, ty = worker_type) (gpu_workers_ s ++ cpu_workers_ s)).

Definition busy_threads (worker_type : TaskType)
    (h : list (TaskType * Task)) : nat :=
  length (filter (λ e : TaskType * Task, e.1 = worker_type) h).

(** What a worker thread does while [stop] joins it.  [running_] is read
    at the top of the loop only, outside the lock: a thread that has read
    it as true before [stop] cleared it still enters the locked block once
    ([JoinFetch]), and a thread that holds a task finishes the loop body
    ([JoinExecute], for the [i]-th such thread). *)
Inductive JoinStep :=
  | JoinFetch (worker_type : TaskType)
  | JoinExecute (i : nat).

(** What clients and worker threads do, in any order.  [DoFetch] is the
    locked block of a thread that holds no task, [DoExecute] the rest of
    the loop body of the [i]-th thread that holds one.  [DoStop] is a call
    of [stop]; [late] is what the worker threads do between the store to
    [running_] and the return of their joins. *)
Inductive Action :=
  | DoStart (num_gpu_workers num_cpu_workers : nat)
  | DoSubmit (task : option Task)
  | DoCancel (task_id : N)
  | DoFetch (worker_type : TaskType)
  | DoExecute (i : nat)
  | DoStop (late : list JoinStep).

Section Run.
Variable execute : Task -> ExecResult.

(** The locked block of a thread of the given type. *)
Definition fetch_step (worker_type : TaskType) (c : Config) : Config :=
  match worker_fetch worker_type (sched c) with
  | (Some t, s1) => mkConfig s1 (held c ++ [(worker_type, t)])
  | (None, s1) => mkConfig s1 (held c)
  end.

(** The rest of the loop body of the [i]-th thread that holds a task. *)
Definition execute_step (i : nat) (c : Config) : Config :=
  match held c !! i with
  | Some (_, t) =>
      mkConfig (worker_execute execute t (sched c)) (delete i (held c))
  | None => c
  end.

(** The join steps in order.  [budget] counts, for every worker type, the
    threads that held no task when [stop] was called: each of them enters
    the locked block at most once more, then reads [running_] as false and
    returns. *)
Fixpoint late_work (budget : TaskType -> nat) (steps : list JoinStep)
    (c : Config) : Config :=
  match steps with
  | [] => c
  | JoinFetch worker_type :: rest =>
      match budget worker_type with
      | O => late_work budget rest c
      | S n =>
          late_work (λ ty, if decide (ty = worker_type) then n else budget ty)
            rest (fetch_step worker_type c)
      end
  | JoinExecute i :: rest => late_work budget rest (execute_step i c)
  end.

(** [stop] with its joins: after the late steps every thread that still
    holds a task finishes it, and then the containers are cleared.  Calls
    of clients are not interleaved with the joins. *)
Definition stop_and_join (late : list JoinStep) (c : Config) : Config :=
  if running_ (sched c) then
    let c1 :=
      late_work
        (λ ty, (live_threads ty (sched c) - busy_threads ty (held c))%nat)
        late c in
    mkConfig
      (stop (foldl (λ s e, worker_execute execute e.2 s) (sched c1)
               (held c1)))
      []
  else c.

Definition exec (c : Config) (a : Action) : Config :=
  match a with
  | DoStart g n => mkConfig (start g n (sched c)) (held c)
  | DoSubmit task => mkConfig (submitTask task (sched c)).2 (held c)
  | DoCancel task_id => mkConfig (cancelTask task_id (sched c)).2 (held c)
  | DoFetch worker_type =>
      if running_ (sched c)
         && bool_decide (busy_threads worker_type (held c)
                         < live_threads worker_type (sched c))%nat
      then fetch_step worker_type c
      else c
  | DoExecute i => execute_step i c
  | DoStop late => stop_and_join late c
  end.

Definition run (c : Config) (acts : list Action) : Config :=
  foldl exec c acts.
End Run.

Definition starts_or_cancels (a : Action) : bool :=
  match a with
  | DoStart _ _ | DoCancel _ => true
  | _ => false
  end.

(** Every queue holds tasks of its own type only. *)
Definition queues_typed (s : Scheduler) : Prop :=
  ∀ ty t, t ∈ queue_of ty s → getType t = ty.

End Async.

(** ** ResourceIsolationScheduler *)
Module RIS.

(** The three enumerations of resource_isolation_scheduler.h. *)
Inductive TaskType := LLM_INFERENCE | TTS_SYNTHESIS | IMAGE_GENERATION.
Inductive TaskPriority := HIGH | MEDIUM | LOW.
Inductive TaskStatus := PENDING | RUNNING | COMPLETED | FAILED | CANCELLED.

#[global] Instance TaskType_eq_dec : EqDecision TaskType.
Proof. solve_decision. Defined.
#[global] Instance TaskPriority_eq_dec : EqDecision TaskPriority.
Proof. solve_decision. Defined.
#[global] Instance TaskStatus_eq_dec : EqDecision TaskStatus.
Proof. solve_decision. Defined.

(** [size_t] counters wrap modulo 2^64. *)
Definition size_t_modulus : N := 2 ^ 64.
Definition incr (n : N) : N := (n + 1) mod size_t_modulus.

(** [template<typename ResultType> class Task]: its data members.  The
    result and the stored exception are kept as text; [task_] (the bound
    function) is what a worker runs and is part of the worker oracle. *)
Record Task := mkTask {
  type_ : TaskType;
  priority_ : TaskPriority;
  status_ : TaskStatus;
  taskId_ : string;
  result_ : option string;
  exception_ : option string
}.

#[global] Instance Task_eq_dec : EqDecision Task.
Proof. solve_decision. Defined.

(** The constructor: status PENDING, and an id made of the current
    [system_clock] tick count, which the caller of the model supplies. *)
Definition Task_new (type : TaskType) (priority : TaskPriority) (now : Z)
    : Task :=
  {| type_ := type; priority_ := priority; status_ := PENDING;
     taskId_ := "task_" +:+ pretty now;
     result_ := None; exception_ := None |}.

Definition setStatus (st : TaskStatus) (t : Task) : Task :=
  {| type_ := type_ t; priority_ := priority_ t; status_ := st;
     taskId_ := taskId_ t; result_ := result_ t;
     exception_ := exception_ t |}.

(** An [IWorker] object as the scheduler sees it: the answers of
    [getWorkerId], [canHandle] and [isBusy], whether [initialize] throws a
    [std::exception], and the [what()] text of that exception. *)
Record Worker := mkWorker {
  workerId : string;
  capabilities : list TaskType;
  busy : bool;
  initialize_throws : bool;
  initialize_what : string
}.

Definition canHandle (w : Worker) (ty : TaskType) : bool :=
  bool_decide (ty ∈ capabilities w).
Definition isBusy (w : Worker) : bool := busy w.

(** What [worker->processTask(task)] does to the task it is handed, and
    how it leaves: by returning, by throwing a [std::exception] with a
    [what()] text, or by throwing something else. *)
Inductive Thrown := StdException (what : string) | OtherException.

Record Processed := mkProcessed {
  p_status : TaskStatus;
  p_result : option string;
  p_exception : option string;
  p_thrown : option Thrown
}.

Definition apply_processed (r : Processed) (t : Task) : Task :=
  {| type_ := type_ t; priority_ := priority_ t; status_ := p_status r;
     taskId_ := taskId_ t; result_ := p_result r;
     exception_ := p_exception r |}.

(** Calls from the scheduler into worker objects.  Workers and tasks are
    named by the address of the shared object. *)
Inductive Event :=
  | EvInitialize (worker : nat)
  | EvProcessTask (worker : nat) (task : nat)
  | EvShutdown (worker : nat).

(** The data members of [class ResourceIsolationScheduler].
    [task_objects] and [worker_objects] are the shared objects that the
    [shared_ptr]s of the queues, of [tasks_] and of the worker vectors point
    to.  [workerThreads_] counts the dispatch threads not yet joined and
    [imageQueueThread_] tells whether the image thread is.  [in_flight]
    holds the locals [task] and [taskType] of the dispatch threads that
    have left the first critical section of [processTaskQueues] with a
    task; [cerr] is the text written to [std::cerr]; [terminated] is set
    when an exception leaves a thread function. *)
Record Scheduler := mkScheduler {
  task_objects : gmap nat Task;
  worker_objects : gmap nat Worker;
  workers_ : list nat;
  gpuWorkers_ : list nat;
  cpuWorkers_ : list nat;
  llmWorker_ : option nat;
  llmTaskQueue_ : list nat;
  ttsTaskQueue_ : list nat;
  imageTaskQueue_ : list nat;
  tasks_ : gmap string nat;
  workerThreads_ : nat;
  imageQueueThread_ : bool;
  running_ : bool;
  initialized_ : bool;
  totalTasks_ : N;
  completedTasks_ : N;
  failedTasks_ : N;
  in_flight : list (nat * TaskType);
  trace : list Event;
  cerr : list string;
  terminated : bool
}.

(** The constructor; the worker objects exist outside the scheduler. *)
Definition ResourceIsolationScheduler_new (ws : gmap nat Worker) : Scheduler :=
  {| task_objects := ∅; worker_objects := ws;
     workers_ := []; gpuWorkers_ := []; cpuWorkers_ := []; llmWorker_ := None;
     llmTaskQueue_ := []; ttsTaskQueue_ := []; imageTaskQueue_ := [];
     tasks_ := ∅; workerThreads_ := 0%nat; imageQueueThread_ := false;
     running_ := false; initialized_ := false;
     totalTasks_ := 0; completedTasks_ := 0; failedTasks_ := 0;
     in_flight := []; trace := []; cerr := []; terminated := false |}.

(** Field updates. *)
Definition set_task_objects (h : gmap nat Task) (s : Scheduler) : Scheduler :=
  let '(mkScheduler _ a b c d e f g h' i j k l m n o p q r t u) := s in
  mkScheduler h a b c d e f g h' i j k l m n o p q r t u.

Definition set_worker_objects (w : gmap nat Worker) (s : Scheduler)
    : Scheduler :=
  let '(mkScheduler a _ b c d e f g h i j k l m n o p q r t u) := s in
  mkScheduler a w b c d e f g h i j k l m n o p q r t u.

Definition set_registry (ws gs cs : list nat) (lw : option nat)
    (s : Scheduler) : Scheduler :=
  let '(mkScheduler a b _ _ _ _ f g h i j k l m n o p q r t u) := s in
  mkScheduler a b ws gs cs lw f g h i j k l m n o p q r t u.

Definition set_queue (ty : TaskType) (q' : list nat) (s : Scheduler)
    : Scheduler :=
  let '(mkScheduler a b c d e e' f g h i j k l m n o p q r t u) := s in
  match ty with
  | LLM_INFERENCE => mkScheduler a b c d e e' q' g h i j k l m n o p q r t u
  | TTS_SYNTHESIS => mkScheduler a b c d e e' f q' h i j k l m n o p q r t u
  | IMAGE_GENERATION => mkScheduler a b c d e e' f g q' i j k l m n o p q r t u
  end.

Definition set_tasks (m' : gmap string nat) (s : Scheduler) : Scheduler :=
  let '(mkScheduler a b c d e e' f g h _ j k l m n o p q r t u) := s in
  mkScheduler a b c d e e' f g h m' j k l m n o p q r t u.

Definition set_threads (wt : nat) (it run ini : bool) (s : Scheduler)
    : Scheduler :=
  let '(mkScheduler a b c d e e' f g h i _ _ _ _ n o p q r t u) := s in
  mkScheduler a b c d e e' f g h i wt it run ini n o p q r t u.

Definition set_counters (tot comp fail : N) (s : Scheduler) : Scheduler :=
  let '(mkScheduler a b c d e e' f g h i j k l m _ _ _ q r t u) := s in
  mkScheduler a b c d e e' f g h i j k l m tot comp fail q r t u.

Definition set_in_flight (fl : list (nat * TaskType)) (s : Scheduler)
    : Scheduler :=
  let '(mkScheduler a b c d e e' f g h i j k l m n o p _ r t u) := s in
  mkScheduler a b c d e e' f g h i j k l m n o p fl r t u.

Definition add_trace (evs : list Event) (s : Scheduler) : Scheduler :=
  let '(mkScheduler a b c d e e' f g h i j k l m n o p q r t u) := s in
  mkScheduler a b c d e e' f g h i j k l m n o p q (r ++ evs) t u.

Definition add_cerr (line : string) (s : Scheduler) : Scheduler :=
  let '(mkScheduler a b c d e e' f g h i j k l m n o p q r t u) := s in
  mkScheduler a b c d e e' f g h i j k l m n o p q r (t ++ [line]) u.

Definition set_terminated (s : Scheduler) : Scheduler :=
  let '(mkScheduler a b c d e e' f g h i j k l m n o p q r t _) := s in
  mkScheduler a b c d e e' f g h i j k l m n o p q r t true.

Definition queue_of (ty : TaskType) (s : Scheduler) : list nat :=
  match ty with
  | LLM_INFERENCE => llmTaskQueue_ s
  | TTS_SYNTHESIS => ttsTaskQueue_ s
  | IMAGE_GENERATION => imageTaskQueue_ s
  end.

(** [task->getStatus()], [task->getTaskId()] and [task->setStatus(st)]
    through a pointer. *)
Definition getStatus (s : Scheduler) (task : nat) : option TaskStatus :=
  status_ <$> task_objects s !! task.

Definition getTaskId (s : Scheduler) (task : nat) : option string :=
  taskId_ <$> task_objects s !! task.

Definition store_status (task : nat) (st : TaskStatus) (s : Scheduler)
    : Scheduler :=
  set_task_objects (alter (setStatus st) task (task_objects s)) s.

(** [tasks_.erase(task->getTaskId())]. *)
Definition erase_task_id (task : nat) (s : Scheduler) : Scheduler :=
  match getTaskId s task with
  | Some id => set_tasks (delete id (tasks_ s)) s
  | None => s
  end.

(** [ResourceIsolationScheduler::initialize]: the dispatch threads and the
    image thread are created. *)
Definition initialize (cpuThreadCount : nat) (s : Scheduler)
    : bool * Scheduler :=
  if initialized_ s then (true, s)
  else (true, set_threads (workerThreads_ s + cpuThreadCount) true true true s).

(** [ResourceIsolationScheduler::addWorker].  [None] is the null pointer. *)
Definition addWorker (worker : option nat) (s : Scheduler)
    : bool * Scheduler :=
  match worker with
  | None => (false, s)
  | Some w =>
      match worker_objects s !! w with
      | None => (false, s)
      | Some wo =>
          let s1 := add_trace [EvInitialize w] s in
          if initialize_throws wo then
            (false,
             add_cerr ("Failed to add worker: " +:+ initialize_what wo) s1)
          else
            let ws := workers_ s ++ [w] in
            if canHandle wo LLM_INFERENCE || canHandle wo IMAGE_GENERATION
            then
              let lw := match llmWorker_ s with
                        | None =>
                            if canHandle wo LLM_INFERENCE then Some w
                            else None
                        | Some l => Some l
                        end in
              (true,
               set_registry ws (gpuWorkers_ s ++ [w]) (cpuWorkers_ s) lw s1)
            else if canHandle wo TTS_SYNTHESIS then
              (true,
               set_registry ws (gpuWorkers_ s) (cpuWorkers_ s ++ [w])
                 (llmWorker_ s) s1)
            else
              (true,
               set_registry ws (gpuWorkers_ s) (cpuWorkers_ s)
                 (llmWorker_ s) s1)
      end
  end.

(** The template [submitTask]: a fresh task object, entered in [tasks_]
    under its id and pushed on the queue of its type.  The returned future
    holds the task pointer, which is what the model returns. *)
Definition submitTask (type : TaskType) (priority : TaskPriority) (now : Z)
    (s : Scheduler) : nat * Scheduler :=
  let t := Task_new type priority now in
  let task := fresh (dom (task_objects s)) in
  let s1 := set_task_objects (<[task := t]> (task_objects s)) s in
  let s2 := set_tasks (<[taskId_ t := task]> (tasks_ s1)) s1 in
  let s3 := set_counters (incr (totalTasks_ s2)) (completedTasks_ s2)
              (failedTasks_ s2) s2 in
  (task, set_queue type (queue_of type s3 ++ [task]) s3).

(** [ResourceIsolationScheduler::cancelTask]. *)
Definition cancelTask (taskId : string) (s : Scheduler) : bool * Scheduler :=
  match tasks_ s !! taskId with
  | Some task =>
      if bool_decide (getStatus s task = Some PENDING) then
        (true,
         set_tasks (delete taskId (tasks_ s)) (store_status task CANCELLED s))
      else (false, s)
  | None => (false, s)
  end.

(** [ResourceIsolationScheduler::getTaskStatus]; the source comments the
    fall-through: a task that does not exist counts as cancelled. *)
Definition getTaskStatus (taskId : string) (s : Scheduler) : TaskStatus :=
  match tasks_ s !! taskId with
  | Some task =>
      match getStatus s task with
      | Some st => st
      | None => CANCELLED
      end
  | None => CANCELLED
  end.

(** [ResourceIsolationScheduler::selectWorker]. *)
Definition idle_and_able (s : Scheduler) (ty : TaskType) (w : nat) : bool :=
  match worker_objects s !! w with
  | Some wo => canHandle wo ty && negb (isBusy wo)
  | None => false
  end.

Definition worker_idle (s : Scheduler) (w : nat) : bool :=
  match worker_objects s !! w with
  | Some wo => negb (isBusy wo)
  | None => false
  end.

Definition not_dedicated (s : Scheduler) (w : nat) : bool :=
  bool_decide (Some w ≠ llmWorker_ s).

Definition selectWorker (type : TaskType) (s : Scheduler) : option nat :=
  let dedicated :=
    match llmWorker_ s with
    | Some l =>
        if bool_decide (type = LLM_INFERENCE) && worker_idle s l
        then Some l else None
    | None => None
    end in
  match dedicated with
  | Some l => Some l
  | None =>
      if bool_decide (type = TTS_SYNTHESIS) then
        find (idle_and_able s type) (cpuWorkers_ s)
      else
        find (λ w, not_dedicated s w && idle_and_able s type w)
             (gpuWorkers_ s)
  end.

(** The worker search inside [processImageGenerationQueue]. *)
Definition select_image_worker (s : Scheduler) : option nat :=
  find (λ w, not_dedicated s w && idle_and_able s IMAGE_GENERATION w)
       (gpuWorkers_ s).

(** The first critical section of [processTaskQueues]: nothing to do, a
    cancelled task dropped, or a task taken out of its queue. *)
Inductive Fetched :=
  | NoTask
  | Discarded (task : nat)
  | Taken (task : nat) (taskType : TaskType).

Definition check_cancelled (task : nat) (taskType : TaskType) (s : Scheduler)
    : Fetched * Scheduler :=
  if bool_decide (getStatus s task = Some CANCELLED)
  then (Discarded task, erase_task_id task s)
  else (Taken task taskType, s).

Definition dispatch_fetch (s : Scheduler) : Fetched * Scheduler :=
  match llmTaskQueue_ s with
  | task :: rest =>
      check_cancelled task LLM_INFERENCE (set_queue LLM_INFERENCE rest s)
  | [] =>
      match ttsTaskQueue_ s with
      | task :: rest =>
          check_cancelled task TTS_SYNTHESIS (set_queue TTS_SYNTHESIS rest s)
      | [] => (NoTask, s)
      end
  end.

(** The final block of both loops: finished tasks leave [tasks_]. *)
Definition erase_if_finished (task : nat) (s : Scheduler) : Scheduler :=
  match getStatus s task with
  | Some COMPLETED | Some FAILED | Some CANCELLED => erase_task_id task s
  | _ => s
  end.

Section Workers.
Variable processTask : Worker -> Task -> Processed.

(** The [try] block around [worker->processTask(task)], the same in both
    loops up to the text of the log line.  Only [std::exception] is
    caught; anything else leaves the thread function. *)
Definition run_worker (log_prefix : string) (w task : nat) (s : Scheduler)
    : Scheduler :=
  match worker_objects s !! w, task_objects s !! task with
  | Some wo, Some t =>
      let r := processTask wo t in
      let s1 :=
        add_trace [EvProcessTask w task]
          (set_task_objects
             (<[task := apply_processed r t]> (task_objects s)) s) in
      match p_thrown r with
      | None =>
          match p_status r with
          | COMPLETED =>
              set_counters (totalTasks_ s1) (incr (completedTasks_ s1))
                (failedTasks_ s1) s1
          | FAILED =>
              set_counters (totalTasks_ s1) (completedTasks_ s1)
                (incr (failedTasks_ s1)) s1
          | _ => s1
          end
      | Some (StdException what) =>
          let s2 :=
            add_cerr (log_prefix +:+ taskId_ t +:+ ": " +:+ what) s1 in
          let s3 := store_status task FAILED s2 in
          set_counters (totalTasks_ s3) (completedTasks_ s3)
            (incr (failedTasks_ s3)) s3
      | Some OtherException => set_terminated s1
      end
  | _, _ => s
  end.

(** [processTaskQueues] after its first critical section. *)
Definition dispatch_run (task : nat) (taskType : TaskType) (s : Scheduler)
    : Scheduler :=
  let s1 :=
    match selectWorker taskType s with
    | Some w => run_worker "Error processing task " w task s
    | None =>
        match taskType with
        | LLM_INFERENCE =>
            set_queue LLM_INFERENCE (llmTaskQueue_ s ++ [task]) s
        | TTS_SYNTHESIS =>
            set_queue TTS_SYNTHESIS (ttsTaskQueue_ s ++ [task]) s
        | IMAGE_GENERATION => s
        end
    end in
  if terminated s1 then s1 else erase_if_finished task s1.

(** [processTaskQueues], run by one thread without interruption. *)
Definition processTaskQueues (s : Scheduler) : Scheduler :=
  match dispatch_fetch s with
  | (Taken task taskType, s1) => dispatch_run task taskType s1
  | (_, s1) => s1
  end.

(** [processImageGenerationQueue].  The worker call happens while
    [queueMutex_] is held, so the part after the pop is one step. *)
Definition indexed (s : Scheduler) (task : nat) : bool :=
  match getTaskId s task with
  | Some id => bool_decide (is_Some (tasks_ s !! id))
  | None => false
  end.

Definition processImageGenerationQueue (s : Scheduler) : Scheduler :=
  match imageTaskQueue_ s with
  | [] => s
  | task :: rest =>
      let s1 := set_queue IMAGE_GENERATION rest s in
      if negb (indexed s1 task)
         || bool_decide (getStatus s1 task = Some CANCELLED)
      then s1
      else
        let s2 :=
          match select_image_worker s1 with
          | Some w => run_worker "Error processing image task " w task s1
          | None =>
              set_queue IMAGE_GENERATION (imageTaskQueue_ s1 ++ [task]) s1
          end in
        if terminated s2 then s2 else erase_if_finished task s2
  end.

Definition set_busy (b : bool) (w : Worker) : Worker :=
  {| workerId := workerId w; capabilities := capabilities w; busy := b;
     initialize_throws := initialize_throws w;
     initialize_what := initialize_what w |}.

(** What happens while [shutdown] waits in [join].  [running_] is already
    false, yet the threads are not at their loop test: a dispatch thread
    that read [running_] as true before the store enters
    [processTaskQueues] once more ([JoinFetch] is its first critical
    section), a thread that holds a task goes on with it ([JoinResume]),
    the image thread, if it had passed its test, makes one more call of
    [processImageGenerationQueue] ([JoinImage]), and the workers change
    what [isBusy] answers as they take up and finish work ([JoinBusy]). *)
Inductive JoinStep :=
  | JoinFetch
  | JoinResume (i : nat)
  | JoinImage
  | JoinBusy (worker : nat) (b : bool).

Definition join_step (acc : Scheduler) (step : JoinStep) : Scheduler :=
  if terminated acc then acc
  else
    match step with
    | JoinFetch =>
        match dispatch_fetch acc with
        | (Taken task ty, s1) =>
            set_in_flight (in_flight s1 ++ [(task, ty)]) s1
        | (_, s1) => s1
        end
    | JoinResume i =>
        match in_flight acc !! i with
        | Some (task, ty) =>
            dispatch_run task ty
              (set_in_flight (delete i (in_flight acc)) acc)
        | None => acc
        end
    | JoinImage => processImageGenerationQueue acc
    | JoinBusy w b =>
        set_worker_objects (alter (set_busy b) w (worker_objects acc)) acc
    end.

(** Every thread leaves its loop at the first test it makes after the
    store: of a schedule of join steps, a [JoinFetch] counts only as long
    as a dispatch thread is left that has not made its last call, and a
    [JoinImage] only once, if there is an image thread. *)
Fixpoint allowed (fetches : nat) (image : bool) (steps : list JoinStep)
    : list JoinStep :=
  match steps with
  | [] => []
  | JoinFetch :: rest =>
      match fetches with
      | S n => JoinFetch :: allowed n image rest
      | O => allowed O image rest
      end
  | JoinImage :: rest =>
      if image then JoinImage :: allowed fetches false rest
      else allowed fetches false rest
  | step :: rest => step :: allowed fetches image rest
  end.

Definition late_work (steps : list JoinStep) (s : Scheduler) : Scheduler :=
  foldl join_step s
    (allowed (workerThreads_ s - length (in_flight s)) (imageQueueThread_ s)
       steps).

(** [ResourceIsolationScheduler::shutdown].  [steps] is what the threads
    and the workers do during the join; whatever it leaves in the hands
    of a thread is finished before the join returns.  Then the workers
    are shut down and every container is emptied.  Calls of clients are
    not interleaved with the join: they come before or after
    [shutdown]. *)
Definition join_threads (s : Scheduler) : Scheduler :=
  foldl (λ acc '(task, ty), if terminated acc then acc
                            else dispatch_run task ty acc)
        (set_in_flight [] s) (in_flight s).

Definition shutdown (steps : list JoinStep) (s : Scheduler) : Scheduler :=
  if initialized_ s then
    let s1 := set_threads (workerThreads_ s) (imageQueueThread_ s) false
                (initialized_ s) s in
    let s2 := join_threads (late_work steps s1) in
    if terminated s2 then s2
    else
      let s3 := set_threads 0 false false (initialized_ s2) s2 in
      let s4 := add_trace (EvShutdown <$> workers_ s3) s3 in
      let s5 := set_registry [] [] [] None s4 in
      let s6 := set_tasks ∅
                  (set_queue TTS_SYNTHESIS []
                     (set_queue LLM_INFERENCE [] s5)) in
      let s7 := set_queue IMAGE_GENERATION [] s6 in
      set_threads 0 false false false s7
  else s.

(** The operations that clients, dispatch threads and workers perform,
    interleaved at the granularity of critical sections. *)
Inductive Action :=
  | DoInitialize (cpuThreadCount : nat)
  | DoAddWorker (worker : option nat)
  | DoSubmit (type : TaskType) (priority : TaskPriority) (now : Z)
  | DoCancel (taskId : string)
  | DoFetch
  | DoResume (i : nat)
  | DoImage
  | DoShutdown (steps : list JoinStep)
  | WorkerSetsBusy (worker : nat) (b : bool).

Definition exec (s : Scheduler) (a : Action) : Scheduler :=
  if terminated s then s
  else
    match a with
    | DoInitialize n => (initialize n s).2
    | DoAddWorker w => (addWorker w s).2
    | DoSubmit ty pr now => (submitTask ty pr now s).2
    | DoCancel id => (cancelTask id s).2
    | DoFetch =>
        if running_ s
           && bool_decide (length (in_flight s) < workerThreads_ s)%nat
        then
          match dispatch_fetch s with
          | (Taken task ty, s1) =>
              set_in_flight (in_flight s1 ++ [(task, ty)]) s1
          | (_, s1) => s1
          end
        else s
    | DoResume i =>
        match in_flight s !! i with
        | Some (task, ty) =>
            dispatch_run task ty (set_in_flight (delete i (in_flight s)) s)
        | None => s
        end
    | DoImage =>
        if running_ s && imageQueueThread_ s
        then processImageGenerationQueue s else s
    | DoShutdown steps => shutdown steps s
    | WorkerSetsBusy w b =>
        set_worker_objects (alter (set_busy b) w (worker_objects s)) s
    end.

Definition run (s : Scheduler) (acts : list Action) : Scheduler :=
  foldl exec s acts.
End Workers.

(** [n] calls of [processTaskQueues] by one dispatch thread while nothing
    else happens: each call is the first critical section followed by
    the rest of the function. *)
Definition serve (n : nat) : list Action :=
  concat (replicate n [DoFetch; DoResume 0]).

(** What one dispatch thread takes in [n] consecutive runs of the first
    critical section of [processTaskQueues]. *)
Fixpoint fetch_sequence (n : nat) (s : Scheduler) : list nat :=
  match n with
  | O => []
  | S m =>
      match dispatch_fetch s with
      | (Taken task _, s1) => task :: fetch_sequence m s1
      | (Discarded _, s1) => fetch_sequence m s1
      | (NoTask, _) => []
      end
  end.

(** The tasks that workers were invoked on, oldest first. *)
Definition started (tr : list Event) : list nat :=
  omap (λ e, match e with EvProcessTask _ task => Some task | _ => None end)
       tr.

(** [ResourceIsolationScheduler::getSystemStatus].  The counts are taken
    over the entries of [tasks_]; [workerStatus] is filled in the order of
    [workers_], a later worker overwriting an earlier one with the same
    id. *)
Record SystemStatus := mkSystemStatus {
  totalTasks : N;
  pendingTasks : N;
  runningTasks : N;
  completedTasks : N;
  failedTasks : N;
  workerStatus : gmap string bool
}.

Definition has_status (s : Scheduler) (st : TaskStatus)
    (entry : string * nat) : Prop :=
  getStatus s entry.2 = Some st.

#[global] Instance has_status_dec s st entry : Decision (has_status s st entry).
Proof. unfold has_status. apply _. Defined.

Definition getSystemStatus (s : Scheduler) : SystemStatus :=
  {| totalTasks := totalTasks_ s;
     pendingTasks := N.of_nat (size (filter (has_status s PENDING) (tasks_ s)));
     runningTasks := N.of_nat (size (filter (has_status s RUNNING) (tasks_ s)));
     completedTasks := completedTasks_ s;
     failedTasks := failedTasks_ s;
     workerStatus :=
       foldl (λ m w, match worker_objects s !! w with
                     | Some wo => <[workerId wo := isBusy wo]> m
                     | None => m
                     end) ∅ (workers_ s) |}.

(** [ResourceIsolationScheduler::waitForAllTasks].  Each round of the loop
    looks at the scheduler twice, under [queueMutex_] and then under
    [imageQueueMutex_], and sleeps; [polls] lists what the two looks of
    each round see.  The result is the number of the round in which the
    loop is left, if it is left within [polls]. *)
Definition nothing_indexed_or_queued (s : Scheduler) : bool :=
  bool_decide (tasks_ s = ∅) && bool_decide (llmTaskQueue_ s = [])
  && bool_decide (ttsTaskQueue_ s = []).

Definition image_queue_empty (s : Scheduler) : bool :=
  bool_decide (imageTaskQueue_ s = []).

Fixpoint waitForAllTasks (polls : list (Scheduler * Scheduler)) : option nat :=
  match polls with
  | [] => None
  | (first, second) :: rest =>
      if nothing_indexed_or_queued first then Some 0%nat
      else if image_queue_empty second then Some 0%nat
      else S <$> waitForAllTasks rest
  end.

(** [Task<ResultType>::execute] with the bound function returning a value
    or throwing, and [getTypedResult]. *)
Inductive Body := BodyReturns (value : string) | BodyThrows (what : string).

Definition Task_execute (body : Body) (t : Task) : Task :=
  match body with
  | BodyReturns value =>
      {| type_ := type_ t; priority_ := priority_ t; status_ := COMPLETED;
         taskId_ := taskId_ t; result_ := Some value;
         exception_ := exception_ t |}
  | BodyThrows what =>
      {| type_ := type_ t; priority_ := priority_ t; status_ := FAILED;
         taskId_ := taskId_ t; result_ := result_ t;
         exception_ := Some what |}
  end.

(** What the caller of [future.get()] gets: a value, a rethrown
    exception, or the dereference of a null [shared_ptr]. *)
Inductive Outcome :=
  | Value (value : string)
  | Rethrown (what : string)
  | NullDereference.

(** [*task->getTypedResult()]. *)
Definition dereference_result (t : Task) : Outcome :=
  match exception_ t with
  | Some what => Rethrown what
  | None =>
      match result_ t with
      | Some value => Value value
      | None => NullDereference
      end
  end.

(** The deferred function behind the future that [submitTask] returns:
    [looks] lists the task object as each round of its loop sees it; the
    loop sleeps while the status is PENDING or RUNNING.  [None] means that
    it is still sleeping after the last look. *)
Fixpoint future_get (looks : list Task) : option Outcome :=
  match looks with
  | [] => None
  | t :: rest =>
      match status_ t with
      | PENDING | RUNNING => future_get rest
      | _ => Some (dereference_result t)
      end
  end.

Definition is_shutdown (a : Action) : bool :=
  match a with
  | DoShutdown _ => true
  | _ => false
  end.

Definition is_addWorker (a : Action) : bool :=
  match a with
  | DoAddWorker _ => true
  | _ => false
  end.

Definition is_submit (a : Action) : bool :=
  match a with
  | DoSubmit _ _ _ => true
  | _ => false
  end.

End RIS.

(** ** TaskQueue *)
Module TaskQueue.

(** What a queued [std::function<void()>] does when it is called: it
    returns, it throws a [std::exception] with a [what()] text, or it
    throws something else. *)
Inductive TaskBody := Returns | ThrowsStd (what : string) | ThrowsOther.

#[global] Instance TaskBody_eq_dec : EqDecision TaskBody.
Proof. solve_decision. Defined.

(** [struct QueueItem]. *)
Record QueueItem := mkQueueItem {
  id : N;
  task : TaskBody;
  priority : Z
}.

#[global] Instance QueueItem_eq_dec : EqDecision QueueItem.
Proof. solve_decision. Defined.

(** [QueueItem::operator<]. *)
Definition item_lt (a b : QueueItem) : bool :=
  bool_decide (priority a < priority b)%Z.

(** Where the worker thread is in [workerThread]: about to test
    [while (running_)], about to take the lock and wait, outside the lock
    with a task to run, or past the loop. *)
Inductive ThreadState :=
  | AtLoopTest
  | Waiting
  | Holding (body : TaskBody)
  | Exited.

#[global] Instance ThreadState_eq_dec : EqDecision ThreadState.
Proof. solve_decision. Defined.

(** The data members of [class TaskQueue].  [queue_] lists the items that
    the [std::priority_queue] holds, in the order they were pushed;
    [workers_] holds the state of each thread; [started] lists the ids of
    the items taken out of the queue, oldest first, and [cerr] the lines
    written to [std::cerr]. *)
Record State := mkState {
  running_ : bool;
  max_concurrent_ : N;
  running_count_ : N;
  next_task_id_ : N;
  queue_ : list QueueItem;
  workers_ : list ThreadState;
  started : list N;
  cerr : list string
}.

Definition size_t_modulus : N := 2 ^ 64.

(** [TaskQueue::TaskQueue]. *)
Definition TaskQueue_new (max_concurrent : N) : State :=
  {| running_ := false; max_concurrent_ := max_concurrent;
     running_count_ := 0; next_task_id_ := 1; queue_ := [];
     workers_ := []; started := []; cerr := [] |}.

(** [TaskQueue::initialize]. *)
Definition initialize (s : State) : State :=
  if running_ s then s
  else
    {| running_ := true; max_concurrent_ := max_concurrent_ s;
       running_count_ := running_count_ s;
       next_task_id_ := next_task_id_ s; queue_ := queue_ s;
       workers_ := workers_ s ++ [AtLoopTest];
       started := started s; cerr := cerr s |}.

(** [TaskQueue::enqueue]; [None] is an empty [std::function]. *)
Definition enqueue (body : option TaskBody) (prio : Z) (s : State)
    : N * State :=
  match body with
  | Some b =>
      if running_ s then
        let task_id := next_task_id_ s in
        (task_id,
         {| running_ := running_ s; max_concurrent_ := max_concurrent_ s;
            running_count_ := running_count_ s;
            next_task_id_ := (next_task_id_ s + 1) mod size_t_modulus;
            queue_ := queue_ s ++ [mkQueueItem task_id b prio];
            workers_ := workers_ s; started := started s;
            cerr := cerr s |})
      else (0, s)
  | None => (0, s)
  end.

(** [TaskQueue::cancel]. *)
Definition cancel (task_id : N) (s : State) : bool * State :=
  if negb (running_ s) || bool_decide (task_id = 0) then (false, s)
  else (false, s).

(** [TaskQueue::size], [TaskQueue::runningCount], [TaskQueue::empty]. *)
Definition size (s : State) : nat := length (queue_ s).
Definition runningCount (s : State) : N := running_count_ s.
Definition empty (s : State) : bool :=
  bool_decide (queue_ s = []) && bool_decide (running_count_ s = 0).

(** [x] can be what [queue_.top()] returns: it is in the queue and no
    item of the queue is greater. *)
Definition is_top (x : QueueItem) (q : list QueueItem) : bool :=
  bool_decide (x ∈ q) && forallb (λ y, negb (item_lt x y)) q.

(** The first item of the queue that no item of the queue is greater
    than. *)
Fixpoint first_max (q : list QueueItem) : option QueueItem :=
  match q with
  | [] => None
  | x :: rest =>
      match first_max rest with
      | Some y => if item_lt x y then Some y else Some x
      | None => Some x
      end
  end.

(** [queue_.top()]: an item of the queue that no item of the queue is
    greater than.  Which of several such items the heap yields is not
    fixed by [std::priority_queue]; [hint] names it, and the first such
    item stands in when [hint] is not one of them. *)
Definition queue_top (hint : QueueItem) (q : list QueueItem)
    : option QueueItem :=
  if is_top hint q then Some hint else first_max q.

(** [queue_.pop()] after [top()] returned [x]. *)
Fixpoint remove_item (x : QueueItem) (q : list QueueItem) : list QueueItem :=
  match q with
  | [] => []
  | y :: rest => if decide (x = y) then rest else y :: remove_item x rest
  end.

Definition set_thread (i : nat) (t : ThreadState) (s : State) : State :=
  {| running_ := running_ s; max_concurrent_ := max_concurrent_ s;
     running_count_ := running_count_ s;
     next_task_id_ := next_task_id_ s; queue_ := queue_ s;
     workers_ := <[i := t]> (workers_ s);
     started := started s; cerr := cerr s |}.

(** The three calls of a task inside [try]: the line written to
    [std::cerr], if any. *)
Definition run_task (body : TaskBody) : list string :=
  match body with
  | Returns => []
  | ThrowsStd what => ["Exception in task queue worker: " +:+ what]
  | ThrowsOther => ["Unknown exception in task queue worker"]
  end.

(** One step of thread [i] through [workerThread].  [top] is the hint
    for [queue_.top()] should the thread get that far. *)
Definition thread_step (top : QueueItem) (i : nat) (s : State) : State :=
  match workers_ s !! i with
  | Some AtLoopTest =>
      set_thread i (if running_ s then Waiting else Exited) s
  | Some Waiting =>
      match queue_ s with
      | [] => if running_ s then s else set_thread i Exited s
      | _ :: _ =>
          if bool_decide (running_count_ s < max_concurrent_ s) then
            match queue_top top (queue_ s) with
            | Some queue_item =>
                {| running_ := running_ s;
                   max_concurrent_ := max_concurrent_ s;
                   running_count_ :=
                     (running_count_ s + 1) mod size_t_modulus;
                   next_task_id_ := next_task_id_ s;
                   queue_ := remove_item queue_item (queue_ s);
                   workers_ :=
                     <[i := Holding (task queue_item)]> (workers_ s);
                   started := started s ++ [id queue_item];
                   cerr := cerr s |}
            | None => s
            end
          else set_thread i AtLoopTest s
      end
  | Some (Holding body) =>
      {| running_ := running_ s; max_concurrent_ := max_concurrent_ s;
         running_count_ :=
           (running_count_ s + size_t_modulus - 1) mod size_t_modulus;
         next_task_id_ := next_task_id_ s; queue_ := queue_ s;
         workers_ := <[i := AtLoopTest]> (workers_ s);
         started := started s;
         cerr := cerr s ++ run_task body |}
  | Some Exited | None => s
  end.

(** Joining thread [i] once [running_] is false: the thread needs at most
    three more steps to leave the loop.  A thread that waits on
    [condition_] is taken to see the notification of [shutdown]. *)
Definition join_thread (top : QueueItem) (s : State) (i : nat) : State :=
  thread_step top i (thread_step top i (thread_step top i s)).

(** [TaskQueue::shutdown]. *)
Definition shutdown (top : QueueItem) (s : State) : State :=
  if running_ s then
    let s1 :=
      {| running_ := false; max_concurrent_ := max_concurrent_ s;
         running_count_ := running_count_ s;
         next_task_id_ := next_task_id_ s; queue_ := queue_ s;
         workers_ := workers_ s; started := started s; cerr := cerr s |} in
    let s2 := foldl (join_thread top) s1 (seq 0 (length (workers_ s1))) in
    {| running_ := false; max_concurrent_ := max_concurrent_ s2;
       running_count_ := 0; next_task_id_ := next_task_id_ s2;
       queue_ := []; workers_ := []; started := started s2;
       cerr := cerr s2 |}
  else s.

(** What clients and the worker thread do, in any order. *)
Inductive Action :=
  | DoInitialize
  | DoEnqueue (body : option TaskBody) (prio : Z)
  | DoCancel (task_id : N)
  | DoStep (top : QueueItem) (i : nat)
  | DoShutdown (top : QueueItem).

Definition exec (s : State) (a : Action) : State :=
  match a with
  | DoInitialize => initialize s
  | DoEnqueue body prio => (enqueue body prio s).2
  | DoCancel task_id => (cancel task_id s).2
  | DoStep top i => thread_step top i s
  | DoShutdown top => shutdown top s
  end.

Definition run (s : State) (acts : list Action) : State := foldl exec s acts.

Definition is_cancel (a : Action) : bool :=
  match a with
  | DoCancel _ => true
  | _ => false
  end.

(** The ids that a list of enqueue calls returns. *)
Fixpoint enqueue_all (calls : list (option TaskBody * Z)) (s : State)
    : list N * State :=
  match calls with
  | [] => ([], s)
  | (body, prio) :: rest =>
      let '(task_id, s1) := enqueue body prio s in
      let '(ids, s2) := enqueue_all rest s1 in
      (task_id :: ids, s2)
  end.

(** The worker threads and the running counter: a stopped queue has no
    thread, a running one has exactly one, and [running_count_] is 1 when
    that thread holds a task and 0 otherwise. *)
Definition single_worker (s : State) : Prop :=
  (running_ s = false ∧ workers_ s = [] ∧ running_count_ s = 0)
  ∨ (running_ s = true
     ∧ ((∃ b, workers_ s = [Holding b] ∧ running_count_ s = 1)
        ∨ (∃ t, workers_ s = [t] ∧ (∀ b, t ≠ Holding b)
                ∧ running_count_ s = 0))).

End TaskQueue.

(** ** What the specification says, in its own words

    These definitions follow the specification text, not the code; the
    theorems below compare them with the code. *)
Module Spec.

(** "priority DESC": High before Medium before Low. *)
Definition async_rank (p : Async.TaskPriority) : nat :=
  match p with
  | Async.HIGH => 2
  | Async.MEDIUM => 1
  | Async.LOW => 0
  end%nat.

(** [x] starts before [y] in a start order. *)
Definition starts_before {A} (x y : A) (order : list A) : Prop :=
  ∃ i j, order !! i = Some x ∧ order !! j = Some y ∧ (i < j)%nat.

(** "Order within class": of two queued tasks, the one with the higher
    priority starts first, and with equal priorities the one submitted
    earlier does.  A queue lists its tasks in submission order. *)
Definition order_within_class (q : list Async.Task)
    (order : list Async.Task) : Prop :=
  ∀ i j x y,
    q !! i = Some x → q !! j = Some y →
    (async_rank (Async.priority_ y) < async_rank (Async.priority_ x)
     ∨ (Async.priority_ x = Async.priority_ y ∧ i < j))%nat →
    starts_before x y order.

(** "ID uniqueness": submitted ids are strictly increasing. *)
Definition strictly_increasing (ids : list N) : Prop :=
  ∀ i j a b, ids !! i = Some a → ids !! j = Some b → (i < j)%nat → a < b.

(** [status(id)]: the current status, or the outcome [NotFound], which is
    not a status. *)
Inductive StatusOutcome :=
  | Status (st : RIS.TaskStatus)
  | NotFound.

Definition status (taskId : string) (s : RIS.Scheduler) : StatusOutcome :=
  match RIS.tasks_ s !! taskId with
  | Some task =>
      match RIS.getStatus s task with
      | Some st => Status st
      | None => NotFound
      end
  | None => NotFound
  end.

(** [cancel(id)] has four outcomes (section 4.6). *)
Inductive CancelOutcome :=
  | CancelOk
  | CancelNotFound
  | CancelTooLate
  | CancelAlreadyFinished.

Definition cancel_outcome (taskId : string) (s : RIS.Scheduler)
    : CancelOutcome :=
  match RIS.tasks_ s !! taskId with
  | Some task =>
      match RIS.getStatus s task with
      | Some RIS.PENDING => CancelOk
      | Some RIS.RUNNING => CancelTooLate
      | Some _ => CancelAlreadyFinished
      | None => CancelNotFound
      end
  | None => CancelNotFound
  end.

(** "Invoke completion handler": while going from [s] to [s'] the
    scheduler called out of its own code at least once. *)
Definition handler_invoked (s s' : RIS.Scheduler) : Prop :=
  ∃ new e, RIS.trace s' = RIS.trace s ++ new ∧ e ∈ new.

(** The record's [error] field: "error (string; set iff Failed)". *)
Definition error_recorded (t : RIS.Task) (msg : string) : Prop :=
  RIS.exception_ t = Some msg.

End Spec.

(** ** Invariants and frame conditions of ResourceIsolationScheduler *)
Module Invariants.
Import RIS.

(** What the dispatch code leaves alone.

    [frame s s']: going from [s] to [s'] keeps the worker registry, the
    worker objects, the thread bookkeeping and the tasks in flight, and
    adds nothing to [tasks_]. *)
Record frame (s s' : Scheduler) : Prop := mkFrame {
  fr_worker_objects : worker_objects s' = worker_objects s;
  fr_workers : workers_ s' = workers_ s;
  fr_gpu : gpuWorkers_ s' = gpuWorkers_ s;
  fr_cpu : cpuWorkers_ s' = cpuWorkers_ s;
  fr_llm : llmWorker_ s' = llmWorker_ s;
  fr_threads : workerThreads_ s' = workerThreads_ s;
  fr_image_thread : imageQueueThread_ s' = imageQueueThread_ s;
  fr_running : running_ s' = running_ s;
  fr_initialized : initialized_ s' = initialized_ s;
  fr_in_flight : in_flight s' = in_flight s;
  fr_tasks : tasks_ s' ⊆ tasks_ s
}.

(** [touches task' s s']: only the task object at [task'] may differ, and
    the new trace events invoke workers on [task'] only. *)
Record touches (task' : nat) (s s' : Scheduler) : Prop := mkTouches {
  to_objects : ∀ task, task ≠ task' →
               task_objects s' !! task = task_objects s !! task;
  to_trace : ∃ new, trace s' = trace s ++ new
                    ∧ ∀ x, x ∈ started new → x = task'
}.

(** The dedicated LLM worker.

    The registry invariant: no worker filed under [cpuWorkers_] can
    handle LLM inference, and the dedicated worker can. *)
Definition dedicated_apart (s : Scheduler) : Prop :=
  (∀ w wo, w ∈ cpuWorkers_ s → worker_objects s !! w = Some wo →
           canHandle wo LLM_INFERENCE = false)
  ∧ (∀ l, llmWorker_ s = Some l →
          ∃ wo, worker_objects s !! l = Some wo
                ∧ canHandle wo LLM_INFERENCE = true).

(** A cancelled task is never handed to a worker.

    [quiet task s s']: the object of [task] is the same in [s'] as in
    [s], and no worker was invoked on [task] in between. *)
Definition quiet (task : nat) (s s' : Scheduler) : Prop :=
  task_objects s' !! task = task_objects s !! task
  ∧ ∃ new, trace s' = trace s ++ new ∧ task ∉ started new.



(** The task is cancelled and no dispatch thread holds it. *)
Definition cancelled_and_idle (task : nat) (s : Scheduler) : Prop :=
  getStatus s task = Some CANCELLED ∧ task ∉ (in_flight s).*1.

(** The submissions that enter a given id into [tasks_]. *)
Definition submits (taskId : string) (a : Action) : Prop :=
  match a with
  | DoSubmit ty pr now => taskId_ (Task_new ty pr now) = taskId
  | _ => False
  end.

(** What joining makes of one thread that holds a task. *)
Definition finish_one (processTask : Worker -> Task -> Processed)
    (acc : Scheduler) (entry : nat * TaskType)
    : Scheduler :=
  let '(task, ty) := entry in
  if terminated acc then acc else dispatch_run processTask task ty acc.

(** Task objects stay, and keep their id, type and priority. *)
Definition objects_stable (s s' : Scheduler) : Prop :=
  ∀ p t, task_objects s !! p = Some t →
         ∃ t', task_objects s' !! p = Some t'
               ∧ taskId_ t' = taskId_ t ∧ type_ t' = type_ t
               ∧ priority_ t' = priority_ t.

(** Worker objects stay, and keep their id, their capabilities and the
    way their [initialize] ends. *)
Definition workers_stable (s s' : Scheduler) : Prop :=
  ∀ w wo, worker_objects s !! w = Some wo →
          ∃ wo', worker_objects s' !! w = Some wo'
                 ∧ capabilities wo' = capabilities wo
                 ∧ workerId wo' = workerId wo
                 ∧ initialize_throws wo' = initialize_throws wo.

(** The worker pools: a GPU worker can handle LLM or image work, a CPU
    worker can handle TTS and neither of the other two, both are
    registered in [workers_], and the dedicated worker is a GPU worker
    that can handle LLM work. *)
Definition registry_sound (s : Scheduler) : Prop :=
  (∀ w, w ∈ gpuWorkers_ s →
        w ∈ workers_ s
        ∧ ∃ wo, worker_objects s !! w = Some wo
                ∧ canHandle wo LLM_INFERENCE
                  || canHandle wo IMAGE_GENERATION = true)
  ∧ (∀ w, w ∈ cpuWorkers_ s →
          w ∈ workers_ s
          ∧ ∃ wo, worker_objects s !! w = Some wo
                  ∧ canHandle wo LLM_INFERENCE = false
                  ∧ canHandle wo IMAGE_GENERATION = false
                  ∧ canHandle wo TTS_SYNTHESIS = true)
  ∧ (∀ l, llmWorker_ s = Some l →
          l ∈ gpuWorkers_ s
          ∧ ∃ wo, worker_objects s !! l = Some wo
                  ∧ canHandle wo LLM_INFERENCE = true).

(** The task at [p] exists and has type [ty]. *)
Definition task_has_type (s : Scheduler) (ty : TaskType) (p : nat) : Prop :=
  type_ <$> task_objects s !! p = Some ty.

(** Every class queue holds tasks of its own type, every task in flight
    has the type noted with it, and no image task is in flight. *)
Definition queues_typed (s : Scheduler) : Prop :=
  (∀ ty p, p ∈ queue_of ty s → task_has_type s ty p)
  ∧ (∀ p ty, (p, ty) ∈ in_flight s →
             task_has_type s ty p ∧ ty ≠ IMAGE_GENERATION).

(** Every id in [tasks_] leads to a task object that carries that id. *)
Definition index_consistent (s : Scheduler) : Prop :=
  ∀ id p, tasks_ s !! id = Some p →
          taskId_ <$> task_objects s !! p = Some id.

(** Worker [w] can handle the type of the task at [p]. *)
Definition call_ok (s : Scheduler) (w p : nat) : Prop :=
  ∃ wo t, worker_objects s !! w = Some wo
          ∧ task_objects s !! p = Some t
          ∧ canHandle wo (type_ t) = true.

(** Every worker call in the trace was made on a worker that can handle
    the type of the task it was given. *)
Definition trace_sound (s : Scheduler) : Prop :=
  ∀ w p, EvProcessTask w p ∈ trace s → call_ok s w p.

(** Worker [w] is the answer of [selectWorker] for the type of the task
    at [p]. *)
Definition chosen (s : Scheduler) (w p : nat) : Prop :=
  ∃ ty, task_has_type s ty p ∧ selectWorker ty s = Some w.

(** The registry and the pools are the same in [s] and [s']. *)
Definition pools_same (s s' : Scheduler) : Prop :=
  workers_ s' = workers_ s ∧ gpuWorkers_ s' = gpuWorkers_ s
  ∧ cpuWorkers_ s' = cpuWorkers_ s ∧ llmWorker_ s' = llmWorker_ s.

(** Task objects and worker objects stay and keep what identifies them;
    worker objects do so in both directions. *)
Definition stable (s s' : Scheduler) : Prop :=
  objects_stable s s' ∧ workers_stable s s' ∧ workers_stable s' s.

(** Between [s] and [s'] there was a state with the pools of [s] in which
    worker [w] was the answer of [selectWorker] for the type of the task
    at [p]. *)
Definition chosen_between (s s' : Scheduler) (w p : nat) : Prop :=
  ∃ s0, stable s s0 ∧ stable s0 s' ∧ pools_same s s0 ∧ chosen s0 w p.

(** From [s] to [s'] the trace has only grown, and every worker call
    added was made on a worker chosen in between. *)
Definition calls_between (s s' : Scheduler) : Prop :=
  ∃ new, trace s' = trace s ++ new
         ∧ ∀ w p, EvProcessTask w p ∈ new → chosen_between s s' w p.

(** A stretch of the run that leaves the pools alone. *)
Definition link (s s' : Scheduler) : Prop :=
  stable s s' ∧ pools_same s s' ∧ calls_between s s'.

(** Every registered worker came through [initialize] without an
    exception. *)
Definition registry_initialized (s : Scheduler) : Prop :=
  ∀ w, w ∈ workers_ s →
       ∃ wo, worker_objects s !! w = Some wo ∧ initialize_throws wo = false.

(** The worker [w] was initialized, and if the task at [p] is a TTS task
    then [w] handles neither LLM nor image work. *)
Definition call_isolated (s : Scheduler) (w p : nat) : Prop :=
  ∃ wo t, worker_objects s !! w = Some wo
          ∧ task_objects s !! p = Some t
          ∧ initialize_throws wo = false
          ∧ (type_ t = TTS_SYNTHESIS →
             canHandle wo LLM_INFERENCE = false
             ∧ canHandle wo IMAGE_GENERATION = false).

Definition trace_isolated (s : Scheduler) : Prop :=
  ∀ w p, EvProcessTask w p ∈ trace s → call_isolated s w p.

(** While no worker is dedicated, no GPU worker can handle LLM work. *)
Definition dedicated_first (s : Scheduler) : Prop :=
  llmWorker_ s = None →
  ∀ w wo, w ∈ gpuWorkers_ s → worker_objects s !! w = Some wo →
          canHandle wo LLM_INFERENCE = false.

(** Every worker that was called is in one of the two pools. *)
Definition calls_registered (s : Scheduler) : Prop :=
  ∀ w p, EvProcessTask w p ∈ trace s →
         w ∈ gpuWorkers_ s ∨ w ∈ cpuWorkers_ s.

(** Every call of the dedicated worker was for an LLM task. *)
Definition dedicated_calls_llm (s : Scheduler) : Prop :=
  ∀ l p, llmWorker_ s = Some l → EvProcessTask l p ∈ trace s →
         task_has_type s LLM_INFERENCE p.

(** The four together. *)
Definition sound (s : Scheduler) : Prop :=
  registry_sound s ∧ queues_typed s ∧ index_consistent s ∧ trace_sound s.

(** How many tasks the three queues hold, and how many tasks wait in a
    queue or are held by a dispatch thread. *)
Definition queued (s : Scheduler) : nat :=
  length (llmTaskQueue_ s) + length (ttsTaskQueue_ s)
  + length (imageTaskQueue_ s).

Definition waiting (s : Scheduler) : N :=
  N.of_nat (queued s + length (in_flight s)).

(** The counters account for the tasks: those counted as completed or
    failed and those still waiting are no more than those submitted. *)
Definition accounted (s : Scheduler) : Prop :=
  completedTasks_ s + failedTasks_ s + waiting s ≤ totalTasks_ s.

(** From [s] to [s'] at most [k] more tasks were counted or queued, and
    nothing was submitted or taken by a dispatch thread. *)
Definition counted_more (k : nat) (s s' : Scheduler) : Prop :=
  totalTasks_ s' = totalTasks_ s
  ∧ in_flight s' = in_flight s
  ∧ completedTasks_ s' + failedTasks_ s' + N.of_nat (queued s')
    ≤ completedTasks_ s + failedTasks_ s + N.of_nat (queued s + k).

(** One dispatch thread can work through the LLM and the TTS queue: the
    scheduler runs, no thread holds a task, no task is queued twice, every
    queued task exists and is not cancelled, and [selectWorker] finds a
    worker for each of the two types that has a task queued. *)
Definition servable (s : Scheduler) : Prop :=
  terminated s = false ∧ running_ s = true
  ∧ (0 < workerThreads_ s)%nat ∧ in_flight s = []
  ∧ NoDup (llmTaskQueue_ s ++ ttsTaskQueue_ s)
  ∧ Forall (λ task, ∃ t, task_objects s !! task = Some t
                         ∧ status_ t ≠ CANCELLED)
           (llmTaskQueue_ s ++ ttsTaskQueue_ s)
  ∧ (llmTaskQueue_ s ≠ [] → is_Some (selectWorker LLM_INFERENCE s))
  ∧ (ttsTaskQueue_ s ≠ [] → is_Some (selectWorker TTS_SYNTHESIS s)).

(** The GPU pool consists of the dedicated worker only. *)
Definition only_dedicated_gpu (s : Scheduler) : Prop :=
  ∀ w, w ∈ gpuWorkers_ s → llmWorker_ s = Some w.

End Invariants.

(** ** Concrete runs *)
Module Scenarios.

(** Scenario S2 on AsyncScheduler: three TTS tasks "a", "b", "c" built and
    submitted in that order with priorities LOW, HIGH, MEDIUM. *)
Definition s2_tasks : list Async.Task :=
  (Async.Task_new_all
     [(Async.TTS_CPU, Async.LOW, "a"); (Async.TTS_CPU, Async.HIGH, "b");
      (Async.TTS_CPU, Async.MEDIUM, "c")]
     Async.next_id_init).1.

Definition s2_scheduler : Async.Scheduler :=
  (Async.submit_all (Some <$> s2_tasks) Async.AsyncScheduler_new).2.

(** Two tasks built one after the other and submitted in the other order. *)
Definition two_tasks : list Async.Task :=
  (Async.Task_new_all
     [(Async.LLM_GPU, Async.MEDIUM, "first");
      (Async.LLM_GPU, Async.MEDIUM, "second")]
     Async.next_id_init).1.

Definition two_tasks_reversed : list (option Async.Task) :=
  Some <$> reverse two_tasks.

(** A task body that reports success and returns. *)
Definition execute_ok (t : Async.Task) : Async.ExecResult :=
  {| Async.notified := [(true, "done")]; Async.thrown := None |}.

(** One LLM task, submitted and already taken by the LLM worker thread. *)
Definition llm_task : Async.Task :=
  (Async.Task_new Async.LLM_GPU Async.MEDIUM "hello" Async.next_id_init).1.

Definition llm_submitted : Async.Scheduler :=
  (Async.submitTask (Some llm_task)
     (Async.start 2 4 Async.AsyncScheduler_new)).2.

(** Three workers: one that can do everything and is registered first, so
    that it becomes the dedicated LLM worker, one TTS worker and one image
    worker. *)
Definition three_workers : gmap nat RIS.Worker :=
  {[ 0%nat := RIS.mkWorker "gpu-all"
                [RIS.LLM_INFERENCE; RIS.TTS_SYNTHESIS; RIS.IMAGE_GENERATION]
                false false "";
     1%nat := RIS.mkWorker "cpu-tts" [RIS.TTS_SYNTHESIS] false false "";
     2%nat := RIS.mkWorker "gpu-img" [RIS.IMAGE_GENERATION] false false "" ]}.

Definition register_three : list RIS.Action :=
  [RIS.DoInitialize 2; RIS.DoAddWorker (Some 0%nat);
   RIS.DoAddWorker (Some 1%nat); RIS.DoAddWorker (Some 2%nat)].

(** Workers that complete the task, that throw "oom", and that return
    while the task is still RUNNING. *)
Definition worker_completes (w : RIS.Worker) (t : RIS.Task) : RIS.Processed :=
  RIS.mkProcessed RIS.COMPLETED (Some "done") None None.

Definition worker_throws_oom (w : RIS.Worker) (t : RIS.Task) : RIS.Processed :=
  RIS.mkProcessed RIS.RUNNING None None (Some (RIS.StdException "oom")).

Definition worker_keeps_running (w : RIS.Worker) (t : RIS.Task)
    : RIS.Processed :=
  RIS.mkProcessed RIS.RUNNING None None None.

Definition ris_ready : RIS.Scheduler :=
  RIS.run worker_completes (RIS.ResourceIsolationScheduler_new three_workers)
    register_three.

(** Scenario S2 on ResourceIsolationScheduler. *)
Definition ris_s2 : RIS.Scheduler :=
  RIS.run worker_completes ris_ready
    [RIS.DoSubmit RIS.TTS_SYNTHESIS RIS.LOW 100;
     RIS.DoSubmit RIS.TTS_SYNTHESIS RIS.HIGH 101;
     RIS.DoSubmit RIS.TTS_SYNTHESIS RIS.MEDIUM 102].

(** Scenario S2 with both dispatch threads at work: each takes a task,
    the first hands "a" to the TTS worker, and the worker is busy when the
    second asks for it with "b". *)
Definition s2_two_threads : list RIS.Action :=
  [RIS.DoFetch; RIS.DoFetch; RIS.DoResume 0;
   RIS.WorkerSetsBusy 1 true; RIS.DoResume 0; RIS.WorkerSetsBusy 1 false]
  ++ RIS.serve 2.

(** One LLM task waiting in its queue. *)
Definition ris_one_llm : RIS.Scheduler :=
  RIS.run worker_completes ris_ready
    [RIS.DoSubmit RIS.LLM_INFERENCE RIS.MEDIUM 100].

(** One LLM task that a worker has left RUNNING. *)
Definition ris_running : RIS.Scheduler :=
  RIS.run worker_keeps_running ris_ready
    [RIS.DoSubmit RIS.LLM_INFERENCE RIS.MEDIUM 7; RIS.DoFetch;
     RIS.DoResume 0].


(** Scenario S6: a task whose worker throws "oom", and a second
    submission afterwards. *)
Definition ris_oom_taken : RIS.Scheduler :=
  RIS.run worker_throws_oom ris_ready
    [RIS.DoSubmit RIS.TTS_SYNTHESIS RIS.MEDIUM 100; RIS.DoFetch].

(** The three workers registered, one task of each type submitted, and
    each task dispatched. *)
Definition mixed_run : list RIS.Action :=
  register_three
  ++ [RIS.DoSubmit RIS.LLM_INFERENCE RIS.MEDIUM 100;
      RIS.DoSubmit RIS.TTS_SYNTHESIS RIS.MEDIUM 101;
      RIS.DoSubmit RIS.IMAGE_GENERATION RIS.MEDIUM 102;
      RIS.DoFetch; RIS.DoResume 0; RIS.DoFetch; RIS.DoResume 0;
      RIS.DoImage].

(** A single GPU worker that handles LLM and image work, registered and
    therefore dedicated to LLM work, and one image task submitted. *)
Definition single_gpu : gmap nat RIS.Worker :=
  {[ 0%nat := RIS.mkWorker "gpu-all"
                [RIS.LLM_INFERENCE; RIS.IMAGE_GENERATION] false false "" ]}.

Definition single_gpu_setup : list RIS.Action :=
  [RIS.DoInitialize 1; RIS.DoAddWorker (Some 0%nat);
   RIS.DoSubmit RIS.IMAGE_GENERATION RIS.HIGH 100].

Definition single_gpu_waiting : RIS.Scheduler :=
  RIS.run worker_completes (RIS.ResourceIsolationScheduler_new single_gpu)
    single_gpu_setup.

(** A TTS worker whose [initialize] throws, and a run that tries to
    register it and then submits and dispatches a TTS task. *)
Definition faulty_worker : gmap nat RIS.Worker :=
  {[ 0%nat := RIS.mkWorker "cpu-tts" [RIS.TTS_SYNTHESIS] false true
                "no voice model" ]}.

Definition faulty_run : list RIS.Action :=
  [RIS.DoInitialize 1; RIS.DoAddWorker (Some 0%nat);
   RIS.DoSubmit RIS.TTS_SYNTHESIS RIS.MEDIUM 100; RIS.DoFetch;
   RIS.DoResume 0].

(** The three workers registered, the dedicated worker busy, and one
    LLM task queued. *)
Definition ris_llm_worker_busy : RIS.Scheduler :=
  RIS.run worker_completes ris_ready
    [RIS.WorkerSetsBusy 0 true;
     RIS.DoSubmit RIS.LLM_INFERENCE RIS.MEDIUM 100].

End Scenarios.

(** ** Facts about AsyncScheduler *)
Module AsyncFacts.
Import Async.

Lemma queue_of_set_queue ty q s : queue_of ty (set_queue ty q s) = q.
Proof. by destruct ty. Qed.

Lemma tasks_set_queue ty q s : tasks_ (set_queue ty q s) = tasks_ s.
Proof. by destruct ty. Qed.

Lemma is_high_true t : is_high t = true ↔ getPriority t = HIGH.
Proof. unfold is_high. by rewrite bool_decide_eq_true. Qed.

Lemma is_high_false t : is_high t = false ↔ getPriority t ≠ HIGH.
Proof. unfold is_high. by rewrite bool_decide_eq_false. Qed.

(** [find_if] stops at the first HIGH task: everything before it is not
    HIGH and keeps its place. *)
Lemma erase_first_high_Some q h q' :
  erase_first_high q = Some (h, q') →
  ∃ l1 l2, q = l1 ++ h :: l2 ∧ q' = l1 ++ l2
           ∧ getPriority h = HIGH
           ∧ Forall (λ t, getPriority t ≠ HIGH) l1.
Proof.
  revert h q'. induction q as [|t rest IH]; intros h q' Hq; [done|].
  simpl in Hq. destruct (is_high t) eqn:Ht.
  - injection Hq as <- <-. exists [], rest.
    split_and!; [done|done|by apply is_high_true|constructor].
  - destruct (erase_first_high rest) as [[h0 r0]|] eqn:Hr; [|done].
    injection Hq as <- <-.
    destruct (IH _ _ eq_refl) as (l1 & l2 & -> & -> & Hh & Hl1).
    exists (t :: l1), l2.
    split_and!; [done|done|done|].
    constructor; [by apply is_high_false|done].
Qed.

Lemma erase_first_high_None q :
  erase_first_high q = None ↔ Forall (λ t, getPriority t ≠ HIGH) q.
Proof.
  induction q as [|t rest IH]; simpl.
  - split; [constructor|done].
  - destruct (is_high t) eqn:Ht.
    + split; [done|]. intros H. apply Forall_cons in H as [H _].
      by apply is_high_true in Ht.
    + destruct (erase_first_high rest) as [[h0 r0]|] eqn:Hr.
      * split; [done|]. intros H. apply Forall_cons in H as [_ H].
        by apply IH in H.
      * split; [|done]. intros _. constructor.
        -- by apply is_high_false.
        -- by apply IH.
Qed.

Lemma filter_none_high (l : list Task) :
  Forall (λ t, getPriority t ≠ HIGH) l →
  filter (λ t, getPriority t = HIGH) l = []
  ∧ filter (λ t, getPriority t ≠ HIGH) l = l.
Proof.
  induction 1 as [|t l Ht _ [IH1 IH2]]; [done|].
  rewrite !filter_cons. rewrite decide_False by done.
  rewrite decide_True by done. by rewrite IH1, IH2.
Qed.

(** The start order of a queue: the HIGH tasks in queue order, then all
    the others in queue order. *)
Lemma dispatch_order_fuel_partition n q :
  (length q ≤ n)%nat →
  dispatch_order_fuel n q
  = filter (λ t, getPriority t = HIGH) q
    ++ filter (λ t, getPriority t ≠ HIGH) q.
Proof.
  revert q. induction n as [|n IH]; intros q Hn.
  - destruct q; [done|simpl in Hn; lia].
  - destruct q as [|front rest]; [done|].
    cbn [dispatch_order_fuel pick_next].
    destruct (erase_first_high (front :: rest)) as [[h r]|] eqn:He.
    + apply erase_first_high_Some in He as (l1 & l2 & Hq & -> & Hh & Hl1).
      rewrite Hq. rewrite IH.
      2:{ assert (length (front :: rest) = length (l1 ++ h :: l2)) as Hlen
            by by rewrite Hq.
          rewrite !length_app in *. simpl in *. lia. }
      destruct (filter_none_high _ Hl1) as [E1 E2].
      rewrite !filter_app, !filter_cons, E1, E2.
      rewrite decide_True by done.
      rewrite (decide_False (P := getPriority h ≠ HIGH)) by tauto.
      done.
    + apply erase_first_high_None in He.
      rewrite IH by (simpl in Hn; lia).
      destruct (filter_none_high _ He) as [E1 E2].
      rewrite E1, E2. apply Forall_cons in He as [_ He].
      destruct (filter_none_high _ He) as [E3 E4].
      by rewrite E3, E4.
Qed.

(** The worker thread's fetches follow [dispatch_order_fuel]. *)
Lemma fetch_sequence_dispatch n worker_type s :
  fetch_sequence n worker_type s
  = dispatch_order_fuel n (queue_of worker_type s).
Proof.
  revert s. induction n as [|n IH]; intros s; [done|].
  simpl. unfold worker_fetch.
  destruct (pick_next (queue_of worker_type s)) as [[t q']|]; [|done].
  by rewrite IH, queue_of_set_queue.
Qed.

(** Ids handed out by consecutive constructions, while the counter does
    not wrap: the counter value at the start, then one more each time. *)
Lemma Task_new_all_ids specs n :
  n + N.of_nat (length specs) ≤ uint64_modulus →
  id_ <$> (Task_new_all specs n).1
  = (λ i, n + N.of_nat i) <$> seq 0 (length specs).
Proof.
  revert n. induction specs as [|[[ty pr] nm] rest IH]; intros n Hn; [done|].
  change (length ((ty, pr, nm) :: rest)) with (S (length rest)) in *.
  rewrite <-cons_seq, fmap_cons.
  cbn [Task_new_all Task_new].
  destruct rest as [|spec rest'].
  { cbn. f_equal. lia. }
  assert ((n + 1) mod uint64_modulus = n + 1) as ->.
  { apply N.mod_small. cbn [length] in Hn. lia. }
  specialize (IH (n + 1)).
  destruct (Task_new_all (spec :: rest') (n + 1)) as [ts n2].
  cbn [fst] in *. rewrite fmap_cons. cbn [id_].
  f_equal; [lia|]. rewrite IH by lia.
  rewrite <-(fmap_S_seq 0), <-list_fmap_compose.
  apply list_fmap_ext. intros i x _. simpl. lia.
Qed.

Lemma submit_all_ids tasks s :
  (submit_all (Some <$> tasks) s).1 = id_ <$> tasks.
Proof.
  revert s. induction tasks as [|t rest IH]; intros s; [done|].
  simpl. specialize (IH (set_queue (getType t)
    (queue_of (getType t)
       (set_tasks (<[getId t:=t]> (tasks_ s)) s) ++ [t])
    (set_tasks (<[getId t:=t]> (tasks_ s)) s))).
  destruct (submit_all _ _) as [ids s2]. simpl in *. by rewrite IH.
Qed.

(** The join steps do not write [running_]. *)
Lemma worker_execute_running execute t s :
  running_ (worker_execute execute t s) = running_ s.
Proof. done. Qed.

Lemma worker_fetch_running ty s :
  running_ (worker_fetch ty s).2 = running_ s.
Proof.
  unfold worker_fetch. destruct (pick_next (queue_of ty s)) as [[t q']|];
    [|done]. by destruct ty.
Qed.

Lemma fetch_step_running ty c :
  running_ (sched (fetch_step ty c)) = running_ (sched c).
Proof.
  unfold fetch_step. pose proof (worker_fetch_running ty (sched c)) as H.
  by destruct (worker_fetch ty (sched c)) as [[t|] s1].
Qed.

Lemma execute_step_running execute i c :
  running_ (sched (execute_step execute i c)) = running_ (sched c).
Proof.
  unfold execute_step. by destruct (held c !! i) as [[ty t]|].
Qed.

Lemma late_work_running execute budget steps c :
  running_ (sched (late_work execute budget steps c)) = running_ (sched c).
Proof.
  revert budget c. induction steps as [|[ty|i] steps IH]; intros budget c;
    simpl; [done| |].
  - destruct (budget ty); [apply IH|]. by rewrite IH, fetch_step_running.
  - by rewrite IH, execute_step_running.
Qed.

Lemma finish_held_running execute l s :
  running_ (foldl (λ s (e : TaskType * Task), worker_execute execute e.2 s) s l) = running_ s.
Proof.
  revert s. induction l as [|e l IH]; intros s; [done|].
  simpl. by rewrite IH.
Qed.

(** Once the joins have returned, [stop] on a scheduler that was running
    leaves nothing behind. *)
Lemma stop_running execute l s :
  running_ s = true →
  let s' := stop (foldl (λ s (e : TaskType * Task), worker_execute execute e.2 s) s l) in
  tasks_ s' = ∅ ∧ llm_queue_ s' = [] ∧ tts_queue_ s' = []
  ∧ image_queue_ s' = [] ∧ gpu_workers_ s' = [] ∧ cpu_workers_ s' = []
  ∧ @nil (TaskType * Task) = [] ∧ running_ s' = false.
Proof.
  intros Hrun s'. subst s'. unfold stop.
  by rewrite finish_held_running, Hrun.
Qed.

End AsyncFacts.

(** ** Facts about ResourceIsolationScheduler *)
Module RISFacts.
Import RIS Invariants.

(** Splitting a scheduler into its fields lets every field update
    compute. *)
Ltac split_sched s :=
  destruct s as [objs wobjs ws gs cs lw lq tq iq idx wt it rn ini
                 tot comp fail fl tr err term].

Lemma ris_queue_of_set_queue ty q s : queue_of ty (set_queue ty q s) = q.
Proof. split_sched s. by destruct ty. Qed.

Lemma getStatus_store_status_eq s task st :
  is_Some (task_objects s !! task) →
  getStatus (store_status task st s) task = Some st.
Proof.
  intros [t Ht]. split_sched s. unfold getStatus, store_status. simpl in *.
  by rewrite lookup_alter_eq, Ht.
Qed.

(** *** cancelTask *)

Lemma cancelTask_pending s taskId task :
  tasks_ s !! taskId = Some task →
  getStatus s task = Some PENDING →
  cancelTask taskId s
  = (true, set_tasks (delete taskId (tasks_ s))
             (store_status task CANCELLED s)).
Proof.
  intros Hi Hs. unfold cancelTask. rewrite Hi.
  by rewrite bool_decide_eq_true_2.
Qed.

Lemma cancelTask_not_pending s taskId task :
  tasks_ s !! taskId = Some task →
  getStatus s task ≠ Some PENDING →
  cancelTask taskId s = (false, s).
Proof.
  intros Hi Hs. unfold cancelTask. rewrite Hi.
  by rewrite bool_decide_eq_false_2.
Qed.

Lemma cancelTask_absent s taskId :
  tasks_ s !! taskId = None → cancelTask taskId s = (false, s).
Proof. intros Hi. unfold cancelTask. by rewrite Hi. Qed.

Lemma cancelTask_true_absent s taskId s' :
  cancelTask taskId s = (true, s') → tasks_ s' !! taskId = None.
Proof.
  unfold cancelTask. destruct (tasks_ s !! taskId) as [task|]; [|done].
  case_bool_decide; [|done]. intros [= <-].
  split_sched s. simpl. apply lookup_delete_eq.
Qed.

Lemma frame_refl s : frame s s.
Proof. by constructor. Qed.

Lemma frame_trans s1 s2 s3 : frame s1 s2 → frame s2 s3 → frame s1 s3.
Proof.
  intros H12 H23. constructor;
    (etrans; [by apply H23|by apply H12]).
Qed.

Lemma touches_refl task' s : touches task' s s.
Proof.
  constructor; [done|]. exists []. split; [by rewrite app_nil_r|].
  intros x Hx. by apply elem_of_nil in Hx.
Qed.

Lemma started_app tr1 tr2 : started (tr1 ++ tr2) = started tr1 ++ started tr2.
Proof. unfold started. apply omap_app. Qed.

Lemma touches_trans task' s1 s2 s3 :
  touches task' s1 s2 → touches task' s2 s3 → touches task' s1 s3.
Proof.
  intros [H1 (n1 & E1 & S1)] [H2 (n2 & E2 & S2)]. constructor.
  - intros task Hne. by rewrite H2, H1.
  - exists (n1 ++ n2). split; [by rewrite E2, E1, app_assoc|].
    intros x. rewrite started_app, elem_of_app. intros [?|?]; auto.
Qed.

(** A step that changes neither task objects nor the trace. *)
Lemma touches_same task' s s' :
  task_objects s' = task_objects s → trace s' = trace s → touches task' s s'.
Proof.
  intros Ho Ht. constructor; [by rewrite Ho|].
  exists []. rewrite Ht, app_nil_r. split; [done|].
  intros x Hx. by apply elem_of_nil in Hx.
Qed.

Lemma frame_set_queue ty q s : frame s (set_queue ty q s).
Proof. split_sched s. destruct ty; by constructor. Qed.

Lemma touches_set_queue task' ty q s : touches task' s (set_queue ty q s).
Proof. apply touches_same; split_sched s; by destruct ty. Qed.

Lemma frame_erase_task_id task s : frame s (erase_task_id task s).
Proof.
  unfold erase_task_id. destruct (getTaskId s task) as [id|];
    [|apply frame_refl].
  split_sched s. constructor; try done. simpl. apply delete_subseteq.
Qed.

Lemma touches_erase_task_id task' task s :
  touches task' s (erase_task_id task s).
Proof.
  unfold erase_task_id. destruct (getTaskId s task) as [id|];
    [|apply touches_refl].
  apply touches_same; by split_sched s.
Qed.

Lemma frame_erase_if_finished task s : frame s (erase_if_finished task s).
Proof.
  unfold erase_if_finished.
  destruct (getStatus s task) as [[]|];
    auto using frame_refl, frame_erase_task_id.
Qed.

Lemma touches_erase_if_finished task' task s :
  touches task' s (erase_if_finished task s).
Proof.
  unfold erase_if_finished.
  destruct (getStatus s task) as [[]|];
    auto using touches_refl, touches_erase_task_id.
Qed.

Section WithWorkers.
Variable processTask : Worker -> Task -> Processed.

Local Abbreviation finish_one := (Invariants.finish_one processTask).

Lemma frame_run_worker prefix w task s :
  frame s (run_worker processTask prefix w task s).
Proof.
  unfold run_worker.
  destruct (worker_objects s !! w) as [wo|]; [|apply frame_refl].
  destruct (task_objects s !! task) as [t|]; [|apply frame_refl].
  destruct (processTask wo t) as [st res ex [[what|]|]];
    split_sched s; simpl; try destruct st; by constructor.
Qed.

Lemma touches_run_worker prefix w task s :
  touches task s (run_worker processTask prefix w task s).
Proof.
  unfold run_worker.
  destruct (worker_objects s !! w) as [wo|]; [|apply touches_refl].
  destruct (task_objects s !! task) as [t|]; [|apply touches_refl].
  assert (∀ x, x ∈ started [EvProcessTask w task] → x = task) as Hst.
  { intros x Hx. simpl in Hx. by apply list_elem_of_singleton in Hx. }
  destruct (processTask wo t) as [st res ex [[what|]|]];
    split_sched s; simpl; try destruct st;
    (constructor; simpl;
     [ intros task0 Hne; unfold store_status; simpl;
       rewrite ?lookup_alter_ne by done; by rewrite lookup_insert_ne
     | by exists [EvProcessTask w task] ]).
Qed.

Lemma frame_dispatch_run task ty s :
  frame s (dispatch_run processTask task ty s).
Proof.
  unfold dispatch_run.
  set (s1 := match selectWorker ty s with Some _ => _ | None => _ end).
  assert (frame s s1) as H1.
  { subst s1. destruct (selectWorker ty s);
      [apply frame_run_worker|destruct ty; auto using frame_set_queue, frame_refl]. }
  destruct (terminated s1); [done|].
  eapply frame_trans; [done|apply frame_erase_if_finished].
Qed.

Lemma touches_dispatch_run task ty s :
  touches task s (dispatch_run processTask task ty s).
Proof.
  unfold dispatch_run.
  set (s1 := match selectWorker ty s with Some _ => _ | None => _ end).
  assert (touches task s s1) as H1.
  { subst s1. destruct (selectWorker ty s);
      [apply touches_run_worker
      |destruct ty; auto using touches_set_queue, touches_refl]. }
  destruct (terminated s1); [done|].
  eapply touches_trans; [done|apply touches_erase_if_finished].
Qed.

(** The first critical section of [processTaskQueues] changes no task
    object and calls nobody; a task it hands out is not cancelled. *)
Lemma frame_check_cancelled task ty s :
  frame s (check_cancelled task ty s).2.
Proof.
  unfold check_cancelled. case_bool_decide; simpl;
    auto using frame_refl, frame_erase_task_id.
Qed.

Lemma touches_check_cancelled task' task ty s :
  touches task' s (check_cancelled task ty s).2.
Proof.
  unfold check_cancelled. case_bool_decide; simpl;
    auto using touches_refl, touches_erase_task_id.
Qed.

Lemma frame_dispatch_fetch s : frame s (dispatch_fetch s).2.
Proof.
  unfold dispatch_fetch.
  destruct (llmTaskQueue_ s) as [|task rest].
  - destruct (ttsTaskQueue_ s) as [|task rest]; [apply frame_refl|].
    eapply frame_trans; [apply frame_set_queue|apply frame_check_cancelled].
  - eapply frame_trans; [apply frame_set_queue|apply frame_check_cancelled].
Qed.

Lemma touches_dispatch_fetch task' s : touches task' s (dispatch_fetch s).2.
Proof.
  unfold dispatch_fetch.
  destruct (llmTaskQueue_ s) as [|task rest].
  - destruct (ttsTaskQueue_ s) as [|task rest]; [apply touches_refl|].
    eapply touches_trans;
      [apply touches_set_queue|apply touches_check_cancelled].
  - eapply touches_trans;
      [apply touches_set_queue|apply touches_check_cancelled].
Qed.

Lemma getStatus_set_queue ty q s task :
  getStatus (set_queue ty q s) task = getStatus s task.
Proof. split_sched s. by destruct ty. Qed.

Lemma dispatch_fetch_Taken s task ty s1 :
  dispatch_fetch s = (Taken task ty, s1) →
  getStatus s task ≠ Some CANCELLED
  ∧ match ty with
    | LLM_INFERENCE => ∃ rest, llmTaskQueue_ s = task :: rest
    | TTS_SYNTHESIS =>
        llmTaskQueue_ s = [] ∧ ∃ rest, ttsTaskQueue_ s = task :: rest
    | IMAGE_GENERATION => False
    end.
Proof.
  unfold dispatch_fetch, check_cancelled.
  destruct (llmTaskQueue_ s) as [|t1 r1].
  - destruct (ttsTaskQueue_ s) as [|t2 r2]; [done|].
    case_bool_decide as Hc; [done|]. intros [= <- <- <-].
    rewrite getStatus_set_queue in Hc. eauto.
  - case_bool_decide as Hc; [done|]. intros [= <- <- <-].
    rewrite getStatus_set_queue in Hc. eauto.
Qed.

(** The image loop. *)
Lemma frame_processImageGenerationQueue s :
  frame s (processImageGenerationQueue processTask s).
Proof.
  unfold processImageGenerationQueue.
  destruct (imageTaskQueue_ s) as [|task rest]; [apply frame_refl|].
  set (s1 := set_queue IMAGE_GENERATION rest s).
  assert (frame s s1) as H1 by apply frame_set_queue.
  destruct (negb (indexed s1 task)
            || bool_decide (getStatus s1 task = Some CANCELLED)); [done|].
  set (s2 := match select_image_worker s1 with Some _ => _ | None => _ end).
  assert (frame s1 s2) as H2.
  { subst s2. destruct (select_image_worker s1);
      [apply frame_run_worker|apply frame_set_queue]. }
  destruct (terminated s2); [by eapply frame_trans|].
  eapply frame_trans; [by eapply frame_trans|].
  apply frame_erase_if_finished.
Qed.

(** The image loop touches only the task at the front of its queue, and
    not even that one when it is cancelled. *)
Lemma touches_processImageGenerationQueue s :
  match imageTaskQueue_ s with
  | [] => processImageGenerationQueue processTask s = s
  | task :: _ =>
      touches task s (processImageGenerationQueue processTask s)
      ∧ (getStatus s task = Some CANCELLED →
         task_objects (processImageGenerationQueue processTask s)
         = task_objects s
         ∧ trace (processImageGenerationQueue processTask s) = trace s)
  end.
Proof.
  unfold processImageGenerationQueue.
  destruct (imageTaskQueue_ s) as [|task rest]; [done|].
  set (s1 := set_queue IMAGE_GENERATION rest s).
  assert (touches task s s1) as H1 by apply touches_set_queue.
  assert (getStatus s1 task = getStatus s task) as Hst
    by apply getStatus_set_queue.
  assert (task_objects s1 = task_objects s ∧ trace s1 = trace s) as Hsame
    by (subst s1; by split_sched s).
  split.
  - destruct (negb (indexed s1 task)
              || bool_decide (getStatus s1 task = Some CANCELLED)); [done|].
    set (s2 := match select_image_worker s1 with
               | Some _ => _ | None => _ end).
    assert (touches task s1 s2) as H2.
    { subst s2. destruct (select_image_worker s1);
        [apply touches_run_worker|apply touches_set_queue]. }
    destruct (terminated s2); [by eapply touches_trans|].
    eapply touches_trans; [by eapply touches_trans|].
    apply touches_erase_if_finished.
  - intros Hc. rewrite Hst, Hc.
    rewrite bool_decide_eq_true_2 by done. by rewrite orb_true_r.
Qed.

Lemma frame_finish_all l acc : frame acc (foldl finish_one acc l).
Proof.
  revert acc. induction l as [|[task ty] l IH]; intros acc;
    [apply frame_refl|].
  simpl. eapply frame_trans; [|apply IH].
  destruct (terminated acc); [apply frame_refl|apply frame_dispatch_run].
Qed.

Lemma quiet_finish_all (task : nat) l acc :
  task ∉ l.*1 →
  task_objects (foldl finish_one acc l) !! task = task_objects acc !! task
  ∧ ∃ new, trace (foldl finish_one acc l) = trace acc ++ new
           ∧ task ∉ started new.
Proof.
  revert acc. induction l as [|[task' ty] l IH]; intros acc Hnot.
  - split; [done|]. exists []. rewrite app_nil_r. split; [done|].
    apply not_elem_of_nil.
  - simpl in Hnot. apply not_elem_of_cons in Hnot as [Hne Hnot].
    change (foldl finish_one acc ((task', ty) :: l))
      with (foldl finish_one (finish_one acc (task', ty)) l).
    destruct (IH (finish_one acc (task', ty)) Hnot)
      as (Ho & new2 & Et & Hs).
    assert (touches task' acc (finish_one acc (task', ty))) as Ht.
    { simpl. destruct (terminated acc);
        [apply touches_refl|apply touches_dispatch_run]. }
    destruct Ht as [Hobj (new1 & Et1 & Hs1)]. split.
    + by rewrite Ho, Hobj.
    + exists (new1 ++ new2). split; [by rewrite Et, Et1, app_assoc|].
      rewrite started_app, not_elem_of_app. split; [|done].
      intros Hin. by apply Hs1 in Hin.
Qed.

Lemma join_threads_unfold s :
  join_threads processTask s
  = foldl finish_one (set_in_flight [] s) (in_flight s).
Proof.
  unfold join_threads. f_equal.
Qed.

Lemma dedicated_apart_frame s s' :
  frame s s' → dedicated_apart s → dedicated_apart s'.
Proof.
  intros [] [H1 H2]. split.
  - intros w wo. rewrite fr_cpu0, fr_worker_objects0. apply H1.
  - intros l. rewrite fr_llm0, fr_worker_objects0. apply H2.
Qed.

Lemma dedicated_apart_new ws :
  dedicated_apart (ResourceIsolationScheduler_new ws).
Proof.
  split; simpl; [|done]. intros w wo Hw. by apply elem_of_nil in Hw.
Qed.

Lemma dedicated_apart_addWorker worker s :
  dedicated_apart s → dedicated_apart (addWorker worker s).2.
Proof.
  intros [H1 H2]. unfold addWorker.
  destruct worker as [w|]; [|done].
  destruct (worker_objects s !! w) as [wo|] eqn:Hw; [|done].
  destruct (initialize_throws wo).
  { split_sched s. by split. }
  destruct (canHandle wo LLM_INFERENCE) eqn:Hl; simpl.
  - split_sched s. simpl in *. split; [done|].
    destruct lw as [l|]; [done|]. intros l [= <-]. eauto.
  - destruct (canHandle wo IMAGE_GENERATION) eqn:Hi.
    + split_sched s. simpl in *. split; [done|]. by destruct lw.
    + destruct (canHandle wo TTS_SYNTHESIS).
      * split_sched s. simpl in *. split; [|done].
        intros w' wo'. simpl. rewrite elem_of_app, list_elem_of_singleton.
        intros [Hin| ->]; [by apply H1|]. congruence.
      * split_sched s. by split.
Qed.

Lemma canHandle_set_busy b wo ty :
  canHandle (set_busy b wo) ty = canHandle wo ty.
Proof. done. Qed.

Lemma dedicated_apart_busy w b s :
  dedicated_apart s →
  dedicated_apart
    (set_worker_objects (alter (set_busy b) w (worker_objects s)) s).
Proof.
  intros [H1 H2]. split_sched s. simpl in *. split; simpl.
  - intros w' wo' Hin. rewrite lookup_alter.
    case_decide as Hd; [|by apply H1]. subst.
    destruct (wobjs !! w') as [wo|] eqn:Hw; [|done].
    intros [= <-]. rewrite canHandle_set_busy. by eapply H1.
  - intros l Hl. destruct (H2 l Hl) as (wo & Hw & Hc).
    rewrite lookup_alter. case_decide as Hd; [|eauto]. subst.
    rewrite Hw. simpl. eauto.
Qed.

Lemma dedicated_apart_join_step acc step :
  dedicated_apart acc → dedicated_apart (join_step processTask acc step).
Proof.
  intros Hinv. unfold join_step. destruct (terminated acc); [done|].
  destruct step as [|i| |w b].
  - pose proof (frame_dispatch_fetch acc) as Hf.
    destruct (dispatch_fetch acc) as [[| |task ty] s1]; simpl in Hf;
      try by eapply dedicated_apart_frame.
    apply (dedicated_apart_frame _ _ Hf) in Hinv.
    clear -Hinv. by split_sched s1.
  - destruct (in_flight acc !! i) as [[task ty]|]; [|done].
    eapply dedicated_apart_frame; [apply frame_dispatch_run|].
    clear -Hinv. by split_sched acc.
  - eapply dedicated_apart_frame;
      [apply frame_processImageGenerationQueue|done].
  - by apply dedicated_apart_busy.
Qed.

Lemma dedicated_apart_join_steps l acc :
  dedicated_apart acc →
  dedicated_apart (foldl (join_step processTask) acc l).
Proof.
  revert acc. induction l as [|step l IH]; intros acc Hinv; [done|].
  simpl. by apply IH, dedicated_apart_join_step.
Qed.

Lemma dedicated_apart_shutdown steps s :
  dedicated_apart s → dedicated_apart (shutdown processTask steps s).
Proof.
  intros Hinv. unfold shutdown. destruct (initialized_ s); [|done].
  set (s0 := set_threads _ _ _ _ s).
  assert (dedicated_apart s0) as H0 by (subst s0; by split_sched s).
  set (s1 := late_work processTask steps s0).
  assert (dedicated_apart s1) as H1 by by apply dedicated_apart_join_steps.
  clearbody s1. clear s0 H0 Hinv.
  rewrite join_threads_unfold.
  assert (dedicated_apart (set_in_flight [] s1)) as H1'
    by (clear -H1; by split_sched s1).
  assert (dedicated_apart (foldl finish_one (set_in_flight [] s1)
                                 (in_flight s1))) as H2
    by (eapply dedicated_apart_frame; [apply frame_finish_all|done]).
  destruct (terminated _); [done|].
  clear. generalize (foldl finish_one (set_in_flight [] s1) (in_flight s1)).
  intros s2. split_sched s2. split; simpl; [|done].
  intros w wo Hw. by apply elem_of_nil in Hw.
Qed.

Lemma dedicated_apart_exec s a :
  dedicated_apart s → dedicated_apart (exec processTask s a).
Proof.
  intros Hinv. unfold exec. destruct (terminated s); [done|].
  destruct a as [n|w|ty pr now|id| |i| | |w b].
  - unfold initialize. destruct (initialized_ s); [done|].
    by split_sched s.
  - by apply dedicated_apart_addWorker.
  - unfold submitTask. split_sched s. by destruct ty.
  - unfold cancelTask. destruct (tasks_ s !! id); [|done].
    case_bool_decide; [|done]. by split_sched s.
  - destruct (running_ s && _); [|done].
    pose proof (frame_dispatch_fetch s) as Hf.
    destruct (dispatch_fetch s) as [[| |task ty] s1]; simpl in Hf;
      try by eapply dedicated_apart_frame.
    apply (dedicated_apart_frame _ _ Hf) in Hinv.
    clear -Hinv. by split_sched s1.
  - destruct (in_flight s !! i) as [[task ty]|]; [|done].
    eapply dedicated_apart_frame; [apply frame_dispatch_run|].
    clear -Hinv. by split_sched s.
  - destruct (running_ s && imageQueueThread_ s); [|done].
    eapply dedicated_apart_frame;
      [apply frame_processImageGenerationQueue|done].
  - by apply dedicated_apart_shutdown.
  - by apply dedicated_apart_busy.
Qed.

Lemma dedicated_apart_run acts s :
  dedicated_apart s → dedicated_apart (run processTask s acts).
Proof.
  revert s. induction acts as [|a acts IH]; intros s Hinv; [done|].
  simpl. apply IH. by apply dedicated_apart_exec.
Qed.

(** Under the invariant, a worker selected for TTS or image work is not
    the dedicated one. *)
Lemma selectWorker_not_dedicated s type w :
  dedicated_apart s →
  type ≠ LLM_INFERENCE →
  selectWorker type s = Some w →
  llmWorker_ s ≠ Some w.
Proof.
  intros [H1 H2] Hty. unfold selectWorker.
  assert ((match llmWorker_ s with
           | Some l =>
               if bool_decide (type = LLM_INFERENCE) && worker_idle s l
               then Some l else None
           | None => None
           end) = None) as ->.
  { destruct (llmWorker_ s); [|done].
    by rewrite (bool_decide_eq_false_2 (type = LLM_INFERENCE)). }
  case_bool_decide as Htts.
  - intros Hf. apply find_some in Hf as [Hin Hable].
    apply list_elem_of_In in Hin. unfold idle_and_able in Hable.
    destruct (worker_objects s !! w) as [wo|] eqn:Hw; [|done].
    intros Hl. destruct (H2 _ Hl) as (wo' & Hw' & Hc).
    rewrite Hw in Hw'. injection Hw' as <-.
    by rewrite (H1 w wo Hin Hw) in Hc.
  - intros Hf. apply find_some in Hf as [_ Hable].
    apply andb_true_iff in Hable as [Hnd _].
    unfold not_dedicated in Hnd. apply bool_decide_eq_true in Hnd.
    congruence.
Qed.

Lemma select_image_worker_not_dedicated s w :
  select_image_worker s = Some w → llmWorker_ s ≠ Some w.
Proof.
  unfold select_image_worker. intros Hf.
  apply find_some in Hf as [_ Hable].
  apply andb_true_iff in Hable as [Hnd _].
  unfold not_dedicated in Hnd. apply bool_decide_eq_true in Hnd.
  congruence.
Qed.

Lemma quiet_refl task s : quiet task s s.
Proof.
  split; [done|]. exists []. rewrite app_nil_r. split; [done|].
  apply not_elem_of_nil.
Qed.

Lemma quiet_trans task s1 s2 s3 :
  quiet task s1 s2 → quiet task s2 s3 → quiet task s1 s3.
Proof.
  intros [H1 (n1 & E1 & S1)] [H2 (n2 & E2 & S2)]. split.
  - by rewrite H2, H1.
  - exists (n1 ++ n2). split; [by rewrite E2, E1, app_assoc|].
    by rewrite started_app, not_elem_of_app.
Qed.

Lemma quiet_same task s s' :
  task_objects s' = task_objects s → trace s' = trace s → quiet task s s'.
Proof.
  intros Ho Ht. split; [by rewrite Ho|]. exists [].
  rewrite Ht, app_nil_r. split; [done|]. apply not_elem_of_nil.
Qed.

Lemma touches_quiet task task' s s' :
  task' ≠ task → touches task' s s' → quiet task s s'.
Proof.
  intros Hne [Ho (new & Et & Hs)]. split; [by apply Ho|].
  exists new. split; [done|]. intros Hin. apply Hs in Hin. congruence.
Qed.

Lemma getStatus_quiet task s s' :
  quiet task s s' → getStatus s' task = getStatus s task.
Proof. intros [Ho _]. unfold getStatus. by rewrite Ho. Qed.

Lemma same_dispatch_fetch s :
  task_objects (dispatch_fetch s).2 = task_objects s
  ∧ trace (dispatch_fetch s).2 = trace s.
Proof.
  unfold dispatch_fetch, check_cancelled, erase_task_id.
  destruct (llmTaskQueue_ s) as [|t1 r1].
  - destruct (ttsTaskQueue_ s) as [|t2 r2]; [done|].
    case_bool_decide; simpl; [|by split_sched s].
    destruct (getTaskId _ t2); by split_sched s.
  - case_bool_decide; simpl; [|by split_sched s].
    destruct (getTaskId _ t1); by split_sched s.
Qed.

Lemma not_in_delete (task : nat) i (l : list (nat * TaskType)) :
  task ∉ l.*1 → task ∉ (delete i l).*1.
Proof.
  intros Hnot Hin. apply Hnot.
  apply list_elem_of_fmap in Hin as (e & -> & He).
  apply list_elem_of_fmap. exists e. split; [done|].
  by eapply list_elem_of_delete_inv.
Qed.

Lemma join_step_cancelled task s step :
  cancelled_and_idle task s →
  cancelled_and_idle task (join_step processTask s step)
  ∧ quiet task s (join_step processTask s step).
Proof.
  intros [Hst Hfl].
  assert (∀ s', quiet task s s' → in_flight s' = in_flight s →
                cancelled_and_idle task s' ∧ quiet task s s') as Hkeep.
  { intros s' Hq Hf. split; [|done]. split.
    - by rewrite (getStatus_quiet _ _ _ Hq).
    - by rewrite Hf. }
  unfold join_step. destruct (terminated s).
  { apply Hkeep; [apply quiet_refl|done]. }
  destruct step as [|i| |w b].
  - pose proof (same_dispatch_fetch s) as [Ho Et].
    pose proof (frame_dispatch_fetch s) as Hf.
    destruct (dispatch_fetch s) as [[| |task' ty] s1] eqn:Hd; simpl in *;
      try (apply Hkeep; [by apply quiet_same|by apply Hf]).
    apply dispatch_fetch_Taken in Hd as [Hnc _].
    assert (task ≠ task') as Hne by (intros ->; congruence).
    split; [split|].
    + unfold getStatus in *. clear -Hst Ho. split_sched s1. simpl in *.
      by rewrite Ho.
    + destruct Hf. clear -Hfl Hne fr_in_flight0. split_sched s1.
      simpl in *. rewrite fr_in_flight0, fmap_app, not_elem_of_app.
      split; [done|]. simpl.
      apply not_elem_of_cons. split; [done|apply not_elem_of_nil].
    + apply quiet_same; clear -Ho Et; by split_sched s1.
  - destruct (in_flight s !! i) as [[task' ty]|] eqn:Hi;
      [|apply Hkeep; [apply quiet_refl|done]].
    assert (task ≠ task') as Hne.
    { intros ->. apply Hfl. apply list_elem_of_fmap.
      exists (task', ty). split; [done|].
      by eapply list_elem_of_lookup_2. }
    set (s0 := set_in_flight (delete i (in_flight s)) s).
    assert (quiet task s s0) as Hq0
      by (apply quiet_same; subst s0; by split_sched s).
    assert (quiet task s0 (dispatch_run processTask task' ty s0)) as Hq1
      by (eapply touches_quiet; [|apply touches_dispatch_run]; done).
    pose proof (quiet_trans _ _ _ _ Hq0 Hq1) as Hq.
    split; [split|done].
    + by rewrite (getStatus_quiet _ _ _ Hq).
    + rewrite (fr_in_flight _ _ (frame_dispatch_run task' ty s0)).
      subst s0. clear -Hfl. apply (not_in_delete task i) in Hfl.
      by split_sched s.
  - apply Hkeep;
      [|apply (fr_in_flight _ _ (frame_processImageGenerationQueue s))].
    pose proof (touches_processImageGenerationQueue s) as Ht.
    destruct (imageTaskQueue_ s) as [|task' rest];
      [rewrite Ht; apply quiet_refl|].
    destruct Ht as [Ht Hc]. destruct (decide (task' = task)) as [->|Hne].
    + destruct (Hc Hst) as [Ho Et]. by apply quiet_same.
    + by eapply touches_quiet.
  - apply Hkeep; [apply quiet_same|]; by split_sched s.
Qed.

Lemma join_steps_cancelled task l s :
  cancelled_and_idle task s →
  cancelled_and_idle task (foldl (join_step processTask) s l)
  ∧ quiet task s (foldl (join_step processTask) s l).
Proof.
  revert s. induction l as [|step l IH]; intros s Hc.
  - split; [done|apply quiet_refl].
  - simpl. destruct (join_step_cancelled task s step Hc) as [Hc1 Hq1].
    destruct (IH _ Hc1) as [Hc2 Hq2]. split; [done|].
    by eapply quiet_trans.
Qed.

Lemma exec_cancelled task s a :
  cancelled_and_idle task s →
  cancelled_and_idle task (exec processTask s a)
  ∧ quiet task s (exec processTask s a).
Proof.
  intros Hc. pose proof Hc as [Hst Hfl].
  assert (∀ s', quiet task s s' → in_flight s' = in_flight s →
                cancelled_and_idle task s' ∧ quiet task s s') as Hkeep.
  { intros s' Hq Hf. split; [|done]. split.
    - by rewrite (getStatus_quiet _ _ _ Hq).
    - by rewrite Hf. }
  assert (∀ step, terminated s = false →
            cancelled_and_idle task (join_step processTask s step)
            ∧ quiet task s (join_step processTask s step)) as Hstep
    by (intros; by apply join_step_cancelled).
  unfold join_step in Hstep.
  unfold exec. destruct (terminated s).
  { apply Hkeep; [apply quiet_refl|done]. }
  destruct a as [n|w|ty pr now|id| |i| |steps|w b].
  - unfold initialize. destruct (initialized_ s); simpl.
    + apply Hkeep; [apply quiet_refl|done].
    + apply Hkeep; [apply quiet_same|]; by split_sched s.
  - unfold addWorker. destruct w as [w|]; simpl;
      [|apply Hkeep; [apply quiet_refl|done]].
    destruct (worker_objects s !! w) as [wo|];
      [|apply Hkeep; [apply quiet_refl|done]].
    assert (∀ s', task_objects s' = task_objects s →
                  trace s' = trace s ++ [EvInitialize w] →
                  quiet task s s') as Hq.
    { intros s' Ho Et. split; [by rewrite Ho|].
      exists [EvInitialize w]. split; [done|]. apply not_elem_of_nil. }
    destruct (initialize_throws wo); simpl.
    { apply Hkeep; [apply Hq|]; by split_sched s. }
    destruct (canHandle wo LLM_INFERENCE || canHandle wo IMAGE_GENERATION);
      [|destruct (canHandle wo TTS_SYNTHESIS)]; simpl;
      (apply Hkeep; [apply Hq|]; by split_sched s).
  - unfold submitTask. simpl. apply Hkeep.
    + split.
      * assert (fresh (dom (task_objects s)) ≠ task) as Hne.
        { intros <-. unfold getStatus in Hst.
          destruct (task_objects s !! fresh (dom (task_objects s)))
            as [t|] eqn:Ht; [|done].
          apply (is_fresh (dom (task_objects s))).
          apply elem_of_dom. eauto. }
        split_sched s. destruct ty; simpl in *; by rewrite lookup_insert_ne.
      * exists []. split; [|apply not_elem_of_nil].
        rewrite app_nil_r. split_sched s. by destruct ty.
    + split_sched s. by destruct ty.
  - unfold cancelTask. destruct (tasks_ s !! id) as [task'|]; simpl;
      [|apply Hkeep; [apply quiet_refl|done]].
    case_bool_decide as Hp; simpl;
      [|apply Hkeep; [apply quiet_refl|done]].
    assert (task ≠ task') as Hne by (intros ->; congruence).
    apply Hkeep; [|by split_sched s]. split.
    + split_sched s. unfold store_status. simpl.
      by rewrite lookup_alter_ne.
    + exists []. split; [|apply not_elem_of_nil].
      rewrite app_nil_r. by split_sched s.
  - destruct (running_ s && _);
      [|apply Hkeep; [apply quiet_refl|done]].
    by apply (Hstep JoinFetch).
  - by apply (Hstep (JoinResume i)).
  - destruct (running_ s && imageQueueThread_ s);
      [|apply Hkeep; [apply quiet_refl|done]].
    by apply (Hstep JoinImage).
  - unfold shutdown. destruct (initialized_ s);
      [|apply Hkeep; [apply quiet_refl|done]].
    set (s0 := set_threads _ _ _ _ s).
    assert (quiet task s s0) as Hq0
      by (apply quiet_same; subst s0; by split_sched s).
    assert (cancelled_and_idle task s0) as Hc0.
    { split; [by rewrite (getStatus_quiet _ _ _ Hq0)|].
      subst s0. clear -Hfl. by split_sched s. }
    destruct (join_steps_cancelled task
                (allowed (workerThreads_ s0 - length (in_flight s0))
                   (imageQueueThread_ s0) steps) s0 Hc0) as [Hc1 Hq01].
    fold (late_work processTask steps s0) in Hc1, Hq01.
    set (s1 := late_work processTask steps s0) in *.
    pose proof (quiet_trans _ _ _ _ Hq0 Hq01) as Hq1.
    destruct Hc1 as [_ Hf1]. clearbody s1. clear s0 Hq0 Hc0 Hq01.
    rewrite join_threads_unfold.
    set (s1' := set_in_flight [] s1).
    assert (quiet task s1 s1') as Hq1'
      by (apply quiet_same; subst s1'; by split_sched s1).
    destruct (quiet_finish_all task (in_flight s1) s1') as [Ho2 Ht2];
      [done|].
    pose proof (frame_finish_all (in_flight s1) s1') as Hfr.
    assert (in_flight (foldl finish_one s1' (in_flight s1)) = []) as Hf2.
    { rewrite (fr_in_flight _ _ Hfr). subst s1'. by split_sched s1. }
    assert (quiet task s (foldl finish_one s1' (in_flight s1))) as Hq2.
    { eapply quiet_trans; [done|]. eapply quiet_trans; [done|].
      by split. }
    revert Hf2 Hq2.
    generalize (foldl finish_one s1' (in_flight s1)). intros s2 Hf2 Hq2.
    assert (task ∉ (in_flight s2).*1) as Hn2
      by (rewrite Hf2; apply not_elem_of_nil).
    destruct (terminated s2) eqn:Hterm.
    { split; [split|done]; [|done].
      by rewrite (getStatus_quiet _ _ _ Hq2). }
    set (s' := set_threads _ _ _ _ _).
    assert (quiet task s2 s' ∧ in_flight s' = in_flight s2) as [Hq3 Hf3].
    { subst s'. clear. split_sched s2. split; [|done]. split; [done|].
      simpl. exists (EvShutdown <$> ws). split; [done|].
      induction ws as [|w ws IH]; [apply not_elem_of_nil|done]. }
    pose proof (quiet_trans _ _ _ _ Hq2 Hq3) as Hq.
    split; [split|done].
    + by rewrite (getStatus_quiet _ _ _ Hq).
    + by rewrite Hf3.
  - by apply (Hstep (JoinBusy w b)).
Qed.

Lemma run_cancelled task acts s :
  cancelled_and_idle task s →
  cancelled_and_idle task (run processTask s acts)
  ∧ quiet task s (run processTask s acts).
Proof.
  revert s. induction acts as [|a acts IH]; intros s Hc.
  - split; [done|apply quiet_refl].
  - simpl. destruct (exec_cancelled task s a Hc) as [Hc1 Hq1].
    destruct (IH _ Hc1) as [Hc2 Hq2]. split; [done|].
    by eapply quiet_trans.
Qed.

Lemma join_step_tasks acc step :
  tasks_ (join_step processTask acc step) ⊆ tasks_ acc.
Proof.
  unfold join_step. destruct (terminated acc); [done|].
  destruct step as [|i| |w b].
  - pose proof (fr_tasks _ _ (frame_dispatch_fetch acc)) as Hf.
    destruct (dispatch_fetch acc) as [[| |task' ty] s1]; simpl in *;
      try done.
    etrans; [|done]. by split_sched s1.
  - destruct (in_flight acc !! i) as [[task' ty]|]; [|done].
    etrans; [apply (fr_tasks _ _ (frame_dispatch_run _ _ _))|].
    by split_sched acc.
  - apply (fr_tasks _ _ (frame_processImageGenerationQueue acc)).
  - by split_sched acc.
Qed.

Lemma join_steps_tasks l acc :
  tasks_ (foldl (join_step processTask) acc l) ⊆ tasks_ acc.
Proof.
  revert acc. induction l as [|step l IH]; intros acc; [done|].
  simpl. etrans; [apply IH|apply join_step_tasks].
Qed.

Lemma shutdown_tasks_subseteq steps s :
  tasks_ (shutdown processTask steps s) ⊆ tasks_ s.
Proof.
  unfold shutdown. destruct (initialized_ s); [|done].
  set (s0 := set_threads _ _ _ _ s).
  assert (tasks_ s0 = tasks_ s) as <- by (subst s0; by split_sched s).
  set (s1 := late_work processTask steps s0).
  assert (tasks_ s1 ⊆ tasks_ s0) as Hsub1 by apply join_steps_tasks.
  clearbody s1. etrans; [|exact Hsub1]. clear.
  rewrite join_threads_unfold.
  assert (tasks_ (set_in_flight [] s1) = tasks_ s1) as <-
    by by split_sched s1.
  pose proof (fr_tasks _ _
    (frame_finish_all (in_flight s1) (set_in_flight [] s1))) as Hsub.
  destruct (terminated _); [done|].
  etrans; [|apply Hsub].
  generalize (foldl finish_one (set_in_flight [] s1) (in_flight s1)).
  intros s2. split_sched s2. simpl. apply map_empty_subseteq.
Qed.

Lemma exec_keeps_absent taskId s a :
  ¬ submits taskId a →
  tasks_ s !! taskId = None →
  tasks_ (exec processTask s a) !! taskId = None.
Proof.
  intros Hns Habs.
  assert (∀ s', tasks_ s' ⊆ tasks_ s → tasks_ s' !! taskId = None) as Hsub.
  { intros s' Hs. by eapply lookup_weaken_None. }
  unfold exec. destruct (terminated s); [done|].
  destruct a as [n|w|ty pr now|id| |i| | |w b].
  - unfold initialize. destruct (initialized_ s); [done|].
    by split_sched s.
  - unfold addWorker. destruct w as [w|]; [|done].
    destruct (worker_objects s !! w) as [wo|]; [|done].
    destruct (initialize_throws wo); [by split_sched s|].
    destruct (canHandle wo LLM_INFERENCE || canHandle wo IMAGE_GENERATION);
      [|destruct (canHandle wo TTS_SYNTHESIS)]; by split_sched s.
  - simpl in Hns. unfold submitTask.
    split_sched s. destruct ty; simpl in *; by rewrite lookup_insert_ne.
  - unfold cancelTask. destruct (tasks_ s !! id) as [task'|]; [|done].
    case_bool_decide; [|done]. apply Hsub.
    split_sched s. simpl. apply delete_subseteq.
  - destruct (running_ s && _); [|done].
    pose proof (fr_tasks _ _ (frame_dispatch_fetch s)) as Hf.
    destruct (dispatch_fetch s) as [[| |task' ty] s1]; simpl in *;
      try by apply Hsub.
    apply Hsub. by split_sched s1.
  - destruct (in_flight s !! i) as [[task' ty]|]; [|done].
    apply Hsub. etrans; [apply (fr_tasks _ _ (frame_dispatch_run _ _ _))|].
    by split_sched s.
  - destruct (running_ s && imageQueueThread_ s); [|done].
    apply Hsub. apply (fr_tasks _ _ (frame_processImageGenerationQueue s)).
  - apply Hsub. apply shutdown_tasks_subseteq.
  - by split_sched s.
Qed.

Lemma run_keeps_absent taskId acts s :
  Forall (λ a, ¬ submits taskId a) acts →
  tasks_ s !! taskId = None →
  tasks_ (run processTask s acts) !! taskId = None.
Proof.
  revert s. induction acts as [|a acts IH]; intros s Hall Habs; [done|].
  apply Forall_cons in Hall as [Ha Hall]. simpl.
  apply IH; [done|]. by apply exec_keeps_absent.
Qed.

(** *** shutdown *)

(** What holds before the join and is kept by every join step holds
    after the late steps. *)
Lemma late_work_ind (P : Scheduler → Prop) steps s :
  (∀ acc step, P acc → P (join_step processTask acc step)) →
  P s → P (late_work processTask steps s).
Proof.
  intros Hstep. unfold late_work.
  generalize (allowed (workerThreads_ s - length (in_flight s))
                (imageQueueThread_ s) steps).
  intros l. revert s. induction l as [|step l IH]; intros s Hs; [done|].
  simpl. by apply IH, Hstep.
Qed.














(** *** A worker that throws *)

Lemma selectWorker_object ty s w :
  selectWorker ty s = Some w →
  ∃ wo, worker_objects s !! w = Some wo ∧ isBusy wo = false.
Proof.
  unfold selectWorker.
  assert (∀ f l, find (λ x, f x && idle_and_able s ty x) l = Some w →
            ∃ wo, worker_objects s !! w = Some wo ∧ isBusy wo = false)
    as Hfind.
  { intros f l Hf. apply find_some in Hf as [_ Hable].
    apply andb_true_iff in Hable as [_ Hable]. unfold idle_and_able in Hable.
    destruct (worker_objects s !! w) as [wo|]; [|done].
    apply andb_true_iff in Hable as [_ Hb]. apply negb_true_iff in Hb.
    eauto. }
  assert (∀ r, (if bool_decide (ty = TTS_SYNTHESIS)
                then find (idle_and_able s ty) (cpuWorkers_ s)
                else find (λ w, not_dedicated s w && idle_and_able s ty w)
                          (gpuWorkers_ s)) = r →
               r = Some w →
            ∃ wo, worker_objects s !! w = Some wo ∧ isBusy wo = false)
    as Hrest.
  { intros r <-. destruct (bool_decide (ty = TTS_SYNTHESIS));
      [|apply Hfind].
    intros Hf. apply (Hfind (λ _, true) (cpuWorkers_ s)). by rewrite <-Hf. }
  destruct (llmWorker_ s) as [l|]; [|by apply Hrest].
  destruct (bool_decide (ty = LLM_INFERENCE) && worker_idle s l) eqn:Hd;
    [|by apply Hrest].
  intros [= <-]. apply andb_true_iff in Hd as [_ Hidle].
  unfold worker_idle in Hidle.
  destruct (worker_objects s !! l) as [wo|]; [|done].
  apply negb_true_iff in Hidle. eauto.
Qed.

(** The [catch] clause: the status becomes FAILED, [failedTasks_] goes
    up, a line goes to [std::cerr]; the task's own [exception_] and
    [result_] are what the worker left there. *)
Lemma run_worker_catches prefix w task s wo t what :
  worker_objects s !! w = Some wo →
  task_objects s !! task = Some t →
  p_thrown (processTask wo t) = Some (StdException what) →
  let s' := run_worker processTask prefix w task s in
  task_objects s' !! task
  = Some (setStatus FAILED (apply_processed (processTask wo t) t))
  ∧ failedTasks_ s' = incr (failedTasks_ s)
  ∧ completedTasks_ s' = completedTasks_ s
  ∧ cerr s' = cerr s ++ [prefix +:+ taskId_ t +:+ ": " +:+ what]
  ∧ trace s' = trace s ++ [EvProcessTask w task]
  ∧ terminated s' = terminated s
  ∧ tasks_ s' = tasks_ s.
Proof.
  intros Hw Ht Hthrown. unfold run_worker. rewrite Hw, Ht, Hthrown.
  split_sched s. unfold store_status. simpl in *.
  rewrite lookup_alter_eq, lookup_insert_eq. by split_and!.
Qed.

Lemma caught_then_erased prefix w task s wo t what :
  terminated s = false →
  worker_objects s !! w = Some wo →
  task_objects s !! task = Some t →
  p_thrown (processTask wo t) = Some (StdException what) →
  let s1 := run_worker processTask prefix w task s in
  let s' := if terminated s1 then s1 else erase_if_finished task s1 in
  task_objects s' !! task
  = Some (setStatus FAILED (apply_processed (processTask wo t) t))
  ∧ failedTasks_ s' = incr (failedTasks_ s)
  ∧ cerr s' = cerr s ++ [prefix +:+ taskId_ t +:+ ": " +:+ what]
  ∧ terminated s' = false
  ∧ tasks_ s' = delete (taskId_ t) (tasks_ s).
Proof.
  intros Hterm Hw Ht Hthrown.
  destruct (run_worker_catches prefix w task s wo t what Hw Ht Hthrown)
    as (Ho & Hfail & Hcomp & Hcerr & Htr & Hterm' & Hidx).
  revert Ho Hfail Hcomp Hcerr Htr Hterm' Hidx.
  generalize (run_worker processTask prefix w task s).
  intros s1 Ho Hfail Hcomp Hcerr Htr Hterm' Hidx. cbv zeta.
  rewrite Hterm', Hterm.
  unfold erase_if_finished, erase_task_id, getStatus, getTaskId.
  rewrite Ho. simpl.
  split_sched s1; simpl in *. split_and!; congruence.
Qed.

Lemma dispatch_run_catches task ty s w wo t what :
  terminated s = false →
  selectWorker ty s = Some w →
  worker_objects s !! w = Some wo →
  task_objects s !! task = Some t →
  p_thrown (processTask wo t) = Some (StdException what) →
  let s' := dispatch_run processTask task ty s in
  task_objects s' !! task
  = Some (setStatus FAILED (apply_processed (processTask wo t) t))
  ∧ failedTasks_ s' = incr (failedTasks_ s)
  ∧ cerr s' = cerr s ++ ["Error processing task " +:+ taskId_ t
                         +:+ ": " +:+ what]
  ∧ terminated s' = false
  ∧ tasks_ s' = delete (taskId_ t) (tasks_ s).
Proof.
  intros Hterm Hsel Hw Ht Hthrown. unfold dispatch_run. rewrite Hsel.
  by apply caught_then_erased.
Qed.

Lemma image_loop_catches task rest s w wo t what :
  terminated s = false →
  imageTaskQueue_ s = task :: rest →
  task_objects s !! task = Some t →
  is_Some (tasks_ s !! taskId_ t) →
  status_ t ≠ CANCELLED →
  select_image_worker s = Some w →
  worker_objects s !! w = Some wo →
  p_thrown (processTask wo t) = Some (StdException what) →
  let s' := processImageGenerationQueue processTask s in
  task_objects s' !! task
  = Some (setStatus FAILED (apply_processed (processTask wo t) t))
  ∧ failedTasks_ s' = incr (failedTasks_ s)
  ∧ cerr s' = cerr s ++ ["Error processing image task " +:+ taskId_ t
                         +:+ ": " +:+ what]
  ∧ terminated s' = false
  ∧ tasks_ s' = delete (taskId_ t) (tasks_ s).
Proof.
  intros Hterm Hq Ht Hidx Hnc Hsel Hw Hthrown.
  unfold processImageGenerationQueue. rewrite Hq.
  set (s1 := set_queue IMAGE_GENERATION rest s).
  assert (task_objects s1 = task_objects s ∧ tasks_ s1 = tasks_ s
          ∧ worker_objects s1 = worker_objects s
          ∧ select_image_worker s1 = select_image_worker s
          ∧ terminated s1 = terminated s
          ∧ failedTasks_ s1 = failedTasks_ s ∧ cerr s1 = cerr s)
    as (Eo & Ei & Ew & Es & Et & Ef & Ec)
    by (subst s1; by split_sched s).
  assert (indexed s1 task = true) as ->.
  { unfold indexed, getTaskId. rewrite Eo, Ht, Ei. simpl.
    by apply bool_decide_eq_true. }
  rewrite bool_decide_eq_false_2.
  2:{ unfold getStatus. rewrite Eo, Ht. simpl. congruence. }
  simpl. rewrite Es, Hsel. rewrite <-Ef, <-Ec, <-Ei.
  apply caught_then_erased; congruence.
Qed.

End WithWorkers.

(** *** Two observations on concrete runs *)

(** A task that a dispatch thread has already taken out of its queue is
    still PENDING; cancelling it at that moment succeeds, and the thread
    then hands it to a worker all the same. *)
Lemma cancel_after_fetch_still_runs :
  let s1 := run Scenarios.worker_completes Scenarios.ris_one_llm [DoFetch] in
  getStatus s1 0%nat = Some PENDING
  ∧ in_flight s1 = [(0%nat, LLM_INFERENCE)]
  ∧ (cancelTask "task_100" s1).1 = true
  ∧ started
      (trace (run Scenarios.worker_completes s1
                [DoCancel "task_100"; DoResume 0]))
    = [0%nat].
Proof. by vm_compute. Qed.

(** Two submissions in the same clock tick produce the same id; [tasks_]
    then knows the second task only. *)
Lemma same_tick_same_id :
  let s := run Scenarios.worker_completes Scenarios.ris_ready
             [DoSubmit TTS_SYNTHESIS MEDIUM 100;
              DoSubmit TTS_SYNTHESIS MEDIUM 100] in
  getTaskId s 0%nat = getTaskId s 1%nat
  ∧ ttsTaskQueue_ s = [0%nat; 1%nat]
  ∧ tasks_ s !! "task_100" = Some 1%nat
  ∧ size (tasks_ s) = 1%nat.
Proof. by vm_compute. Qed.

(** *** FIFO class queues *)

Lemma selectWorker_same ty s s' :
  worker_objects s' = worker_objects s →
  gpuWorkers_ s' = gpuWorkers_ s → cpuWorkers_ s' = cpuWorkers_ s →
  llmWorker_ s' = llmWorker_ s →
  selectWorker ty s' = selectWorker ty s.
Proof.
  unfold selectWorker, worker_idle, not_dedicated, idle_and_able.
  by intros -> -> -> ->.
Qed.

Lemma selectWorker_frame ty s s' :
  frame s s' → selectWorker ty s' = selectWorker ty s.
Proof. intros []. by apply selectWorker_same. Qed.

(** [submitTask] puts the new task at the back of the queue of its
    type and leaves the other queues alone. *)
Lemma submitTask_appends ty pr now s :
  let task := fresh (dom (task_objects s)) in
  (submitTask ty pr now s).1 = task
  ∧ task_objects s !! task = None
  ∧ task_objects (submitTask ty pr now s).2 !! task
    = Some (Task_new ty pr now)
  ∧ queue_of ty (submitTask ty pr now s).2 = queue_of ty s ++ [task]
  ∧ ∀ ty', ty' ≠ ty →
           queue_of ty' (submitTask ty pr now s).2 = queue_of ty' s.
Proof.
  intros task. split_and!.
  - done.
  - apply not_elem_of_dom, is_fresh.
  - unfold submitTask. fold task. split_sched s.
    destruct ty; simpl; by rewrite lookup_insert_eq.
  - unfold submitTask. split_sched s. by destruct ty.
  - intros ty' Hne. unfold submitTask. split_sched s.
    by destruct ty, ty'.
Qed.

Section SingleThread.
Variable processTask : Worker -> Task -> Processed.
Hypothesis no_other_exception :
  ∀ wo t, p_thrown (processTask wo t) ≠ Some OtherException.

Lemma terminated_dispatch_fetch s :
  terminated (dispatch_fetch s).2 = terminated s.
Proof.
  unfold dispatch_fetch, check_cancelled, erase_task_id.
  destruct (llmTaskQueue_ s) as [|t1 r1].
  - destruct (ttsTaskQueue_ s) as [|t2 r2]; [done|].
    case_bool_decide; simpl; [|by split_sched s].
    destruct (getTaskId _ t2); by split_sched s.
  - case_bool_decide; simpl; [|by split_sched s].
    destruct (getTaskId _ t1); by split_sched s.
Qed.

(** With a worker at hand, the second part of [processTaskQueues] calls
    it on the task and puts nothing back. *)
Lemma dispatch_run_started task ty s w wo t :
  selectWorker ty s = Some w →
  worker_objects s !! w = Some wo →
  task_objects s !! task = Some t →
  terminated s = false →
  let s' := dispatch_run processTask task ty s in
  trace s' = trace s ++ [EvProcessTask w task]
  ∧ terminated s' = false
  ∧ ∀ ty', queue_of ty' s' = queue_of ty' s.
Proof.
  intros Hsel Hw Ht Hterm. unfold dispatch_run. rewrite Hsel.
  unfold run_worker. rewrite Hw, Ht.
  pose proof (no_other_exception wo t) as Hno.
  destruct (processTask wo t) as [st res ex [[what|]|]]; [|done|];
    split_sched s; simpl in *; subst;
    unfold erase_if_finished, erase_task_id, getStatus, getTaskId,
      store_status; simpl;
    rewrite ?lookup_alter_eq, ?lookup_insert_eq; simpl;
    try destruct st; simpl;
    rewrite ?lookup_alter_eq, ?lookup_insert_eq; simpl;
    (split_and!; [done|done|by intros []]).
Qed.

(** One dispatch thread alone: a fetch and the resumption that follows
    are one call of [processTaskQueues]. *)
Lemma serve_once s :
  servable s →
  run processTask s [DoFetch; DoResume 0] = processTaskQueues processTask s.
Proof.
  intros (Hterm & Hrun & Hthr & Hfl & _).
  unfold run, processTaskQueues. simpl. unfold exec at 2.
  rewrite Hterm, Hrun, Hfl. simpl.
  rewrite bool_decide_eq_true_2 by done.
  pose proof (terminated_dispatch_fetch s) as Ht1.
  pose proof (fr_in_flight _ _ (frame_dispatch_fetch s)) as Hf1.
  rewrite Hterm in Ht1. rewrite Hfl in Hf1.
  destruct (dispatch_fetch s) as [[|task0|task ty] s1]; simpl in *;
    unfold exec; rewrite ?Ht1, ?Hf1; try done.
  assert (terminated (set_in_flight ([] ++ [(task, ty)]) s1) = false) as ->
    by (clear -Ht1; by split_sched s1).
  assert (in_flight (set_in_flight ([] ++ [(task, ty)]) s1)
          = [(task, ty)]) as -> by by split_sched s1.
  simpl. f_equal. clear -Hf1. split_sched s1. simpl in *. by subst.
Qed.

(** One call of [processTaskQueues] by a thread that works alone: the
    task at the head of the LLM queue, or else of the TTS queue, is handed
    to a worker, and the thread can go on. *)
Lemma processTaskQueues_served s task rest :
  servable s →
  llmTaskQueue_ s ++ ttsTaskQueue_ s = task :: rest →
  let s' := processTaskQueues processTask s in
  servable s'
  ∧ llmTaskQueue_ s' ++ ttsTaskQueue_ s' = rest
  ∧ started (trace s') = started (trace s) ++ [task].
Proof.
  intros (Hterm & Hrun & Hthr & Hfl & Hnd & Hall & Hllm & Htts) Hq.
  rewrite Hq in Hnd, Hall.
  apply NoDup_cons in Hnd as [Hnotin Hnd].
  apply Forall_cons in Hall as [(t & Ht & Hst) Hall].
  assert (∃ ty r,
            dispatch_fetch s = (Taken task ty, set_queue ty r s)
            ∧ is_Some (selectWorker ty s)
            ∧ llmTaskQueue_ (set_queue ty r s)
              ++ ttsTaskQueue_ (set_queue ty r s) = rest
            ∧ (llmTaskQueue_ (set_queue ty r s) ≠ [] →
               llmTaskQueue_ s ≠ [])
            ∧ (ttsTaskQueue_ (set_queue ty r s) ≠ [] →
               ttsTaskQueue_ s ≠ []))
    as (ty & r & Hfetch & Hsel & Hrest & Hl' & Ht').
  { unfold dispatch_fetch, check_cancelled.
    destruct (llmTaskQueue_ s) as [|t1 r1] eqn:El.
    - destruct (ttsTaskQueue_ s) as [|t2 r2] eqn:Et; [done|].
      simpl in Hq. injection Hq as -> ->.
      exists TTS_SYNTHESIS, rest.
      rewrite getStatus_set_queue, bool_decide_eq_false_2
        by (unfold getStatus; rewrite Ht; simpl; congruence).
      split_and!; [done|by apply Htts| | |done];
        clear -El; split_sched s; simpl in *; by subst.
    - simpl in Hq. injection Hq as -> <-.
      exists LLM_INFERENCE, r1.
      rewrite getStatus_set_queue, bool_decide_eq_false_2
        by (unfold getStatus; rewrite Ht; simpl; congruence).
      split_and!; [done|by apply Hllm| |done|];
        split_sched s; simpl in *; by subst. }
  intros s'. subst s'. unfold processTaskQueues. rewrite Hfetch.
  set (s1 := set_queue ty r s) in *.
  pose proof (frame_set_queue ty r s) as Hfr1. fold s1 in Hfr1.
  assert (task_objects s1 = task_objects s ∧ trace s1 = trace s
          ∧ terminated s1 = terminated s) as (Eo1 & Et1 & Eterm1)
    by (subst s1; split_sched s; by destruct ty).
  destruct Hsel as [w Hsel].
  rewrite <-(selectWorker_frame ty s s1 Hfr1) in Hsel.
  destruct (selectWorker_object ty s1 w Hsel) as (wo & Hwo & _).
  destruct (dispatch_run_started task ty s1 w wo t)
    as (Htr & Hterm' & Hqs); [done|done|by rewrite Eo1|congruence|].
  pose proof (frame_dispatch_run processTask task ty s1) as Hfr2.
  pose proof (touches_dispatch_run processTask task ty s1) as [Hother _].
  pose proof (frame_trans _ _ _ Hfr1 Hfr2) as Hfr.
  revert Htr Hterm' Hqs Hfr2 Hother Hfr.
  generalize (dispatch_run processTask task ty s1). intros s2.
  intros Htr Hterm' Hqs Hfr2 Hother Hfr.
  pose proof (Hqs LLM_INFERENCE) as Eq1. pose proof (Hqs TTS_SYNTHESIS) as Eq2.
  simpl in Eq1, Eq2.
  split_and!.
  - split_and!.
    + done.
    + by rewrite (fr_running _ _ Hfr).
    + by rewrite (fr_threads _ _ Hfr).
    + by rewrite (fr_in_flight _ _ Hfr).
    + by rewrite Eq1, Eq2, Hrest.
    + rewrite Eq1, Eq2, Hrest. apply Forall_forall. intros x Hx.
      destruct (proj1 (Forall_forall _ _) Hall x Hx) as (tx & Htx & Hstx).
      exists tx. split; [|done].
      rewrite Hother, Eo1; [done|]. intros ->. done.
    + rewrite Eq1, (selectWorker_frame _ s s2 Hfr). intros Hne.
      by apply Hllm, Hl'.
    + rewrite Eq2, (selectWorker_frame _ s s2 Hfr). intros Hne.
      by apply Htts, Ht'.
  - by rewrite Eq1, Eq2.
  - by rewrite Htr, started_app, Et1.
Qed.

Lemma processTaskQueues_idle s :
  llmTaskQueue_ s ++ ttsTaskQueue_ s = [] →
  processTaskQueues processTask s = s.
Proof.
  intros [El Et]%app_eq_nil. unfold processTaskQueues, dispatch_fetch.
  by rewrite El, Et.
Qed.

Lemma run_serve_S n s :
  servable s →
  run processTask s (serve (S n))
  = run processTask (processTaskQueues processTask s) (serve n).
Proof.
  intros Hs. unfold serve. simpl concat.
  change (DoFetch :: DoResume 0 :: concat (replicate n [DoFetch; DoResume 0]))
    with ([DoFetch; DoResume 0] ++ concat (replicate n [DoFetch; DoResume 0])).
  unfold run at 1. rewrite foldl_app.
  fold (run processTask s [DoFetch; DoResume 0]).
  by rewrite serve_once.
Qed.

(** A dispatch thread that works alone starts the queued tasks in the
    order of the queues, the LLM queue first. *)
Lemma serve_starts_in_order n s :
  servable s →
  started (trace (run processTask s (serve n)))
  = started (trace s) ++ take n (llmTaskQueue_ s ++ ttsTaskQueue_ s).
Proof.
  revert s. induction n as [|n IH]; intros s Hs.
  { by rewrite take_0, app_nil_r. }
  rewrite run_serve_S by done.
  destruct (llmTaskQueue_ s ++ ttsTaskQueue_ s) as [|task rest] eqn:Hq.
  - rewrite processTaskQueues_idle by done.
    rewrite IH by done. by rewrite Hq, !take_nil.
  - destruct (processTaskQueues_served s task rest Hs Hq)
      as (Hs' & Hrest & Hst).
    rewrite IH by done. rewrite Hst, Hrest. simpl.
    by rewrite <-app_assoc.
Qed.

End SingleThread.

Lemma fetch_sequence_fifo n s :
  Forall (λ task, getStatus s task ≠ Some CANCELLED)
         (llmTaskQueue_ s ++ ttsTaskQueue_ s) →
  fetch_sequence n s = take n (llmTaskQueue_ s ++ ttsTaskQueue_ s).
Proof.
  revert s. induction n as [|n IH]; intros s Hall; [done|].
  simpl. unfold dispatch_fetch, check_cancelled.
  destruct (llmTaskQueue_ s) as [|t1 r1] eqn:Hl.
  - destruct (ttsTaskQueue_ s) as [|t2 r2] eqn:Ht; [done|].
    simpl in Hall. apply Forall_cons in Hall as [H2 Hall].
    rewrite getStatus_set_queue, bool_decide_eq_false_2 by done.
    rewrite IH.
    + f_equal. f_equal. split_sched s. simpl in *. by subst.
    + split_sched s. simpl in *. by subst.
  - simpl in Hall. apply Forall_cons in Hall as [H1 Hall].
    rewrite getStatus_set_queue, bool_decide_eq_false_2 by done.
    rewrite IH.
    + f_equal. f_equal. split_sched s. simpl in *. by subst.
    + split_sched s. simpl in *. by subst.
Qed.

End RISFacts.

(** ** The claims *)

(** *** C1 *)

(** C1, as stated, fails on scenario S2: the worker thread of
    AsyncScheduler starts "a", "b", "c" (priorities LOW, HIGH, MEDIUM) in
    the order "b", "a", "c", so the MEDIUM task "c" does not start before
    the LOW task "a". *)
Lemma C1_s2_starts_b_a_c :
  Async.name_ <$> Async.fetch_sequence 3 Async.TTS_CPU Scenarios.s2_scheduler
  = ["b"; "a"; "c"]
  ∧ ¬ Spec.order_within_class
        (Async.tts_queue_ Scenarios.s2_scheduler)
        (Async.fetch_sequence 3 Async.TTS_CPU Scenarios.s2_scheduler).
Proof.
  split; [by vm_compute|].
  intros Hord.
  destruct (Hord 2%nat 0%nat
              (Async.mkTask Async.TTS_CPU Async.MEDIUM 2 "c" false)
              (Async.mkTask Async.TTS_CPU Async.LOW 0 "a" false))
    as (i & j & Hi & Hj & Hlt).
  - by vm_compute.
  - by vm_compute.
  - left. simpl. lia.
  - vm_compute in Hi, Hj.
    destruct i as [|[|[|i]]]; try discriminate Hi.
    destruct j as [|[|[|j]]]; try discriminate Hj. lia.
Qed.

(** C1, amended: neither scheduler orders a class queue by priority and
    submission time.  A worker thread of AsyncScheduler starts the HIGH
    tasks of its class queue in submission order and then all other tasks
    (MEDIUM and LOW alike) in submission order.  ResourceIsolationScheduler
    ignores the priority: submitTask puts the new task at the back of the
    queue of its type, the dispatch threads take the tasks from the
    front, the LLM queue before the TTS queue, and a dispatch thread that
    works alone and finds a worker for every task starts the tasks in
    that order (provided no queued task is cancelled or queued twice and
    no worker throws anything but a [std::exception]).  A task for which
    no worker is free goes back to the end of its queue, so with two
    dispatch threads at work a later submission can start first.  In
    scenario S2 the start order is "b", "a", "c" on
    AsyncScheduler; on ResourceIsolationScheduler it is "a", "b", "c"
    when one dispatch thread works alone, and "a", "c", "b" in the run
    [s2_two_threads], where the worker is busy when the second thread asks
    for it. *)
Theorem C1_high_first_then_submission_order :
  (∀ n worker_type s,
     (length (Async.queue_of worker_type s) ≤ n)%nat →
     Async.fetch_sequence n worker_type s
     = filter (λ t, Async.getPriority t = Async.HIGH)
              (Async.queue_of worker_type s)
       ++ filter (λ t, Async.getPriority t ≠ Async.HIGH)
                 (Async.queue_of worker_type s))
  ∧ (∀ n s,
       Forall (λ task, RIS.getStatus s task ≠ Some RIS.CANCELLED)
              (RIS.llmTaskQueue_ s ++ RIS.ttsTaskQueue_ s) →
       RIS.fetch_sequence n s
       = take n (RIS.llmTaskQueue_ s ++ RIS.ttsTaskQueue_ s))
  ∧ Async.name_
      <$> Async.fetch_sequence 3 Async.TTS_CPU Scenarios.s2_scheduler
    = ["b"; "a"; "c"]
  ∧ (∀ ty pr now s,
       let task := fresh (dom (RIS.task_objects s)) in
       (RIS.submitTask ty pr now s).1 = task
       ∧ RIS.task_objects s !! task = None
       ∧ RIS.task_objects (RIS.submitTask ty pr now s).2 !! task
         = Some (RIS.Task_new ty pr now)
       ∧ RIS.queue_of ty (RIS.submitTask ty pr now s).2
         = RIS.queue_of ty s ++ [task]
       ∧ ∀ ty', ty' ≠ ty →
                RIS.queue_of ty' (RIS.submitTask ty pr now s).2
                = RIS.queue_of ty' s)
  ∧ (∀ processTask n s,
       (∀ wo t, RIS.p_thrown (processTask wo t) ≠ Some RIS.OtherException) →
       Invariants.servable s →
       RIS.started (RIS.trace (RIS.run processTask s (RIS.serve n)))
       = RIS.started (RIS.trace s)
         ++ take n (RIS.llmTaskQueue_ s ++ RIS.ttsTaskQueue_ s))
  ∧ (RIS.ttsTaskQueue_ Scenarios.ris_s2 = [0; 1; 2]%nat
     ∧ (λ task, RIS.priority_ <$> RIS.task_objects Scenarios.ris_s2 !! task)
         <$> [0; 1; 2]%nat
       = [Some RIS.LOW; Some RIS.HIGH; Some RIS.MEDIUM]
     ∧ RIS.started
         (RIS.trace
            (RIS.run Scenarios.worker_completes Scenarios.ris_s2
               (RIS.serve 3)))
       = [0; 1; 2]%nat
     ∧ RIS.started
         (RIS.trace
            (RIS.run Scenarios.worker_completes Scenarios.ris_s2
               Scenarios.s2_two_threads))
       = [0; 2; 1]%nat).
Proof.
  split_and!.
  - intros n worker_type s Hn.
    rewrite AsyncFacts.fetch_sequence_dispatch.
    by apply AsyncFacts.dispatch_order_fuel_partition.
  - apply RISFacts.fetch_sequence_fifo.
  - by vm_compute.
  - intros ty pr now s. apply RISFacts.submitTask_appends.
  - intros processTask n s Hno Hs.
    by apply RISFacts.serve_starts_in_order.
  - by vm_compute.
  - by vm_compute.
  - by vm_compute.
  - by vm_compute.
Qed.

Lemma C1_high_first_witness :
  Async.fetch_sequence 3 Async.TTS_CPU Scenarios.s2_scheduler
  = filter (λ t, Async.getPriority t = Async.HIGH)
           (Async.queue_of Async.TTS_CPU Scenarios.s2_scheduler)
    ++ filter (λ t, Async.getPriority t ≠ Async.HIGH)
              (Async.queue_of Async.TTS_CPU Scenarios.s2_scheduler)
  ∧ RIS.fetch_sequence 3 Scenarios.ris_s2
    = take 3 (RIS.llmTaskQueue_ Scenarios.ris_s2
              ++ RIS.ttsTaskQueue_ Scenarios.ris_s2)
  ∧ RIS.started
      (RIS.trace
         (RIS.run Scenarios.worker_completes Scenarios.ris_s2 (RIS.serve 3)))
    = RIS.started (RIS.trace Scenarios.ris_s2)
      ++ take 3 (RIS.llmTaskQueue_ Scenarios.ris_s2
                 ++ RIS.ttsTaskQueue_ Scenarios.ris_s2).
Proof.
  destruct C1_high_first_then_submission_order
    as (Hasync & Hfetch & _ & _ & Hserve & _).
  split_and!.
  - apply Hasync. vm_compute. lia.
  - apply Hfetch. vm_compute. repeat constructor; discriminate.
  - apply Hserve; [by intros wo t|].
    unfold Invariants.servable. split_and!.
    + reflexivity.
    + reflexivity.
    + vm_compute. lia.
    + reflexivity.
    + apply (bool_decide_unpack _). by vm_compute.
    + vm_compute. repeat constructor; eexists; (split; [reflexivity|]);
        discriminate.
    + intros Hne. exfalso. by apply Hne.
    + intros _. by eexists.
Defined.

(** *** C2 *)

(** C2, as stated, fails: for an id that is not in [tasks_] the query
    answers CANCELLED, a status, where the specification has NotFound. *)
Lemma C2_absent_reads_cancelled :
  RIS.getTaskStatus "task_1" (RIS.ResourceIsolationScheduler_new ∅)
  = RIS.CANCELLED
  ∧ Spec.Status
      (RIS.getTaskStatus "task_1" (RIS.ResourceIsolationScheduler_new ∅))
    ≠ Spec.status "task_1" (RIS.ResourceIsolationScheduler_new ∅).
Proof. split; [by vm_compute|]. vm_compute. discriminate. Qed.

(** C2, amended: getTaskStatus returns the current status of the task
    when the id is in [tasks_], and the status CANCELLED when it is not. *)
Theorem C2_status_or_cancelled :
  (∀ taskId s task t,
     RIS.tasks_ s !! taskId = Some task →
     RIS.task_objects s !! task = Some t →
     RIS.getTaskStatus taskId s = RIS.status_ t)
  ∧ (∀ taskId s,
       RIS.tasks_ s !! taskId = None →
       RIS.getTaskStatus taskId s = RIS.CANCELLED).
Proof.
  split.
  - intros taskId s task t Hi Ho. unfold RIS.getTaskStatus, RIS.getStatus.
    by rewrite Hi, Ho.
  - intros taskId s Hi. unfold RIS.getTaskStatus. by rewrite Hi.
Qed.

Lemma C2_status_witness :
  RIS.getTaskStatus "task_100" Scenarios.ris_one_llm = RIS.PENDING
  ∧ RIS.getTaskStatus "task_5" Scenarios.ris_one_llm = RIS.CANCELLED.
Proof.
  split.
  - apply (proj1 C2_status_or_cancelled "task_100" Scenarios.ris_one_llm
             0%nat (RIS.Task_new RIS.LLM_INFERENCE RIS.MEDIUM 100));
      by vm_compute.
  - apply (proj2 C2_status_or_cancelled). by vm_compute.
Defined.

(** *** C3 *)

(** C3, as stated, fails: cancelling the waiting LLM task succeeds, but
    cancelTask calls nobody, so no completion handler is invoked. *)
Lemma C3_cancel_invokes_no_handler :
  (RIS.cancelTask "task_100" Scenarios.ris_one_llm).1 = true
  ∧ RIS.trace (RIS.cancelTask "task_100" Scenarios.ris_one_llm).2
    = RIS.trace Scenarios.ris_one_llm
  ∧ ¬ Spec.handler_invoked Scenarios.ris_one_llm
        (RIS.cancelTask "task_100" Scenarios.ris_one_llm).2.
Proof.
  split_and!; [by vm_compute|by vm_compute|].
  intros (new & e & Htrace & He). vm_compute in Htrace.
  destruct new as [|e' new]; [by apply elem_of_nil in He|discriminate].
Qed.

(** C3, amended: when [tasks_] maps the id to a task whose status is
    PENDING and which no dispatch thread has taken out of its queue yet,
    cancelTask returns true, sets the status to CANCELLED and erases the id
    from [tasks_]; it leaves the three queues as they are and calls
    nothing (there is no completion handler).  From then on the task stays
    CANCELLED and no worker is ever invoked on it, whatever clients,
    dispatch threads and workers do next. *)
Theorem C3_cancel_pending_task processTask s taskId task :
  RIS.tasks_ s !! taskId = Some task →
  RIS.getStatus s task = Some RIS.PENDING →
  task ∉ (RIS.in_flight s).*1 →
  ∃ s',
    RIS.cancelTask taskId s = (true, s')
    ∧ RIS.getStatus s' task = Some RIS.CANCELLED
    ∧ RIS.tasks_ s' !! taskId = None
    ∧ (∀ ty, RIS.queue_of ty s' = RIS.queue_of ty s)
    ∧ RIS.trace s' = RIS.trace s
    ∧ ∀ acts,
        RIS.getStatus (RIS.run processTask s' acts) task
        = Some RIS.CANCELLED
        ∧ ∃ new,
            RIS.trace (RIS.run processTask s' acts) = RIS.trace s ++ new
            ∧ task ∉ RIS.started new.
Proof.
  intros Hidx Hst Hfl. eexists. split; [by apply RISFacts.cancelTask_pending|].
  set (s' := RIS.set_tasks _ _).
  assert (RIS.getStatus s' task = Some RIS.CANCELLED) as Hc.
  { assert (is_Some (RIS.task_objects s !! task)) as Hsome.
    { unfold RIS.getStatus in Hst.
      destruct (RIS.task_objects s !! task); [eauto|done]. }
    pose proof (RISFacts.getStatus_store_status_eq s task RIS.CANCELLED Hsome)
      as Hstore.
    subst s'. revert Hstore. unfold RIS.getStatus.
    generalize (RIS.store_status task RIS.CANCELLED s).
    intros s0. by RISFacts.split_sched s0. }
  assert (RIS.trace s' = RIS.trace s) as Htr
    by (subst s'; by RISFacts.split_sched s).
  assert (RIS.in_flight s' = RIS.in_flight s) as Hfl'
    by (subst s'; by RISFacts.split_sched s).
  split_and!; [done| |intros ty|done|].
  - subst s'. generalize (RIS.store_status task RIS.CANCELLED s).
    intros s0. RISFacts.split_sched s0. apply lookup_delete_eq.
  - subst s'. RISFacts.split_sched s. by destruct ty.
  - intros acts.
    destruct (RISFacts.run_cancelled processTask task acts s')
      as [[Hc' _] [_ (new & Et & Hn)]].
    { split; [done|by rewrite Hfl']. }
    split; [done|]. exists new. by rewrite <-Htr.
Qed.

Lemma C3_cancel_witness :
  ∃ s',
    RIS.cancelTask "task_100" Scenarios.ris_one_llm = (true, s')
    ∧ RIS.getStatus s' 0%nat = Some RIS.CANCELLED
    ∧ RIS.tasks_ s' !! "task_100" = None
    ∧ (∀ ty, RIS.queue_of ty s' = RIS.queue_of ty Scenarios.ris_one_llm)
    ∧ RIS.trace s' = RIS.trace Scenarios.ris_one_llm
    ∧ ∀ acts,
        RIS.getStatus (RIS.run Scenarios.worker_completes s' acts) 0%nat
        = Some RIS.CANCELLED
        ∧ ∃ new,
            RIS.trace (RIS.run Scenarios.worker_completes s' acts)
            = RIS.trace Scenarios.ris_one_llm ++ new
            ∧ 0%nat ∉ RIS.started new.
Proof.
  apply (C3_cancel_pending_task Scenarios.worker_completes
           Scenarios.ris_one_llm "task_100" 0%nat).
  - by vm_compute.
  - by vm_compute.
  - vm_compute. apply not_elem_of_nil.
Defined.

(** *** C4 *)

(** C4, as stated, fails: cancelTask answers false for a RUNNING task and
    false for an id it does not know, so its result cannot tell TooLate
    from NotFound. *)
Lemma C4_running_looks_like_unknown :
  RIS.getStatus Scenarios.ris_running 0%nat = Some RIS.RUNNING
  ∧ (RIS.cancelTask "task_7" Scenarios.ris_running).1 = false
  ∧ (RIS.cancelTask "task_8" Scenarios.ris_running).1 = false
  ∧ ¬ ∃ decode : bool → Spec.CancelOutcome,
        ∀ taskId s,
          decode (RIS.cancelTask taskId s).1 = Spec.cancel_outcome taskId s.
Proof.
  split_and!; [by vm_compute|by vm_compute|by vm_compute|].
  intros [decode Hdec].
  pose proof (Hdec "task_7" Scenarios.ris_running) as H7.
  pose proof (Hdec "task_8" Scenarios.ris_running) as H8.
  vm_compute in H7, H8. congruence.
Qed.

(** C4, amended: ResourceIsolationScheduler::cancelTask on a RUNNING task
    returns false, the value it also returns for an unknown id, and
    changes no state; once a cancelTask(id) has returned true, every later
    cancelTask(id) returns false and changes no state, as long as no
    submission enters the same id again; the same holds for an immediately
    repeated cancelTask of AsyncScheduler. *)
Theorem C4_cancel_false_when_running_or_repeated :
  (∀ s taskId task,
     RIS.tasks_ s !! taskId = Some task →
     RIS.getStatus s task = Some RIS.RUNNING →
     RIS.cancelTask taskId s = (false, s))
  ∧ (∀ s taskId,
       RIS.tasks_ s !! taskId = None →
       RIS.cancelTask taskId s = (false, s))
  ∧ (∀ processTask s taskId s' acts,
       RIS.cancelTask taskId s = (true, s') →
       Forall (λ a, ¬ Invariants.submits taskId a) acts →
       RIS.cancelTask taskId (RIS.run processTask s' acts)
       = (false, RIS.run processTask s' acts))
  ∧ (∀ s task_id s',
       Async.cancelTask task_id s = (true, s') →
       Async.cancelTask task_id s' = (false, s')).
Proof.
  split_and!.
  - intros s taskId task Hi Hs. eapply RISFacts.cancelTask_not_pending; [done|].
    congruence.
  - apply RISFacts.cancelTask_absent.
  - intros processTask s taskId s' acts Hc Hall.
    apply RISFacts.cancelTask_absent, RISFacts.run_keeps_absent; [done|].
    by eapply RISFacts.cancelTask_true_absent.
  - intros s task_id s'. unfold Async.cancelTask.
    destruct (Async.tasks_ s !! task_id) as [t|] eqn:Ht; [|done].
    intros [= <-]. simpl. by rewrite lookup_delete_eq.
Qed.

Lemma C4_cancel_witness :
  RIS.cancelTask "task_7" Scenarios.ris_running
  = (false, Scenarios.ris_running)
  ∧ RIS.cancelTask "task_8" Scenarios.ris_running
    = (false, Scenarios.ris_running)
  ∧ RIS.cancelTask "task_100"
      (RIS.run Scenarios.worker_completes
         (RIS.cancelTask "task_100" Scenarios.ris_one_llm).2
         [RIS.DoFetch; RIS.DoSubmit RIS.TTS_SYNTHESIS RIS.LOW 101])
    = (false,
       RIS.run Scenarios.worker_completes
         (RIS.cancelTask "task_100" Scenarios.ris_one_llm).2
         [RIS.DoFetch; RIS.DoSubmit RIS.TTS_SYNTHESIS RIS.LOW 101])
  ∧ Async.cancelTask 0 (Async.cancelTask 0 Scenarios.llm_submitted).2
    = (false, (Async.cancelTask 0 Scenarios.llm_submitted).2).
Proof.
  destruct C4_cancel_false_when_running_or_repeated
    as (Hrun & Habs & Hrep & Hasync).
  split_and!.
  - apply (Hrun Scenarios.ris_running "task_7" 0%nat); by vm_compute.
  - apply Habs. by vm_compute.
  - apply (Hrep Scenarios.worker_completes Scenarios.ris_one_llm).
    + by vm_compute.
    + repeat constructor; [by intros []|]. vm_compute. discriminate.
  - apply (Hasync Scenarios.llm_submitted). by vm_compute.
Defined.

(** *** C5 *)

(** C5: in every state that the scheduler reaches from its construction,
    a worker selected for a TTS or image task, by selectWorker or by the
    search of the image loop, is not the dedicated LLM worker; equivalently
    selectWorker returns the dedicated worker for LLM tasks only. *)
Theorem C5_dedicated_worker_only_for_llm processTask workers acts type w :
  let s := RIS.run processTask (RIS.ResourceIsolationScheduler_new workers)
             acts in
  type ≠ RIS.LLM_INFERENCE →
  (RIS.selectWorker type s = Some w → RIS.llmWorker_ s ≠ Some w)
  ∧ (RIS.select_image_worker s = Some w → RIS.llmWorker_ s ≠ Some w).
Proof.
  intros s Hty. split.
  - apply RISFacts.selectWorker_not_dedicated; [|done].
    apply RISFacts.dedicated_apart_run, RISFacts.dedicated_apart_new.
  - apply RISFacts.select_image_worker_not_dedicated.
Qed.

Lemma C5_dedicated_witness :
  RIS.llmWorker_ Scenarios.ris_ready = Some 0%nat
  ∧ RIS.idle_and_able Scenarios.ris_ready RIS.TTS_SYNTHESIS 0%nat = true
  ∧ RIS.selectWorker RIS.TTS_SYNTHESIS Scenarios.ris_ready = Some 1%nat
  ∧ ((RIS.selectWorker RIS.TTS_SYNTHESIS Scenarios.ris_ready = Some 1%nat →
      RIS.llmWorker_ Scenarios.ris_ready ≠ Some 1%nat)
     ∧ (RIS.select_image_worker Scenarios.ris_ready = Some 1%nat →
        RIS.llmWorker_ Scenarios.ris_ready ≠ Some 1%nat)).
Proof.
  split; [by vm_compute|]. split; [by vm_compute|]. split; [by vm_compute|].
  apply (C5_dedicated_worker_only_for_llm Scenarios.worker_completes
           Scenarios.three_workers Scenarios.register_three
           RIS.TTS_SYNTHESIS 1%nat).
  discriminate.
Defined.

(** *** C6 *)




(** *** C7 *)

(** C7, as stated, fails: two tasks built one after the other and
    submitted in the opposite order make submitTask return 1 and then 0. *)
Lemma C7_submission_order_not_increasing :
  (Async.submit_all Scenarios.two_tasks_reversed Async.AsyncScheduler_new).1
  = [1; 0]
  ∧ ¬ Spec.strictly_increasing
        (Async.submit_all Scenarios.two_tasks_reversed
           Async.AsyncScheduler_new).1.
Proof.
  split; [by vm_compute|]. intros Hinc.
  assert (1 < 0) as Habs; [|lia].
  apply (Hinc 0%nat 1%nat); [by vm_compute|by vm_compute|lia].
Qed.

(** C7, amended: in AsyncScheduler a task gets its id from a process-wide
    counter when it is constructed; as long as the counter has not wrapped
    at 2^64, the ids of tasks constructed one after the other are distinct
    and strictly increasing in construction order, and submitTask returns
    the id of the task it is given, so tasks submitted in the order of
    their construction return strictly increasing ids. *)
Theorem C7_ids_follow_construction specs next_id s :
  next_id + N.of_nat (length specs) ≤ Async.uint64_modulus →
  let tasks := (Async.Task_new_all specs next_id).1 in
  let returned := (Async.submit_all (Some <$> tasks) s).1 in
  returned = Async.id_ <$> tasks
  ∧ Spec.strictly_increasing returned
  ∧ NoDup returned.
Proof.
  intros Hn tasks returned.
  assert (returned = (λ i, next_id + N.of_nat i) <$> seq 0 (length specs))
    as Hret.
  { subst returned tasks. by rewrite AsyncFacts.submit_all_ids, AsyncFacts.Task_new_all_ids. }
  split_and!.
  - subst returned. apply AsyncFacts.submit_all_ids.
  - rewrite Hret. intros i j a b Hi Hj Hlt.
    rewrite list_lookup_fmap in Hi, Hj.
    destruct (seq 0 (length specs) !! i) as [x|] eqn:Hx; [|done].
    destruct (seq 0 (length specs) !! j) as [y|] eqn:Hy; [|done].
    apply lookup_seq in Hx as [-> _]. apply lookup_seq in Hy as [-> _].
    simpl in Hi, Hj. injection Hi as <-. injection Hj as <-. lia.
  - rewrite Hret. apply NoDup_fmap_2; [|apply NoDup_seq].
    intros i j Hij. lia.
Qed.

Lemma C7_ids_witness :
  (Async.submit_all (Some <$> Scenarios.s2_tasks) Async.AsyncScheduler_new).1
  = Async.id_ <$> Scenarios.s2_tasks
  ∧ Spec.strictly_increasing
      (Async.submit_all (Some <$> Scenarios.s2_tasks)
         Async.AsyncScheduler_new).1
  ∧ NoDup
      (Async.submit_all (Some <$> Scenarios.s2_tasks)
         Async.AsyncScheduler_new).1.
Proof.
  apply (C7_ids_follow_construction
           [(Async.TTS_CPU, Async.LOW, "a"); (Async.TTS_CPU, Async.HIGH, "b");
            (Async.TTS_CPU, Async.MEDIUM, "c")]
           Async.next_id_init Async.AsyncScheduler_new).
  vm_compute. discriminate.
Defined.

(** *** C8 *)

(** C8, as stated, fails on scenario S6: after the worker threw "oom" the
    task is FAILED, but the message is nowhere on the task record; it was
    only written to [std::cerr]. *)
Lemma C8_oom_not_recorded_on_task :
  let s' := RIS.exec Scenarios.worker_throws_oom Scenarios.ris_oom_taken
              (RIS.DoResume 0) in
  RIS.task_objects s' !! 0%nat
  = Some (RIS.mkTask RIS.TTS_SYNTHESIS RIS.MEDIUM RIS.FAILED "task_100"
            None None)
  ∧ RIS.cerr s' = ["Error processing task task_100: oom"]
  ∧ ¬ Spec.error_recorded
        (RIS.mkTask RIS.TTS_SYNTHESIS RIS.MEDIUM RIS.FAILED "task_100"
           None None)
        "oom".
Proof. split_and!; [by vm_compute|by vm_compute|]. by intros [=]. Qed.

(** C8, amended: when the worker that a dispatch thread selected throws a
    [std::exception] while processing a task, the dispatcher catches it:
    the task's status becomes FAILED, [failedTasks_] is incremented, the
    message is written to [std::cerr] and not stored on the task, the id
    leaves [tasks_], and the thread, the other threads and [running_] are
    as before, so the loops keep serving submissions.  A worker thread of
    AsyncScheduler that catches a [std::exception] passes
    "Exception: <message>" to the task's callback and erases the task. *)
Theorem C8_caught_exception_marks_failed
    processTask s task ty w wo t what :
  RIS.terminated s = false →
  RIS.selectWorker ty s = Some w →
  RIS.worker_objects s !! w = Some wo →
  RIS.task_objects s !! task = Some t →
  RIS.p_thrown (processTask wo t) = Some (RIS.StdException what) →
  let s' := RIS.dispatch_run processTask task ty s in
  (RIS.getStatus s' task = Some RIS.FAILED
   ∧ RIS.exception_ <$> RIS.task_objects s' !! task
     = Some (RIS.p_exception (processTask wo t))
   ∧ RIS.failedTasks_ s' = RIS.incr (RIS.failedTasks_ s)
   ∧ RIS.cerr s'
     = RIS.cerr s ++ ["Error processing task " +:+ RIS.taskId_ t
                      +:+ ": " +:+ what]
   ∧ RIS.tasks_ s' = delete (RIS.taskId_ t) (RIS.tasks_ s))
  ∧ (RIS.terminated s' = false
     ∧ RIS.running_ s' = RIS.running_ s
     ∧ RIS.workerThreads_ s' = RIS.workerThreads_ s
     ∧ RIS.imageQueueThread_ s' = RIS.imageQueueThread_ s
     ∧ RIS.in_flight s' = RIS.in_flight s)
  ∧ (∀ si itask rest iw iwo it iwhat,
       RIS.terminated si = false →
       RIS.imageTaskQueue_ si = itask :: rest →
       RIS.task_objects si !! itask = Some it →
       is_Some (RIS.tasks_ si !! RIS.taskId_ it) →
       RIS.status_ it ≠ RIS.CANCELLED →
       RIS.select_image_worker si = Some iw →
       RIS.worker_objects si !! iw = Some iwo →
       RIS.p_thrown (processTask iwo it) = Some (RIS.StdException iwhat) →
       let si' := RIS.processImageGenerationQueue processTask si in
       RIS.getStatus si' itask = Some RIS.FAILED
       ∧ RIS.failedTasks_ si' = RIS.incr (RIS.failedTasks_ si)
       ∧ RIS.cerr si'
         = RIS.cerr si ++ ["Error processing image task "
                           +:+ RIS.taskId_ it +:+ ": " +:+ iwhat]
       ∧ RIS.tasks_ si' = delete (RIS.taskId_ it) (RIS.tasks_ si)
       ∧ RIS.terminated si' = false
       ∧ RIS.running_ si' = RIS.running_ si
       ∧ RIS.imageQueueThread_ si' = RIS.imageQueueThread_ si)
  ∧ (∀ execute (a : Async.Scheduler) (u : Async.Task) msg,
       Async.thrown (execute u) = Some msg →
       Async.callback_ u = true →
       Async.EvCallback (Async.getId u) false ("Exception: " +:+ msg)
       ∈ Async.trace (Async.worker_execute execute u a)
       ∧ Async.tasks_ (Async.worker_execute execute u a) !! Async.getId u
         = None
       ∧ Async.running_ (Async.worker_execute execute u a)
         = Async.running_ a).
Proof.
  intros Hterm Hsel Hw Ht Hthrown s'.
  destruct (RISFacts.dispatch_run_catches processTask task ty s w wo t what
              Hterm Hsel Hw Ht Hthrown)
    as (Ho & Hfail & Hcerr & Hterm' & Hidx).
  pose proof (RISFacts.frame_dispatch_run processTask task ty s) as Hframe.
  fold s' in Ho, Hfail, Hcerr, Hterm', Hidx, Hframe.
  split_and!; try done.
  - unfold RIS.getStatus. by rewrite Ho.
  - by rewrite Ho.
  - apply Hframe.
  - apply Hframe.
  - apply Hframe.
  - apply Hframe.
  - intros si itask rest iw iwo it iwhat Hti Hq Hit Hidx' Hnc Hsel' Hiw Hth.
    destruct (RISFacts.image_loop_catches processTask itask rest si iw iwo
                it iwhat Hti Hq Hit Hidx' Hnc Hsel' Hiw Hth)
      as (Ho' & Hfail' & Hcerr' & Hterm'' & Hidx'').
    pose proof (RISFacts.frame_processImageGenerationQueue processTask si)
      as Hframe'.
    split_and!; try done; [|apply Hframe'..].
    unfold RIS.getStatus. by rewrite Ho'.
  - intros execute a u msg Hmsg Hcb. unfold Async.worker_execute.
    rewrite Hmsg. unfold Async.notifyComplete at 2. rewrite Hcb. simpl.
    split_and!; [|apply lookup_delete_eq|done].
    apply elem_of_app. right. apply list_elem_of_further.
    apply elem_of_app. right. apply list_elem_of_here.
Qed.

Lemma C8_caught_exception_witness :
  let s' := RIS.dispatch_run Scenarios.worker_throws_oom 0%nat
              RIS.TTS_SYNTHESIS
              (RIS.set_in_flight [] Scenarios.ris_oom_taken) in
  (RIS.getStatus s' 0%nat = Some RIS.FAILED
   ∧ RIS.failedTasks_ s' = 1
   ∧ RIS.cerr s' = ["Error processing task task_100: oom"])
  ∧ RIS.terminated s' = false
  ∧ RIS.in_flight
      (RIS.run Scenarios.worker_throws_oom s'
         [RIS.DoSubmit RIS.TTS_SYNTHESIS RIS.MEDIUM 101; RIS.DoFetch])
    = [(1%nat, RIS.TTS_SYNTHESIS)].
Proof.
  intros s'.
  pose proof (C8_caught_exception_marks_failed Scenarios.worker_throws_oom
                (RIS.set_in_flight [] Scenarios.ris_oom_taken) 0%nat
                RIS.TTS_SYNTHESIS 1%nat
                (RIS.mkWorker "cpu-tts" [RIS.TTS_SYNTHESIS] false false "")
                (RIS.Task_new RIS.TTS_SYNTHESIS RIS.MEDIUM 100) "oom") as H.
  destruct H as ((Hst & _ & Hfail & Hcerr & _) & (Hterm & _) & _ & _);
    [by vm_compute..|].
  split; [split; [exact Hst|split; [|exact Hcerr]]|split; [exact Hterm|]].
  - etrans; [exact Hfail|by vm_compute].
  - by vm_compute.
Defined.

(** *** C9 *)

(** C9: AsyncScheduler::cancelTask returns true exactly when the id is in
    [tasks_]; a task that a worker thread has taken out of its queue is
    still in [tasks_], so cancelling it then returns true, and the thread
    goes on to call the task's [execute]. *)
Theorem C9_cancel_succeeds_while_executing :
  (∀ task_id s,
     (Async.cancelTask task_id s).1 = true
     ↔ is_Some (Async.tasks_ s !! task_id))
  ∧ (∀ execute worker_type s t s1,
       Async.worker_fetch worker_type s = (Some t, s1) →
       is_Some (Async.tasks_ s !! Async.getId t) →
       Async.tasks_ s1 = Async.tasks_ s
       ∧ (Async.cancelTask (Async.getId t) s1).1 = true
       ∧ Async.EvExecute (Async.getId t)
         ∈ Async.trace
             (Async.worker_execute execute t
                (Async.cancelTask (Async.getId t) s1).2)).
Proof.
  assert (∀ task_id s,
            (Async.cancelTask task_id s).1 = true
            ↔ is_Some (Async.tasks_ s !! task_id)) as Hiff.
  { intros task_id s. unfold Async.cancelTask.
    destruct (Async.tasks_ s !! task_id) as [t|]; simpl.
    - split; eauto.
    - split; [done|]. by intros [? ?]. }
  split; [done|].
  intros execute worker_type s t s1 Hfetch Hin.
  assert (Async.tasks_ s1 = Async.tasks_ s) as Htasks.
  { unfold Async.worker_fetch in Hfetch.
    destruct (Async.pick_next _) as [[t' q']|]; [|done].
    injection Hfetch as _ <-. apply AsyncFacts.tasks_set_queue. }
  split_and!; [done|apply Hiff; by rewrite Htasks|].
  unfold Async.worker_execute. simpl.
  apply elem_of_app. right. apply list_elem_of_here.
Qed.

Lemma C9_cancel_witness :
  Async.tasks_ (Async.worker_fetch Async.LLM_GPU Scenarios.llm_submitted).2
  = Async.tasks_ Scenarios.llm_submitted
  ∧ (Async.cancelTask (Async.getId Scenarios.llm_task)
       (Async.worker_fetch Async.LLM_GPU Scenarios.llm_submitted).2).1 = true
  ∧ Async.EvExecute (Async.getId Scenarios.llm_task)
    ∈ Async.trace
        (Async.worker_execute Scenarios.execute_ok Scenarios.llm_task
           (Async.cancelTask (Async.getId Scenarios.llm_task)
              (Async.worker_fetch Async.LLM_GPU
                 Scenarios.llm_submitted).2).2).
Proof.
  apply (proj2 C9_cancel_succeeds_while_executing Scenarios.execute_ok
           Async.LLM_GPU Scenarios.llm_submitted).
  - by vm_compute.
  - exists Scenarios.llm_task. by vm_compute.
Defined.

(** *** C10 *)

(** C10: submitTask on a null pointer returns 0 and changes nothing,
    neither [tasks_] nor any queue; the first task ever constructed has id
    0, and submitting it returns 0 as well. *)
Theorem C10_zero_is_sentinel_and_first_id :
  (∀ s, Async.submitTask None s = (0, s))
  ∧ (∀ type priority name,
       Async.getId
         (Async.Task_new type priority name Async.next_id_init).1 = 0)
  ∧ (∀ type priority name s,
       (Async.submitTask
          (Some (Async.Task_new type priority name Async.next_id_init).1)
          s).1 = 0
       ∧ Async.tasks_
           (Async.submitTask
              (Some (Async.Task_new type priority name
                       Async.next_id_init).1) s).2 !! 0
         = Some (Async.Task_new type priority name Async.next_id_init).1).
Proof.
  split_and!; [done|done|].
  intros type priority name s. split; [done|].
  simpl. rewrite AsyncFacts.tasks_set_queue. simpl. apply lookup_insert_eq.
Qed.

(** ** Further properties *)

(** *** TaskQueue *)
Module TaskQueueFacts.
Import TaskQueue.

Lemma enqueue_all_accepted calls s :
  running_ s = true →
  Forall (λ c : option TaskBody * Z, is_Some c.1) calls →
  next_task_id_ s + N.of_nat (length calls) ≤ size_t_modulus →
  (enqueue_all calls s).1
  = (λ i, next_task_id_ s + N.of_nat i) <$> seq 0 (length calls)
  ∧ running_ (enqueue_all calls s).2 = true
  ∧ length (queue_ (enqueue_all calls s).2)
    = (length (queue_ s) + length calls)%nat.
Proof.
  revert s. induction calls as [|[body prio] rest IH]; intros s Hrun Hall Hn.
  { simpl. split_and!; [done|done|lia]. }
  apply Forall_cons in Hall as [[b Hb] Hall]. simpl in Hb. subst body.
  change (length ((Some b, prio) :: rest)) with (S (length rest)) in *.
  rewrite <-cons_seq, fmap_cons.
  cbn [enqueue_all enqueue]. rewrite Hrun.
  destruct rest as [|call rest'].
  { cbn. rewrite length_app. simpl. split_and!; [f_equal; lia|done|lia]. }
  assert ((next_task_id_ s + 1) mod size_t_modulus = next_task_id_ s + 1)
    as Hsmall by (apply N.mod_small; cbn [length] in Hn; lia).
  set (s1 := mkState _ _ _ _ _ _ _ _).
  specialize (IH s1 eq_refl Hall).
  destruct (enqueue_all (call :: rest') s1) as [ids s2].
  cbn [fst snd] in *.
  assert (next_task_id_ s1 = next_task_id_ s + 1) as Hnext by done.
  assert (length (queue_ s1) = S (length (queue_ s))) as Hlen
    by (subst s1; simpl; rewrite length_app; simpl; lia).
  rewrite Hnext, Hlen in IH.
  destruct IH as (Hids & Hrun' & Hlen'); [lia|].
  split_and!; [|done|lia].
  f_equal; [lia|]. rewrite Hids.
  rewrite <-(fmap_S_seq 0), <-list_fmap_compose.
  apply list_fmap_ext. intros i x _. simpl. lia.
Qed.

Lemma single_worker_new m : single_worker (TaskQueue_new m).
Proof. by left. Qed.

Lemma single_worker_exec s a : single_worker s → single_worker (exec s a).
Proof.
  intros Hinv. pose proof Hinv as Hinv0.
  destruct s as [rn mx cnt nxt q ws st err]. unfold single_worker in *.
  simpl in Hinv.
  destruct a as [|body prio|task_id|top i|top]; simpl.
  - unfold initialize. simpl.
    destruct Hinv as [(-> & -> & ->)|(-> & _)]; [|done].
    right. split; [done|]. right. exists AtLoopTest. by split_and!.
  - unfold enqueue. destruct body as [b|]; [|done]. simpl.
    destruct rn; [|done]. simpl.
    destruct Hinv as [(? & _)|(_ & H)]; [done|]. right. by split.
  - unfold cancel. by destruct (_ || _).
  - unfold thread_step. simpl.
    destruct Hinv
      as [(-> & -> & ->)|(-> & [(b & -> & ->)|(t & -> & Ht & ->)])].
    + simpl. by left.
    + destruct i as [|i]; simpl; [|right; eauto 10].
      right. split; [done|]. right. exists AtLoopTest. by split_and!.
    + destruct i as [|i]; simpl; [|right; eauto 10].
      destruct t as [| |b|]; simpl.
      * right. split; [done|]. right. exists Waiting. by split_and!.
      * destruct q as [|y q]; [right; eauto 10|].
        case_bool_decide.
        -- destruct (queue_top top (y :: q)) as [x|]; [|right; eauto 10].
           right. split; [done|]. left. exists (task x). by split.
        -- right. split; [done|]. right. exists AtLoopTest. by split_and!.
      * by destruct (Ht b).
      * right. eauto 10.
  - unfold shutdown. simpl. destruct rn; [|done]. by left.
Qed.

Lemma single_worker_run acts s :
  single_worker s → single_worker (run s acts).
Proof.
  revert s. induction acts as [|a acts IH]; intros s Hinv; [done|].
  simpl. by apply IH, single_worker_exec.
Qed.

(** With [max_concurrent_] zero nothing is ever taken out of the queue. *)
Lemma never_started_step s top i :
  max_concurrent_ s = 0 → started s = [] →
  max_concurrent_ (thread_step top i s) = 0
  ∧ started (thread_step top i s) = [].
Proof.
  intros Hmax Hst. unfold thread_step.
  destruct (workers_ s !! i) as [[| |b|]|]; try done.
  destruct (queue_ s); [by destruct (running_ s)|].
  rewrite Hmax. by rewrite bool_decide_eq_false_2 by lia.
Qed.

Lemma never_started_join top l s :
  max_concurrent_ s = 0 → started s = [] →
  max_concurrent_ (foldl (join_thread top) s l) = 0
  ∧ started (foldl (join_thread top) s l) = [].
Proof.
  revert s. induction l as [|i l IH]; intros s Hmax Hst; [done|].
  simpl. unfold join_thread at 2 4.
  destruct (never_started_step s top i Hmax Hst) as [H1 H2].
  destruct (never_started_step _ top i H1 H2) as [H3 H4].
  destruct (never_started_step _ top i H3 H4) as [H5 H6].
  by apply IH.
Qed.

Lemma never_started_exec s a :
  max_concurrent_ s = 0 → started s = [] →
  max_concurrent_ (exec s a) = 0 ∧ started (exec s a) = [].
Proof.
  intros Hmax Hst.
  destruct a as [|body prio|task_id|top i|top]; simpl.
  - unfold initialize. by destruct (running_ s).
  - unfold enqueue. destruct body; [|done]. by destruct (running_ s).
  - unfold cancel. by destruct (_ || _).
  - by apply never_started_step.
  - unfold shutdown. destruct (running_ s); [|done]. simpl.
    by apply never_started_join.
Qed.

Lemma never_started_run acts s :
  max_concurrent_ s = 0 → started s = [] →
  started (run s acts) = [].
Proof.
  revert s. induction acts as [|a acts IH]; intros s Hmax Hst; [done|].
  simpl. destruct (never_started_exec s a Hmax Hst). by apply IH.
Qed.

(** [remove_item] takes out one occurrence. *)
Lemma remove_item_perm x q : x ∈ q → q ≡ₚ x :: remove_item x q.
Proof.
  induction q as [|y q IH]; intros Hin; [by apply elem_of_nil in Hin|].
  simpl. destruct (decide (x = y)) as [->|Hne]; [done|].
  apply elem_of_cons in Hin as [->|Hin]; [done|].
  rewrite (IH Hin) at 1. apply Permutation_swap.
Qed.

Lemma is_top_spec x q :
  is_top x q = true ↔ x ∈ q ∧ ∀ y, y ∈ q → (priority y ≤ priority x)%Z.
Proof.
  unfold is_top. rewrite andb_true_iff, bool_decide_eq_true.
  rewrite forallb_forall. setoid_rewrite <-list_elem_of_In.
  unfold item_lt. split; intros [Hin Hmax]; (split; [done|]); intros y Hy.
  - specialize (Hmax y Hy). apply negb_true_iff, bool_decide_eq_false in Hmax.
    lia.
  - apply negb_true_iff, bool_decide_eq_false. specialize (Hmax y Hy). lia.
Qed.

(** The first maximal item of a non-empty queue exists and is one that
    [top()] can return. *)
Lemma first_max_is_top q :
  q ≠ [] → ∃ x, first_max q = Some x ∧ is_top x q = true.
Proof.
  induction q as [|x q IH]; [done|]. intros _. simpl.
  destruct q as [|y q].
  { exists x. split; [done|]. apply is_top_spec. split; [set_solver|].
    intros z ->%list_elem_of_singleton. lia. }
  destruct IH as (m & -> & Hm); [done|].
  apply is_top_spec in Hm as [Hin Hmax].
  unfold item_lt. case_bool_decide as Hlt.
  - exists m. split; [done|]. apply is_top_spec.
    split; [by apply list_elem_of_further|].
    intros z [->|Hz]%elem_of_cons; [lia|by apply Hmax].
  - exists x. split; [done|]. apply is_top_spec.
    split; [apply list_elem_of_here|].
    intros z [->|Hz]%elem_of_cons; [lia|]. specialize (Hmax z Hz). lia.
Qed.

(** Whatever the hint, [queue_top] yields an item of the queue that no
    item of the queue is greater than. *)
Lemma queue_top_is_top hint q :
  q ≠ [] → ∃ x, queue_top hint q = Some x ∧ is_top x q = true.
Proof.
  intros Hq. unfold queue_top.
  destruct (is_top hint q) eqn:Hh; [by exists hint|].
  by apply first_max_is_top.
Qed.

End TaskQueueFacts.

(** TaskQueue::enqueue hands out consecutive ids, starting with the
    current [next_task_id_] (1 for a new queue), to calls that it accepts,
    and appends one item per call; it returns 0 and changes nothing, the id
    counter included, when the queue is not running or the task is empty.
    As long as the counter has not wrapped, no accepted call returns 0. *)
Theorem taskqueue_enqueue_ids calls s :
  TaskQueue.running_ s = true →
  1 ≤ TaskQueue.next_task_id_ s →
  Forall (λ c : option TaskQueue.TaskBody * Z, is_Some c.1) calls →
  TaskQueue.next_task_id_ s + N.of_nat (length calls)
  ≤ TaskQueue.size_t_modulus →
  (TaskQueue.enqueue_all calls s).1
  = ((λ i, TaskQueue.next_task_id_ s + N.of_nat i) <$> seq 0 (length calls))
  ∧ ¬ (0 ∈ (TaskQueue.enqueue_all calls s).1)
  ∧ TaskQueue.size (TaskQueue.enqueue_all calls s).2
    = (TaskQueue.size s + length calls)%nat
  ∧ (∀ body prio s0,
       TaskQueue.running_ s0 = false ∨ body = None →
       TaskQueue.enqueue body prio s0 = (0, s0)).
Proof.
  intros Hrun Hone Hall Hn.
  destruct (TaskQueueFacts.enqueue_all_accepted calls s Hrun Hall Hn)
    as (Hids & _ & Hlen).
  split_and!; [done| |done|].
  - rewrite Hids. intros Hin.
    apply list_elem_of_fmap in Hin as (i & Hi & _). lia.
  - intros body prio s0 [Hr| ->]; unfold TaskQueue.enqueue.
    + rewrite Hr. by destruct body.
    + done.
Qed.

Lemma taskqueue_enqueue_ids_witness :
  (TaskQueue.enqueue_all
     [(Some TaskQueue.Returns, 0%Z); (Some TaskQueue.Returns, 1%Z);
      (Some TaskQueue.Returns, 2%Z)]
     (TaskQueue.initialize (TaskQueue.TaskQueue_new 1))).1
  = [1; 2; 3]
  ∧ TaskQueue.enqueue (Some TaskQueue.Returns) 5 (TaskQueue.TaskQueue_new 1)
    = (0, TaskQueue.TaskQueue_new 1).
Proof.
  destruct (taskqueue_enqueue_ids
              [(Some TaskQueue.Returns, 0%Z); (Some TaskQueue.Returns, 1%Z);
               (Some TaskQueue.Returns, 2%Z)]
              (TaskQueue.initialize (TaskQueue.TaskQueue_new 1)))
    as (Hids & _ & _ & Hrej).
  - reflexivity.
  - vm_compute. discriminate.
  - repeat constructor; by eexists.
  - vm_compute. discriminate.
  - split; [exact Hids|]. apply Hrej. by left.
Defined.

(** TaskQueue::cancel never cancels anything: it returns false and
    leaves the queue as it is, so dropping every cancel call from any
    sequence of operations gives the same final state. *)
Theorem taskqueue_cancel_has_no_effect :
  (∀ task_id s, TaskQueue.cancel task_id s = (false, s))
  ∧ (∀ acts s,
       TaskQueue.run s acts
       = TaskQueue.run s
           (filter (λ a, TaskQueue.is_cancel a = false) acts)).
Proof.
  assert (∀ task_id s, TaskQueue.cancel task_id s = (false, s)) as Hc.
  { intros task_id s. unfold TaskQueue.cancel. by destruct (_ || _). }
  split; [done|].
  intros acts. induction acts as [|a acts IH]; intros s; [done|].
  rewrite filter_cons. case_decide as Ha.
  - simpl. apply IH.
  - destruct a as [| | task_id | |]; try done.
    simpl. rewrite Hc. apply IH.
Qed.

(** TaskQueue::workerThread, when it finds the queue non-empty and
    [running_count_] below [max_concurrent_], takes out exactly one item,
    and that item is one of highest priority, whichever item the heap was
    expected to yield: no item of the queue, taken or left, has a higher
    priority; the other items stay queued; [running_count_] goes up by
    one. *)
Theorem taskqueue_takes_highest_priority top i s :
  TaskQueue.workers_ s !! i = Some TaskQueue.Waiting →
  TaskQueue.queue_ s ≠ [] →
  TaskQueue.running_count_ s < TaskQueue.max_concurrent_ s →
  TaskQueue.max_concurrent_ s < TaskQueue.size_t_modulus →
  let s' := TaskQueue.thread_step top i s in
  ∃ taken,
    taken ∈ TaskQueue.queue_ s
    ∧ (∀ y, y ∈ TaskQueue.queue_ s →
            (TaskQueue.priority y ≤ TaskQueue.priority taken)%Z)
    ∧ TaskQueue.workers_ s' !! i
      = Some (TaskQueue.Holding (TaskQueue.task taken))
    ∧ TaskQueue.started s' = TaskQueue.started s ++ [TaskQueue.id taken]
    ∧ TaskQueue.queue_ s ≡ₚ taken :: TaskQueue.queue_ s'
    ∧ (∀ y, y ∈ TaskQueue.queue_ s' →
            (TaskQueue.priority y ≤ TaskQueue.priority taken)%Z)
    ∧ TaskQueue.running_count_ s' = TaskQueue.running_count_ s + 1.
Proof.
  intros Hw Hne Hcnt Hmax s'.
  destruct (TaskQueueFacts.queue_top_is_top top _ Hne) as (taken & Htop & Hmx).
  apply TaskQueueFacts.is_top_spec in Hmx as [Hin Hle].
  pose proof (TaskQueueFacts.remove_item_perm taken _ Hin) as Hperm.
  assert (s' = TaskQueue.mkState (TaskQueue.running_ s)
                 (TaskQueue.max_concurrent_ s)
                 ((TaskQueue.running_count_ s + 1)
                    mod TaskQueue.size_t_modulus)
                 (TaskQueue.next_task_id_ s)
                 (TaskQueue.remove_item taken (TaskQueue.queue_ s))
                 (<[i := TaskQueue.Holding (TaskQueue.task taken)]>
                    (TaskQueue.workers_ s))
                 (TaskQueue.started s ++ [TaskQueue.id taken])
                 (TaskQueue.cerr s)) as ->.
  { subst s'. unfold TaskQueue.thread_step. rewrite Hw.
    destruct (TaskQueue.queue_ s) as [|y q] eqn:Hq; [done|].
    by rewrite bool_decide_eq_true_2, Htop by done. }
  exists taken. simpl. split_and!; [done|done| |done|done| |].
  - apply list_lookup_insert_eq. by eapply lookup_lt_Some.
  - intros y Hy. apply Hle. rewrite Hperm. by apply list_elem_of_further.
  - apply N.mod_small. lia.
Qed.

Lemma taskqueue_takes_highest_priority_witness :
  let s := TaskQueue.run (TaskQueue.TaskQueue_new 1)
             [TaskQueue.DoInitialize;
              TaskQueue.DoEnqueue (Some TaskQueue.Returns) 0;
              TaskQueue.DoEnqueue (Some TaskQueue.Returns) 2;
              TaskQueue.DoEnqueue (Some TaskQueue.Returns) 1;
              TaskQueue.DoStep
                (TaskQueue.mkQueueItem 1 TaskQueue.Returns 0) 0] in
  ∃ taken,
    TaskQueue.priority taken = 2%Z
    ∧ TaskQueue.started
        (TaskQueue.thread_step (TaskQueue.mkQueueItem 1 TaskQueue.Returns 0)
           0 s)
      = [TaskQueue.id taken].
Proof.
  intros s.
  destruct (taskqueue_takes_highest_priority
              (TaskQueue.mkQueueItem 1 TaskQueue.Returns 0) 0%nat s)
    as (taken & Hin & Hle & _ & Hst & _);
    [reflexivity|discriminate|by vm_compute|by vm_compute|].
  exists taken. split; [|exact Hst].
  assert (TaskQueue.priority taken ≤ 2)%Z as Hup.
  { vm_compute in Hin.
    repeat (apply elem_of_cons in Hin as [->|Hin]; [by vm_compute|]).
    by apply elem_of_nil in Hin. }
  assert (2 ≤ TaskQueue.priority taken)%Z as Hlow.
  { apply (Hle (TaskQueue.mkQueueItem 2 TaskQueue.Returns 2)).
    vm_compute. apply list_elem_of_further, list_elem_of_here. }
  lia.
Defined.

(** Whatever the task does when the worker thread calls it (return, throw
    a [std::exception], throw anything else), the thread survives:
    [running_count_] goes back down by one, the thread is back at the top
    of its loop, and the queue and [running_] are untouched. *)
Theorem taskqueue_task_failure_contained top i s body :
  TaskQueue.workers_ s !! i = Some (TaskQueue.Holding body) →
  1 ≤ TaskQueue.running_count_ s < TaskQueue.size_t_modulus →
  let s' := TaskQueue.thread_step top i s in
  TaskQueue.workers_ s' !! i = Some TaskQueue.AtLoopTest
  ∧ TaskQueue.running_count_ s' = TaskQueue.running_count_ s - 1
  ∧ TaskQueue.queue_ s' = TaskQueue.queue_ s
  ∧ TaskQueue.running_ s' = TaskQueue.running_ s
  ∧ TaskQueue.cerr s' = TaskQueue.cerr s ++ TaskQueue.run_task body.
Proof.
  intros Hw Hcnt s'. subst s'. unfold TaskQueue.thread_step. rewrite Hw.
  simpl. split_and!; try done.
  - apply list_lookup_insert_eq. by eapply lookup_lt_Some.
  - unfold TaskQueue.size_t_modulus in *.
    replace (TaskQueue.running_count_ s + 2 ^ 64 - 1)
      with (TaskQueue.running_count_ s - 1 + 1 * 2 ^ 64) by lia.
    rewrite N.Div0.mod_add. apply N.mod_small. lia.
Qed.

Lemma taskqueue_task_failure_witness :
  let s := TaskQueue.run (TaskQueue.TaskQueue_new 1)
             [TaskQueue.DoInitialize;
              TaskQueue.DoEnqueue (Some TaskQueue.ThrowsOther) 0;
              TaskQueue.DoStep
                (TaskQueue.mkQueueItem 1 TaskQueue.ThrowsOther 0) 0;
              TaskQueue.DoStep
                (TaskQueue.mkQueueItem 1 TaskQueue.ThrowsOther 0) 0] in
  TaskQueue.workers_
    (TaskQueue.thread_step (TaskQueue.mkQueueItem 1 TaskQueue.ThrowsOther 0)
       0 s) !! 0%nat
  = Some TaskQueue.AtLoopTest.
Proof.
  intros s.
  destruct (taskqueue_task_failure_contained
              (TaskQueue.mkQueueItem 1 TaskQueue.ThrowsOther 0) 0%nat s
              TaskQueue.ThrowsOther)
    as (Hw & _); [reflexivity|by vm_compute|].
  exact Hw.
Defined.

(** A TaskQueue never runs two tasks at once, whatever [max_concurrent]
    it was built with: in every state it reaches there is at most one
    worker thread and [runningCount()] is 0 or 1, and it is 1 exactly when
    that thread holds a task. *)
Theorem taskqueue_one_task_at_a_time max_concurrent acts :
  let s := TaskQueue.run (TaskQueue.TaskQueue_new max_concurrent) acts in
  (length (TaskQueue.workers_ s) ≤ 1)%nat
  ∧ TaskQueue.runningCount s ≤ 1
  ∧ (TaskQueue.runningCount s = 1
     ↔ ∃ body, TaskQueue.workers_ s = [TaskQueue.Holding body]).
Proof.
  intros s.
  pose proof (TaskQueueFacts.single_worker_run acts _
                (TaskQueueFacts.single_worker_new max_concurrent)) as Hinv.
  fold s in Hinv. unfold TaskQueue.runningCount.
  destruct Hinv
    as [(_ & -> & ->)|(_ & [(b & -> & ->)|(t & -> & Ht & ->)])]; simpl.
  - split_and!; [lia|lia|]. split; [lia|]. by intros [? ?].
  - split_and!; [lia|lia|]. split; eauto.
  - split_and!; [lia|lia|]. split; [lia|].
    intros [b [= ->]]. by destruct (Ht b).
Qed.

(** A TaskQueue built with [max_concurrent] 0 never takes a task out of
    its queue, whatever is enqueued and however long the worker thread
    runs. *)
Theorem taskqueue_zero_concurrency_starts_nothing acts :
  TaskQueue.started (TaskQueue.run (TaskQueue.TaskQueue_new 0) acts) = [].
Proof. by apply TaskQueueFacts.never_started_run. Qed.

(** When TaskQueue::shutdown on a running queue returns, the queue is
    stopped and empty, without threads, and later enqueue calls are
    refused.  The items that were still queued are discarded without being
    run, except that the worker thread, if it was about to take the lock
    while the queue was non-empty and [max_concurrent_] is not 0, still
    takes one item and runs it; that item is one of highest priority in
    the queue, whichever item the heap was expected to yield. *)
Theorem taskqueue_shutdown_drops_queue top s :
  TaskQueue.single_worker s →
  TaskQueue.running_ s = true →
  let s' := TaskQueue.shutdown top s in
  (TaskQueue.running_ s' = false ∧ TaskQueue.queue_ s' = []
   ∧ TaskQueue.workers_ s' = [] ∧ TaskQueue.running_count_ s' = 0)
  ∧ (∀ body prio, TaskQueue.enqueue body prio s' = (0, s'))
  ∧ (TaskQueue.workers_ s = [TaskQueue.Waiting]
     ∧ TaskQueue.queue_ s ≠ [] ∧ 0 < TaskQueue.max_concurrent_ s →
     ∃ taken,
       taken ∈ TaskQueue.queue_ s
       ∧ (∀ y, y ∈ TaskQueue.queue_ s →
               (TaskQueue.priority y ≤ TaskQueue.priority taken)%Z)
       ∧ TaskQueue.started s' = TaskQueue.started s ++ [TaskQueue.id taken]
       ∧ TaskQueue.cerr s'
         = TaskQueue.cerr s ++ TaskQueue.run_task (TaskQueue.task taken))
  ∧ (¬ (TaskQueue.workers_ s = [TaskQueue.Waiting]
        ∧ TaskQueue.queue_ s ≠ [] ∧ 0 < TaskQueue.max_concurrent_ s) →
     TaskQueue.started s' = TaskQueue.started s).
Proof.
  intros Hinv Hrun s'. subst s'. unfold TaskQueue.shutdown.
  rewrite Hrun. cbv zeta. split; [done|]. split.
  { intros body prio. unfold TaskQueue.enqueue. simpl. by destruct body. }
  destruct s as [rn mx cnt nxt q ws st err].
  unfold TaskQueue.single_worker in Hinv. simpl in *. subst rn.
  destruct Hinv as [(? & _)|(_ & [(b & -> & ->)|(t & -> & Ht & ->)])];
    [done| |].
  - split; [by intros ([=] & _)|]. intros _. by vm_compute.
  - destruct t as [| |b|].
    + split; [by intros ([=] & _)|]. intros _. by vm_compute.
    + destruct q as [|y q].
      { split; [by intros (_ & ? & _)|]. intros _. by vm_compute. }
      destruct (decide (0 < mx)) as [Hmx|Hmx].
      * split; [|intros Hn; exfalso; apply Hn; by split_and!].
        intros _.
        destruct (TaskQueueFacts.queue_top_is_top top (y :: q))
          as (taken & Htop & Hmax); [done|].
        apply TaskQueueFacts.is_top_spec in Hmax as [Hin Hle].
        exists taken. split; [done|]. split; [done|]. simpl.
        unfold TaskQueue.join_thread, TaskQueue.thread_step. simpl.
        rewrite bool_decide_eq_true_2, Htop by done. by simpl.
      * split; [intros (_ & _ & ?); lia|]. intros _. simpl.
        unfold TaskQueue.join_thread, TaskQueue.thread_step. simpl.
        rewrite bool_decide_eq_false_2 by done. by simpl.
    + by destruct (Ht b).
    + split; [by intros ([=] & _)|]. intros _. by vm_compute.
Qed.

Lemma taskqueue_shutdown_witness :
  let s := TaskQueue.run (TaskQueue.TaskQueue_new 1)
             [TaskQueue.DoInitialize;
              TaskQueue.DoEnqueue (Some TaskQueue.Returns) 0;
              TaskQueue.DoEnqueue (Some TaskQueue.Returns) 2;
              TaskQueue.DoStep
                (TaskQueue.mkQueueItem 1 TaskQueue.Returns 0) 0] in
  TaskQueue.queue_
    (TaskQueue.shutdown (TaskQueue.mkQueueItem 1 TaskQueue.Returns 0) s)
  = []
  ∧ ∃ taken,
      TaskQueue.priority taken = 2%Z
      ∧ TaskQueue.started
          (TaskQueue.shutdown (TaskQueue.mkQueueItem 1 TaskQueue.Returns 0)
             s)
        = TaskQueue.started s ++ [TaskQueue.id taken].
Proof.
  intros s.
  destruct (taskqueue_shutdown_drops_queue
              (TaskQueue.mkQueueItem 1 TaskQueue.Returns 0) s)
    as ((_ & Hq & _) & _ & Hex & _).
  - right. split; [reflexivity|]. right. exists TaskQueue.Waiting.
    split_and!; [reflexivity|discriminate|reflexivity].
  - reflexivity.
  - split; [exact Hq|].
    destruct Hex as (taken & Hin & Hle & Hst & _).
    { split_and!; [reflexivity|discriminate|by vm_compute]. }
    exists taken. split; [|exact Hst].
    assert (TaskQueue.priority taken ≤ 2)%Z as Hup.
    { vm_compute in Hin.
      repeat (apply elem_of_cons in Hin as [->|Hin]; [by vm_compute|]).
      by apply elem_of_nil in Hin. }
    assert (2 ≤ TaskQueue.priority taken)%Z as Hlow.
    { apply (Hle (TaskQueue.mkQueueItem 2 TaskQueue.Returns 2)).
      vm_compute. apply list_elem_of_further, list_elem_of_here. }
    lia.
Defined.

(** *** AsyncScheduler *)
Module AsyncMoreFacts.
Import Async.

Lemma queue_of_set_queue_ne ty ty' q s :
  ty ≠ ty' → queue_of ty (set_queue ty' q s) = queue_of ty s.
Proof. by destruct ty, ty'. Qed.

Lemma filter_all (P : Task → Prop) `{!∀ x, Decision (P x)} (l : list Task) :
  Forall P l → filter P l = l.
Proof.
  induction 1 as [|x l Hx _ IH]; [done|].
  by rewrite filter_cons, decide_True, IH.
Qed.

Lemma pick_next_perm q t q' :
  pick_next q = Some (t, q') → q ≡ₚ t :: q'.
Proof.
  destruct q as [|front rest]; [done|]. unfold pick_next.
  destruct (erase_first_high (front :: rest)) as [[h r]|] eqn:He.
  - intros [= <- <-].
    apply AsyncFacts.erase_first_high_Some in He as (l1 & l2 & -> & -> & _).
    by rewrite Permutation_middle.
  - by intros [= <- <-].
Qed.

Lemma dispatch_order_fuel_elem n q t :
  t ∈ dispatch_order_fuel n q → t ∈ q.
Proof.
  revert q. induction n as [|n IH]; intros q; simpl.
  - intros Hin. by apply elem_of_nil in Hin.
  - destruct (pick_next q) as [[u q']|] eqn:Hp.
    + apply pick_next_perm in Hp. rewrite Hp.
      intros [->|Hin]%elem_of_cons.
      * apply list_elem_of_here.
      * apply list_elem_of_further. by apply IH.
    + intros Hin. by apply elem_of_nil in Hin.
Qed.

Lemma queues_typed_new : queues_typed AsyncScheduler_new.
Proof. intros [] t Hin; by apply elem_of_nil in Hin. Qed.

Lemma queues_typed_set_tasks m s :
  queues_typed s → queues_typed (set_tasks m s).
Proof. intros H ty t Hin. apply (H ty). by destruct ty. Qed.

Lemma queues_typed_set_queue ty q s :
  queues_typed s → (∀ t, t ∈ q → getType t = ty) →
  queues_typed (set_queue ty q s).
Proof.
  intros H Hq ty' t. destruct (decide (ty' = ty)) as [->|Hne].
  - rewrite AsyncFacts.queue_of_set_queue. apply Hq.
  - rewrite queue_of_set_queue_ne by done. apply H.
Qed.

Lemma queues_typed_submitTask task s :
  queues_typed s → queues_typed (submitTask task s).2.
Proof.
  intros H. destruct task as [t|]; [|done]. simpl.
  apply queues_typed_set_queue; [by apply queues_typed_set_tasks|].
  intros u [Hu|Hu]%elem_of_app.
  - eapply (queues_typed_set_tasks _ _ H). exact Hu.
  - apply list_elem_of_singleton in Hu. by subst.
Qed.

Lemma queues_typed_cancelTask task_id s :
  queues_typed s → queues_typed (cancelTask task_id s).2.
Proof.
  intros H. unfold cancelTask.
  destruct (tasks_ s !! task_id) as [t|]; [|done]. simpl.
  apply queues_typed_set_tasks, queues_typed_set_queue; [done|].
  intros u Hu. apply list_elem_of_filter in Hu as [_ Hu]. by apply H.
Qed.

Lemma queues_typed_worker_fetch worker_type s :
  queues_typed s →
  queues_typed (worker_fetch worker_type s).2
  ∧ ∀ t, (worker_fetch worker_type s).1 = Some t → getType t = worker_type.
Proof.
  intros H. unfold worker_fetch.
  destruct (pick_next (queue_of worker_type s)) as [[t q']|] eqn:Hp;
    [|by split].
  apply pick_next_perm in Hp. simpl. split.
  - apply queues_typed_set_queue; [done|]. intros u Hu.
    apply H. rewrite Hp. by apply list_elem_of_further.
  - intros u [= <-]. apply H. rewrite Hp. apply list_elem_of_here.
Qed.

Lemma queues_typed_worker_execute execute t s :
  queues_typed s → queues_typed (worker_execute execute t s).
Proof. intros H ty u Hin. apply (H ty). by destruct ty. Qed.

Lemma queues_typed_exec execute c a :
  queues_typed (sched c) ∧ Forall (λ e, getType e.2 = e.1) (held c) →
  queues_typed (sched (exec execute c a))
  ∧ Forall (λ e, getType e.2 = e.1) (held (exec execute c a)).
Proof.
  intros [Hq Hh]. destruct a as [g n|task|task_id|wt|i|late]; simpl.
  - split; [|done]. unfold start. destruct (running_ (sched c)); [done|].
    intros ty u Hin. apply (Hq ty). by destruct ty.
  - split; [|done]. by apply queues_typed_submitTask.
  - split; [|done]. by apply queues_typed_cancelTask.
  - destruct (_ && _); [|done]. unfold fetch_step.
    destruct (queues_typed_worker_fetch wt _ Hq) as [Hq' Ht].
    destruct (worker_fetch wt (sched c)) as [[t|] s1]; simpl in *; [|done].
    split; [done|]. apply Forall_app. split; [done|].
    constructor; [|done]. by apply Ht.
  - unfold execute_step.
    destruct (held c !! i) as [[wt t]|] eqn:Hi; simpl; [|done].
    split; [by apply queues_typed_worker_execute|].
    apply Forall_forall. intros e He.
    apply list_elem_of_delete_inv in He.
    by apply (proj1 (Forall_forall _ _) Hh).
  - unfold stop_and_join. destruct (running_ (sched c)) eqn:Hr; [|done].
    cbv zeta. simpl. split; [|done].
    set (c1 := late_work _ _ _ _).
    destruct (AsyncFacts.stop_running execute (held c1) (sched c1))
      as (_ & Hl & Ht & Hi & _).
    { subst c1. by rewrite AsyncFacts.late_work_running. }
    intros [] u Hu; simpl in Hu; rewrite ?Hl, ?Ht, ?Hi in Hu;
      by apply elem_of_nil in Hu.
Qed.

Lemma queues_typed_run execute acts c :
  queues_typed (sched c) ∧ Forall (λ e, getType e.2 = e.1) (held c) →
  queues_typed (sched (run execute c acts))
  ∧ Forall (λ e, getType e.2 = e.1) (held (run execute c acts)).
Proof.
  revert c. induction acts as [|a acts IH]; intros c H; [done|].
  simpl. by apply IH, queues_typed_exec.
Qed.

End AsyncMoreFacts.

(** AsyncScheduler: submitting a task whose id is not in use and then
    cancelling that id restores the scheduler exactly: cancelTask returns
    true and [tasks_] and all queues are as before the submission. *)
Theorem async_submit_then_cancel_restores t s :
  Async.tasks_ s !! Async.getId t = None →
  Forall (λ u, Async.getId u ≠ Async.getId t)
         (Async.queue_of (Async.getType t) s) →
  Async.cancelTask (Async.getId t) (Async.submitTask (Some t) s).2
  = (true, s).
Proof.
  intros Habs Hq.
  destruct s as [rn m lq tq iq gw cw tr], t as [ty pr id nm cb].
  unfold Async.getId, Async.getType in *. simpl in *.
  assert (∀ q : list Async.Task,
            Forall (λ u, Async.id_ u ≠ id) q →
            filter (λ u, Async.id_ u ≠ id)
                   (q ++ [Async.mkTask ty pr id nm cb]) = q) as Hfilter.
  { intros q Hall. rewrite filter_app, (AsyncMoreFacts.filter_all _ _ Hall).
    rewrite filter_cons, decide_False, filter_nil, app_nil_r; [done|].
    simpl. tauto. }
  unfold Async.cancelTask, Async.submitTask, Async.getId, Async.getType.
  destruct ty; simpl in *; rewrite lookup_insert_eq; simpl;
    rewrite (Hfilter _ Hq), delete_insert_id by done; done.
Qed.

Lemma async_submit_then_cancel_witness :
  let t := (Async.Task_new Async.TTS_CPU Async.LOW "d" 3).1 in
  Async.cancelTask (Async.getId t)
    (Async.submitTask (Some t) Scenarios.s2_scheduler).2
  = (true, Scenarios.s2_scheduler).
Proof.
  intros t. apply async_submit_then_cancel_restores.
  - by vm_compute.
  - vm_compute. repeat constructor; discriminate.
Defined.

(** AsyncScheduler: a task that is cancelled while it waits in the queue
    of its type is not started afterwards: no worker thread of that type
    fetches a task with the cancelled id from the resulting state. *)
Theorem async_cancelled_task_not_fetched task_id t s n u :
  Async.tasks_ s !! task_id = Some t →
  u ∈ Async.fetch_sequence n (Async.getType t)
        (Async.cancelTask task_id s).2 →
  Async.getId u ≠ task_id.
Proof.
  intros Ht. unfold Async.cancelTask. rewrite Ht. cbn [snd].
  rewrite AsyncFacts.fetch_sequence_dispatch.
  intros Hu%AsyncMoreFacts.dispatch_order_fuel_elem. revert Hu.
  assert (Async.queue_of (Async.getType t)
            (Async.set_tasks (delete task_id (Async.tasks_ s))
               (Async.set_queue (Async.getType t)
                  (filter (λ u0, Async.getId u0 ≠ task_id)
                     (Async.queue_of (Async.getType t) s)) s))
          = filter (λ u0, Async.getId u0 ≠ task_id)
              (Async.queue_of (Async.getType t) s)) as ->.
  { rewrite <-(AsyncFacts.queue_of_set_queue (Async.getType t)
                 (filter _ _) s) at 2.
    by destruct (Async.getType t). }
  intros Hu. by apply list_elem_of_filter in Hu as [Hu _].
Qed.

Lemma async_cancelled_task_not_fetched_witness :
  Async.mkTask Async.TTS_CPU Async.LOW 0 "a" false
    ∈ Async.fetch_sequence 3 Async.TTS_CPU
        (Async.cancelTask 1 Scenarios.s2_scheduler).2
  ∧ Async.getId (Async.mkTask Async.TTS_CPU Async.LOW 0 "a" false) ≠ 1.
Proof.
  assert (Async.mkTask Async.TTS_CPU Async.LOW 0 "a" false
            ∈ Async.fetch_sequence 3 Async.TTS_CPU
                (Async.cancelTask 1 Scenarios.s2_scheduler).2) as Hin.
  { vm_compute. apply list_elem_of_here. }
  split; [done|].
  apply (async_cancelled_task_not_fetched 1
           (Async.mkTask Async.TTS_CPU Async.HIGH 1 "b" false)
           Scenarios.s2_scheduler 3
           (Async.mkTask Async.TTS_CPU Async.LOW 0 "a" false));
    [by vm_compute|done].
Defined.

(** AsyncScheduler: a worker thread takes tasks of its own type only.  In
    every state reached from a new scheduler, each task held by a worker
    thread has the type that the thread serves, and so has every task in
    a class queue. *)
Theorem async_threads_take_own_type execute acts :
  let c := Async.run execute
             (Async.mkConfig Async.AsyncScheduler_new []) acts in
  (∀ worker_type t, (worker_type, t) ∈ Async.held c →
                    Async.getType t = worker_type)
  ∧ (∀ ty t, t ∈ Async.queue_of ty (Async.sched c) → Async.getType t = ty).
Proof.
  intros c.
  destruct (AsyncMoreFacts.queues_typed_run execute acts
              (Async.mkConfig Async.AsyncScheduler_new []))
    as [Hq Hh].
  { split; [apply AsyncMoreFacts.queues_typed_new|constructor]. }
  split; [|exact Hq].
  intros worker_type t Hin.
  apply (proj1 (Forall_forall _ _) Hh (worker_type, t) Hin).
Qed.

(** AsyncScheduler: the locked block of a worker thread takes exactly one
    task out of the queue of its type and touches nothing else: the other
    tasks of that queue, the other queues and [tasks_] are unchanged; on
    an empty queue it changes nothing. *)
Theorem async_fetch_takes_one worker_type s :
  match Async.worker_fetch worker_type s with
  | (Some t, s') =>
      Async.queue_of worker_type s ≡ₚ t :: Async.queue_of worker_type s'
      ∧ Async.tasks_ s' = Async.tasks_ s
      ∧ Async.trace s' = Async.trace s
      ∧ ∀ ty, ty ≠ worker_type → Async.queue_of ty s' = Async.queue_of ty s
  | (None, s') => Async.queue_of worker_type s = [] ∧ s' = s
  end.
Proof.
  unfold Async.worker_fetch.
  destruct (Async.pick_next (Async.queue_of worker_type s))
    as [[t q']|] eqn:Hp.
  - apply AsyncMoreFacts.pick_next_perm in Hp.
    rewrite AsyncFacts.queue_of_set_queue, AsyncFacts.tasks_set_queue.
    split_and!; [done|done|by destruct worker_type|].
    intros ty Hne. by apply AsyncMoreFacts.queue_of_set_queue_ne.
  - split; [|done]. unfold Async.pick_next in Hp.
    destruct (Async.queue_of worker_type s) as [|front rest]; [done|].
    by destruct (Async.erase_first_high (front :: rest)).
Qed.

(** AsyncScheduler: when nothing is submitted or cancelled meanwhile, a
    worker thread that keeps fetching starts every task of its queue
    exactly once. *)
Theorem async_drain_starts_each_task_once n worker_type s :
  (length (Async.queue_of worker_type s) ≤ n)%nat →
  Async.fetch_sequence n worker_type s ≡ₚ Async.queue_of worker_type s.
Proof.
  intros Hn. rewrite AsyncFacts.fetch_sequence_dispatch.
  rewrite AsyncFacts.dispatch_order_fuel_partition by done.
  apply filter_app_complement.
Qed.

Lemma async_drain_witness :
  Async.fetch_sequence 3 Async.TTS_CPU Scenarios.s2_scheduler
  ≡ₚ Async.queue_of Async.TTS_CPU Scenarios.s2_scheduler.
Proof.
  apply async_drain_starts_each_task_once. vm_compute. lia.
Defined.

(** AsyncScheduler: once a worker thread is through with a task, whether
    [execute] returned or threw, the id is gone from [tasks_]: a later
    cancelTask of that id returns false and changes nothing. *)
Theorem async_cancel_after_execution_fails execute t s :
  Async.cancelTask (Async.getId t) (Async.worker_execute execute t s)
  = (false, Async.worker_execute execute t s).
Proof.
  unfold Async.cancelTask, Async.worker_execute. simpl.
  by rewrite lookup_delete_eq.
Qed.

(** AsyncScheduler: submitTask does not look at [running_].  A task
    submitted after stop is accepted like any other (its id is returned
    and it is queued), but no worker thread is left: unless the scheduler
    is started again or the task is cancelled, it stays in its queue and
    nothing is executed, whatever else happens. *)
Theorem async_submit_after_stop_is_stranded execute t s acts :
  Async.running_ s = true →
  Forall (λ a, Async.starts_or_cancels a = false) acts →
  let s1 := (Async.submitTask (Some t) (Async.stop s)).2 in
  let c := Async.run execute (Async.mkConfig s1 []) acts in
  (Async.submitTask (Some t) (Async.stop s)).1 = Async.getId t
  ∧ t ∈ Async.queue_of (Async.getType t) (Async.sched c)
  ∧ Async.held c = []
  ∧ Async.trace (Async.sched c) = Async.trace s.
Proof.
  intros Hrun Hall s1 c. split; [done|].
  assert (Async.running_ s1 = false ∧ t ∈ Async.queue_of (Async.getType t) s1
          ∧ Async.trace s1 = Async.trace s) as Hs1.
  { subst s1. unfold Async.stop. rewrite Hrun. simpl.
    destruct (Async.getType t) eqn:Ht; rewrite ?Ht; simpl;
      split_and!; try done; apply list_elem_of_here. }
  subst c. revert Hs1. generalize s1. clear s1.
  induction acts as [|a acts IH]; intros s1 (Hr & Hq & Htr); [done|].
  apply Forall_cons in Hall as [Ha Hall]. simpl.
  destruct a as [g n|task|task_id|wt|i|late]; try done; simpl.
  - apply IH; [done|]. destruct task as [u|]; [|done]. simpl.
    destruct s1 as [rn m lq tq iq gw cw tr]. simpl in *.
    destruct (Async.getType u) eqn:Hu, (Async.getType t) eqn:Ht;
      simpl; split_and!; try done; apply elem_of_app; by left.
  - rewrite Hr. simpl. by apply IH.
  - unfold Async.execute_step. simpl. by apply IH.
  - unfold Async.stop_and_join. simpl. rewrite Hr. by apply IH.
Qed.

Lemma async_submit_after_stop_witness :
  let s1 := (Async.submitTask (Some Scenarios.llm_task)
               (Async.stop Scenarios.llm_submitted)).2 in
  let c := Async.run Scenarios.execute_ok (Async.mkConfig s1 [])
             [Async.DoFetch Async.LLM_GPU; Async.DoExecute 0] in
  (Async.submitTask (Some Scenarios.llm_task)
     (Async.stop Scenarios.llm_submitted)).1
  = Async.getId Scenarios.llm_task
  ∧ Scenarios.llm_task
    ∈ Async.queue_of (Async.getType Scenarios.llm_task) (Async.sched c)
  ∧ Async.held c = []
  ∧ Async.trace (Async.sched c) = Async.trace Scenarios.llm_submitted.
Proof.
  apply (async_submit_after_stop_is_stranded Scenarios.execute_ok
           Scenarios.llm_task Scenarios.llm_submitted
           [Async.DoFetch Async.LLM_GPU; Async.DoExecute 0]).
  - reflexivity.
  - repeat constructor.
Defined.

(** *** ResourceIsolationScheduler *)
Module RISMoreFacts.
Import RIS Invariants RISFacts.

Lemma objects_stable_refl s : objects_stable s s.
Proof. intros p t Hp. eauto. Qed.

Lemma objects_stable_trans s1 s2 s3 :
  objects_stable s1 s2 → objects_stable s2 s3 → objects_stable s1 s3.
Proof.
  intros H12 H23 p t Hp.
  destruct (H12 p t Hp) as (t2 & Hp2 & E1 & E2 & E3).
  destruct (H23 p t2 Hp2) as (t3 & Hp3 & F1 & F2 & F3).
  exists t3. split_and!; congruence.
Qed.

Lemma objects_stable_same s s' :
  task_objects s' = task_objects s → objects_stable s s'.
Proof. intros Ho p t Hp. rewrite Ho. eauto. Qed.

(** A step that touches one task object and keeps what identifies it. *)
Lemma objects_stable_touched task s s' :
  touches task s s' →
  (∀ t, task_objects s !! task = Some t →
        ∃ t', task_objects s' !! task = Some t'
              ∧ taskId_ t' = taskId_ t ∧ type_ t' = type_ t
              ∧ priority_ t' = priority_ t) →
  objects_stable s s'.
Proof.
  intros [Hother _] Hsame p t Hp.
  destruct (decide (p = task)) as [->|Hne]; [by apply Hsame|].
  rewrite (Hother p Hne). eauto.
Qed.

Lemma workers_stable_refl s : workers_stable s s.
Proof. intros w wo Hw. by exists wo. Qed.

Lemma workers_stable_trans s1 s2 s3 :
  workers_stable s1 s2 → workers_stable s2 s3 → workers_stable s1 s3.
Proof.
  intros H12 H23 w wo Hw.
  destruct (H12 w wo Hw) as (w2 & Hw2 & E1 & E2 & E3).
  destruct (H23 w w2 Hw2) as (w3 & Hw3 & F1 & F2 & F3).
  exists w3. split_and!; congruence.
Qed.

Lemma workers_stable_frame s s' : frame s s' → workers_stable s s'.
Proof. intros [] w wo Hw. rewrite fr_worker_objects0. by exists wo. Qed.

Lemma store_status_identity task st s t :
  task_objects s !! task = Some t →
  task_objects (store_status task st s) !! task = Some (setStatus st t).
Proof.
  intros Ht. split_sched s. unfold store_status. simpl in *.
  by rewrite lookup_alter_eq, Ht.
Qed.

Section WithWorkers.
Variable processTask : Worker -> Task -> Processed.

Lemma run_worker_identity prefix w task s t :
  task_objects s !! task = Some t →
  ∃ t', task_objects (run_worker processTask prefix w task s) !! task
        = Some t'
        ∧ taskId_ t' = taskId_ t ∧ type_ t' = type_ t
        ∧ priority_ t' = priority_ t.
Proof.
  intros Ht. unfold run_worker.
  destruct (worker_objects s !! w) as [wo|]; [|eauto].
  rewrite Ht.
  destruct (processTask wo t) as [st res ex [[what|]|]];
    split_sched s; unfold store_status; simpl in *; try destruct st;
    simpl; rewrite ?lookup_alter_eq, lookup_insert_eq; simpl; eauto.
Qed.

Lemma objects_stable_run_worker prefix w task s :
  objects_stable s (run_worker processTask prefix w task s).
Proof.
  eapply objects_stable_touched; [apply touches_run_worker|].
  apply run_worker_identity.
Qed.

Lemma same_erase_if_finished task s :
  task_objects (erase_if_finished task s) = task_objects s
  ∧ trace (erase_if_finished task s) = trace s
  ∧ (∀ ty, queue_of ty (erase_if_finished task s) = queue_of ty s)
  ∧ totalTasks_ (erase_if_finished task s) = totalTasks_ s
  ∧ completedTasks_ (erase_if_finished task s) = completedTasks_ s
  ∧ failedTasks_ (erase_if_finished task s) = failedTasks_ s.
Proof.
  unfold erase_if_finished, erase_task_id.
  destruct (getStatus s task) as [[]|]; try done;
    destruct (getTaskId s task); try done;
    split_sched s; split_and!; try done; by intros [].
Qed.

Lemma objects_stable_dispatch_run task ty s :
  objects_stable s (dispatch_run processTask task ty s).
Proof.
  unfold dispatch_run.
  set (s1 := match selectWorker ty s with Some _ => _ | None => _ end).
  assert (objects_stable s s1) as H1.
  { subst s1. destruct (selectWorker ty s);
      [apply objects_stable_run_worker|].
    apply objects_stable_same. destruct ty; by split_sched s. }
  destruct (terminated s1); [done|].
  eapply objects_stable_trans; [done|].
  apply objects_stable_same, same_erase_if_finished.
Qed.

Lemma objects_stable_image s :
  objects_stable s (processImageGenerationQueue processTask s).
Proof.
  unfold processImageGenerationQueue.
  destruct (imageTaskQueue_ s) as [|task rest]; [apply objects_stable_refl|].
  set (s1 := set_queue IMAGE_GENERATION rest s).
  assert (objects_stable s s1) as H1
    by (apply objects_stable_same; subst s1; by split_sched s).
  destruct (_ || _); [done|].
  set (s2 := match select_image_worker s1 with Some _ => _ | None => _ end).
  assert (objects_stable s1 s2) as H2.
  { subst s2. destruct (select_image_worker s1);
      [apply objects_stable_run_worker|].
    apply objects_stable_same. by split_sched s1. }
  destruct (terminated s2); [by eapply objects_stable_trans|].
  eapply objects_stable_trans; [by eapply objects_stable_trans|].
  apply objects_stable_same, same_erase_if_finished.
Qed.

Lemma objects_stable_finish_all l acc :
  objects_stable acc (foldl (finish_one processTask) acc l).
Proof.
  revert acc. induction l as [|[task ty] l IH]; intros acc;
    [apply objects_stable_refl|].
  simpl. eapply objects_stable_trans; [|apply IH].
  destruct (terminated acc);
    [apply objects_stable_refl|apply objects_stable_dispatch_run].
Qed.

Lemma objects_stable_join_step acc step :
  objects_stable acc (join_step processTask acc step).
Proof.
  unfold join_step. destruct (terminated acc); [apply objects_stable_refl|].
  destruct step as [|i| |w b].
  - pose proof (same_dispatch_fetch acc) as [Ho _].
    destruct (dispatch_fetch acc) as [[|task0|task ty] s1]; simpl in *;
      try by apply objects_stable_same.
    apply objects_stable_same. rewrite <-Ho. by split_sched s1.
  - destruct (in_flight acc !! i) as [[task ty]|];
      [|apply objects_stable_refl].
    eapply objects_stable_trans; [|apply objects_stable_dispatch_run].
    apply objects_stable_same. by split_sched acc.
  - apply objects_stable_image.
  - apply objects_stable_same. by split_sched acc.
Qed.

Lemma objects_stable_shutdown steps s :
  objects_stable s (shutdown processTask steps s).
Proof.
  unfold shutdown. destruct (initialized_ s); [|apply objects_stable_refl].
  set (s0 := set_threads _ _ _ _ s).
  assert (objects_stable s s0) as H0
    by (apply objects_stable_same; subst s0; by split_sched s).
  assert (objects_stable s (late_work processTask steps s0)) as H1.
  { apply (late_work_ind processTask (objects_stable s)); [|done].
    intros acc step Hacc. eapply objects_stable_trans; [done|].
    apply objects_stable_join_step. }
  revert H1. generalize (late_work processTask steps s0). intros s1 H1.
  rewrite join_threads_unfold.
  assert (objects_stable s1 (set_in_flight [] s1)) as H1'
    by (apply objects_stable_same; by split_sched s1).
  pose proof (objects_stable_finish_all (in_flight s1) (set_in_flight [] s1))
    as H2.
  assert (objects_stable s
            (foldl (finish_one processTask) (set_in_flight [] s1)
               (in_flight s1))) as H3.
  { eapply objects_stable_trans; [done|]. by eapply objects_stable_trans. }
  revert H3. generalize (foldl (finish_one processTask)
                           (set_in_flight [] s1) (in_flight s1)).
  intros s2 H3. destruct (terminated s2); [done|].
  eapply objects_stable_trans; [done|].
  apply objects_stable_same. by split_sched s2.
Qed.

Lemma objects_stable_submitTask ty pr now s :
  objects_stable s (submitTask ty pr now s).2.
Proof.
  intros p t Hp. exists t.
  assert (p ≠ fresh (dom (task_objects s))) as Hne.
  { intros ->. apply (is_fresh (dom (task_objects s))).
    apply elem_of_dom. eauto. }
  split; [|done]. unfold submitTask. split_sched s.
  destruct ty; simpl in *; by rewrite lookup_insert_ne.
Qed.

Lemma objects_stable_cancelTask id s :
  objects_stable s (cancelTask id s).2.
Proof.
  unfold cancelTask. destruct (tasks_ s !! id) as [task|];
    [|apply objects_stable_refl].
  case_bool_decide; [|apply objects_stable_refl]. simpl.
  intros p t Hp. destruct (decide (p = task)) as [->|Hne].
  - exists (setStatus CANCELLED t). split; [|done].
    pose proof (store_status_identity task CANCELLED s t Hp) as Hs.
    revert Hs. generalize (store_status task CANCELLED s).
    intros s0. by split_sched s0.
  - exists t. split; [|done]. split_sched s. unfold store_status. simpl in *.
    by rewrite lookup_alter_ne.
Qed.

Lemma objects_stable_exec s a :
  objects_stable s (exec processTask s a).
Proof.
  pose proof (objects_stable_join_step s) as Hstep.
  unfold join_step in Hstep.
  unfold exec. destruct (terminated s); [apply objects_stable_refl|].
  destruct a as [n|w|ty pr now|id| |i| |steps|w b].
  - apply objects_stable_same. unfold initialize.
    destruct (initialized_ s); [done|]. by split_sched s.
  - apply objects_stable_same. unfold addWorker.
    destruct w as [w|]; [|done].
    destruct (worker_objects s !! w) as [wo|]; [|done].
    destruct (initialize_throws wo); [by split_sched s|].
    destruct (canHandle wo LLM_INFERENCE || canHandle wo IMAGE_GENERATION);
      [|destruct (canHandle wo TTS_SYNTHESIS)]; by split_sched s.
  - apply objects_stable_submitTask.
  - apply objects_stable_cancelTask.
  - destruct (running_ s && _); [|apply objects_stable_refl].
    apply (Hstep JoinFetch).
  - apply (Hstep (JoinResume i)).
  - destruct (running_ s && imageQueueThread_ s);
      [apply objects_stable_image|apply objects_stable_refl].
  - apply objects_stable_shutdown.
  - apply objects_stable_same. by split_sched s.
Qed.

(** **** The worker pools *)

Lemma registry_sound_frame s s' :
  frame s s' → registry_sound s → registry_sound s'.
Proof.
  intros [] (Hg & Hc & Hl). split_and!.
  - intros w. rewrite fr_gpu0, fr_workers0, fr_worker_objects0. apply Hg.
  - intros w. rewrite fr_cpu0, fr_workers0, fr_worker_objects0. apply Hc.
  - intros l. rewrite fr_llm0, fr_gpu0, fr_worker_objects0. apply Hl.
Qed.

Lemma registry_sound_new ws :
  registry_sound (ResourceIsolationScheduler_new ws).
Proof.
  split_and!; simpl; try done; intros w Hw; by apply elem_of_nil in Hw.
Qed.

Lemma registry_sound_addWorker worker s :
  registry_sound s → registry_sound (addWorker worker s).2.
Proof.
  intros (Hg & Hc & Hl). unfold addWorker.
  destruct worker as [w|]; [|done].
  destruct (worker_objects s !! w) as [wo|] eqn:Hw; [|done].
  destruct (initialize_throws wo).
  { split_sched s. by split_and!. }
  destruct (canHandle wo LLM_INFERENCE || canHandle wo IMAGE_GENERATION)
    eqn:Hgpu; simpl.
  - split_sched s. simpl in *. split_and!; simpl.
    + intros w'. rewrite !elem_of_app, list_elem_of_singleton.
      intros [Hin| ->]; [|eauto 10].
      destruct (Hg w' Hin) as [? ?]. eauto.
    + intros w' Hin. destruct (Hc w' Hin) as [? ?].
      split; [apply elem_of_app; by left|done].
    + intros l. destruct lw as [l0|].
      * intros [= <-]. destruct (Hl l0 eq_refl) as [? ?].
        split; [apply elem_of_app; by left|done].
      * destruct (canHandle wo LLM_INFERENCE) eqn:Hllm; [|done].
        intros [= <-]. split; [apply elem_of_app; right; by constructor|].
        eauto.
  - apply orb_false_iff in Hgpu as [Hllm Himg].
    destruct (canHandle wo TTS_SYNTHESIS) eqn:Htts.
    + split_sched s. simpl in *. split_and!; simpl.
      * intros w' Hin. destruct (Hg w' Hin) as [? ?].
        split; [apply elem_of_app; by left|done].
      * intros w'. rewrite !elem_of_app, list_elem_of_singleton.
        intros [Hin| ->]; [|eauto 10].
        destruct (Hc w' Hin) as [? ?]. eauto.
      * done.
    + split_sched s. simpl in *. split_and!; simpl.
      * intros w' Hin. destruct (Hg w' Hin) as [? ?].
        split; [apply elem_of_app; by left|done].
      * intros w' Hin. destruct (Hc w' Hin) as [? ?].
        split; [apply elem_of_app; by left|done].
      * done.
Qed.

Lemma registry_sound_busy w b s :
  registry_sound s →
  registry_sound
    (set_worker_objects (alter (set_busy b) w (worker_objects s)) s).
Proof.
  intros (Hg & Hc & Hl).
  assert (∀ w' wo, worker_objects s !! w' = Some wo →
            ∃ wo', alter (set_busy b) w (worker_objects s) !! w' = Some wo'
                   ∧ ∀ ty, canHandle wo' ty = canHandle wo ty) as Halt.
  { intros w' wo Hw'. rewrite lookup_alter. case_decide as Hd.
    - subst. rewrite Hw'. simpl. eauto.
    - eauto. }
  split_sched s. simpl in *. split_and!; simpl.
  - intros w' Hin. destruct (Hg w' Hin) as (? & wo & Hw' & Hcap).
    split; [done|]. destruct (Halt _ _ Hw') as (wo' & -> & Hsame).
    exists wo'. by rewrite !Hsame.
  - intros w' Hin. destruct (Hc w' Hin) as (? & wo & Hw' & H1 & H2 & H3).
    split; [done|]. destruct (Halt _ _ Hw') as (wo' & -> & Hsame).
    exists wo'. by rewrite !Hsame.
  - intros l Hlw. destruct (Hl l Hlw) as (? & wo & Hw' & Hcap).
    split; [done|]. destruct (Halt _ _ Hw') as (wo' & -> & Hsame).
    exists wo'. by rewrite !Hsame.
Qed.

Lemma registry_sound_cleared s :
  gpuWorkers_ s = [] → cpuWorkers_ s = [] → llmWorker_ s = None →
  registry_sound s.
Proof.
  intros Hg Hc Hl. split_and!.
  - intros w. rewrite Hg. intros Hw. by apply elem_of_nil in Hw.
  - intros w. rewrite Hc. intros Hw. by apply elem_of_nil in Hw.
  - intros l. by rewrite Hl.
Qed.

Lemma registry_sound_join_step acc step :
  registry_sound acc → registry_sound (join_step processTask acc step).
Proof.
  intros Hinv. unfold join_step. destruct (terminated acc); [done|].
  destruct step as [|i| |w b].
  - pose proof (frame_dispatch_fetch acc) as Hf.
    destruct (dispatch_fetch acc) as [[|task0|task ty] s1]; simpl in Hf;
      try by eapply registry_sound_frame.
    apply (registry_sound_frame _ _ Hf) in Hinv.
    clear -Hinv. by split_sched s1.
  - destruct (in_flight acc !! i) as [[task ty]|]; [|done].
    eapply registry_sound_frame; [apply frame_dispatch_run|].
    clear -Hinv. by split_sched acc.
  - eapply registry_sound_frame;
      [apply frame_processImageGenerationQueue|done].
  - by apply registry_sound_busy.
Qed.

Lemma registry_sound_shutdown steps s :
  registry_sound s → registry_sound (shutdown processTask steps s).
Proof.
  intros Hinv. unfold shutdown. destruct (initialized_ s); [|done].
  set (s0 := set_threads _ _ _ _ s).
  assert (registry_sound s0) as H0 by (subst s0; by split_sched s).
  assert (registry_sound (late_work processTask steps s0)) as H1.
  { apply (late_work_ind processTask registry_sound); [|done].
    intros acc step. apply registry_sound_join_step. }
  revert H1. generalize (late_work processTask steps s0). intros s1 H1.
  rewrite join_threads_unfold.
  assert (registry_sound (set_in_flight [] s1)) as H1'
    by (clear -H1; by split_sched s1).
  assert (registry_sound (foldl (finish_one processTask)
                            (set_in_flight [] s1) (in_flight s1))) as H2
    by (eapply registry_sound_frame; [apply frame_finish_all|done]).
  destruct (terminated _); [done|].
  apply registry_sound_cleared;
    generalize (foldl (finish_one processTask) (set_in_flight [] s1)
                  (in_flight s1));
    intros s2; by split_sched s2.
Qed.

Lemma registry_sound_exec s a :
  registry_sound s → registry_sound (exec processTask s a).
Proof.
  intros Hinv.
  pose proof (λ step, registry_sound_join_step s step Hinv) as Hstep.
  unfold join_step in Hstep.
  unfold exec. destruct (terminated s); [done|].
  destruct a as [n|w|ty pr now|id| |i| |steps|w b].
  - unfold initialize. destruct (initialized_ s); [done|].
    by split_sched s.
  - by apply registry_sound_addWorker.
  - unfold submitTask. split_sched s. by destruct ty.
  - unfold cancelTask. destruct (tasks_ s !! id); [|done].
    case_bool_decide; [|done]. by split_sched s.
  - destruct (running_ s && _); [|done]. apply (Hstep JoinFetch).
  - apply (Hstep (JoinResume i)).
  - destruct (running_ s && imageQueueThread_ s); [|done].
    apply (Hstep JoinImage).
  - by apply registry_sound_shutdown.
  - by apply registry_sound_busy.
Qed.

(** Under the pool invariant a selected worker is registered, idle and
    able to handle the type it was selected for. *)
Lemma selectWorker_sound ty s w :
  registry_sound s →
  selectWorker ty s = Some w →
  w ∈ workers_ s
  ∧ ∃ wo, worker_objects s !! w = Some wo
          ∧ canHandle wo ty = true ∧ isBusy wo = false.
Proof.
  intros (Hg & Hc & Hl). unfold selectWorker.
  assert (∀ r, (if bool_decide (ty = TTS_SYNTHESIS)
                then find (idle_and_able s ty) (cpuWorkers_ s)
                else find (λ w, not_dedicated s w && idle_and_able s ty w)
                          (gpuWorkers_ s)) = r →
               r = Some w →
            w ∈ workers_ s
            ∧ ∃ wo, worker_objects s !! w = Some wo
                    ∧ canHandle wo ty = true ∧ isBusy wo = false) as Hrest.
  { intros r <-.
    assert (idle_and_able s ty w = true →
            ∃ wo, worker_objects s !! w = Some wo
                  ∧ canHandle wo ty = true ∧ isBusy wo = false) as Hable.
    { unfold idle_and_able. destruct (worker_objects s !! w) as [wo|]; [|done].
      intros [? ?%negb_true_iff]%andb_true_iff. eauto. }
    destruct (bool_decide (ty = TTS_SYNTHESIS)).
    - intros [Hin Ha]%find_some. apply list_elem_of_In in Hin.
      split; [by apply Hc|by apply Hable].
    - intros [Hin Ha]%find_some. apply list_elem_of_In in Hin.
      apply andb_true_iff in Ha as [_ Ha].
      split; [by apply Hg|by apply Hable]. }
  destruct (llmWorker_ s) as [l|] eqn:Hlw; [|by apply Hrest].
  destruct (bool_decide (ty = LLM_INFERENCE) && worker_idle s l) eqn:Hd;
    [|by apply Hrest].
  intros [= <-]. apply andb_true_iff in Hd as [Hty Hidle].
  apply bool_decide_eq_true in Hty. subst ty.
  destruct (Hl l eq_refl) as (Hin & wo & Hw & Hcap).
  split; [by apply Hg|]. exists wo. split_and!; [done|done|].
  unfold worker_idle in Hidle. rewrite Hw in Hidle.
  by apply negb_true_iff in Hidle.
Qed.

Lemma select_image_worker_sound s w :
  registry_sound s →
  select_image_worker s = Some w →
  w ∈ workers_ s
  ∧ ∃ wo, worker_objects s !! w = Some wo
          ∧ canHandle wo IMAGE_GENERATION = true ∧ isBusy wo = false.
Proof.
  intros (Hg & _ & _). unfold select_image_worker.
  intros [Hin Ha]%find_some. apply list_elem_of_In in Hin.
  apply andb_true_iff in Ha as [_ Ha]. split; [by apply Hg|].
  unfold idle_and_able in Ha.
  destruct (worker_objects s !! w) as [wo|]; [|done].
  apply andb_true_iff in Ha as [? ?%negb_true_iff]. eauto.
Qed.

(** **** Where queued tasks come from *)

Lemma queues_run_worker prefix w task s ty :
  queue_of ty (run_worker processTask prefix w task s) = queue_of ty s.
Proof.
  unfold run_worker.
  destruct (worker_objects s !! w) as [wo|]; [|done].
  destruct (task_objects s !! task) as [t|]; [|done].
  destruct (processTask wo t) as [st res ex [[what|]|]];
    split_sched s; simpl; try destruct st; by destruct ty.
Qed.

Lemma queues_dispatch_run task ty s ty' p :
  p ∈ queue_of ty' (dispatch_run processTask task ty s) →
  p ∈ queue_of ty' s ∨ (p = task ∧ ty' = ty).
Proof.
  unfold dispatch_run.
  set (s1 := match selectWorker ty s with Some _ => _ | None => _ end).
  assert (p ∈ queue_of ty' s1 →
          p ∈ queue_of ty' s ∨ (p = task ∧ ty' = ty)) as H1.
  { subst s1. destruct (selectWorker ty s).
    - rewrite queues_run_worker. by left.
    - destruct ty, ty'; split_sched s; simpl; try (by left);
        rewrite elem_of_app, list_elem_of_singleton;
        intros [?| ->]; eauto. }
  destruct (terminated s1); [done|].
  destruct (same_erase_if_finished task s1) as (_ & _ & Hq & _).
  by rewrite Hq.
Qed.

Lemma queues_check_cancelled task ty0 s ty :
  queue_of ty (check_cancelled task ty0 s).2 = queue_of ty s.
Proof.
  unfold check_cancelled, erase_task_id. case_bool_decide; simpl; [|done].
  destruct (getTaskId s task); [|done]. split_sched s. by destruct ty.
Qed.

Lemma queues_dispatch_fetch s ty p :
  p ∈ queue_of ty (dispatch_fetch s).2 → p ∈ queue_of ty s.
Proof.
  unfold dispatch_fetch.
  destruct (llmTaskQueue_ s) as [|t1 r1] eqn:Hl.
  - destruct (ttsTaskQueue_ s) as [|t2 r2] eqn:Ht; [done|].
    rewrite queues_check_cancelled.
    split_sched s; destruct ty; simpl in *; subst; try done.
    apply list_elem_of_further.
  - rewrite queues_check_cancelled.
    split_sched s; destruct ty; simpl in *; subst; try done.
    apply list_elem_of_further.
Qed.

Lemma queues_image s ty p :
  p ∈ queue_of ty (processImageGenerationQueue processTask s) →
  p ∈ queue_of ty s.
Proof.
  unfold processImageGenerationQueue.
  destruct (imageTaskQueue_ s) as [|task rest] eqn:Hq; [done|].
  set (s1 := set_queue IMAGE_GENERATION rest s).
  assert (∀ q, p ∈ queue_of ty (set_queue IMAGE_GENERATION q s) →
               (ty = IMAGE_GENERATION ∧ p ∈ q)
               ∨ (ty ≠ IMAGE_GENERATION ∧ p ∈ queue_of ty s)) as Hset.
  { intros q. split_sched s. destruct ty; simpl; eauto. }
  assert (∀ q, (∀ x, x ∈ q → x ∈ task :: rest) →
               p ∈ queue_of ty (set_queue IMAGE_GENERATION q s) →
               p ∈ queue_of ty s) as Hin.
  { intros q Hsub [[-> Hp]|[_ Hp]]%Hset; [|done].
    simpl. rewrite Hq. by apply Hsub. }
  assert (p ∈ queue_of ty s1 → p ∈ queue_of ty s) as H1.
  { apply Hin. intros x. apply list_elem_of_further. }
  destruct (_ || _); [done|].
  set (s2 := match select_image_worker s1 with Some _ => _ | None => _ end).
  assert (p ∈ queue_of ty s2 → p ∈ queue_of ty s) as H2.
  { subst s2. destruct (select_image_worker s1).
    - by rewrite queues_run_worker.
    - assert (set_queue IMAGE_GENERATION (imageTaskQueue_ s1 ++ [task]) s1
              = set_queue IMAGE_GENERATION (rest ++ [task]) s) as ->
        by (subst s1; by split_sched s).
      apply Hin. intros x [Hx|Hx]%elem_of_app.
      + by apply list_elem_of_further.
      + apply list_elem_of_singleton in Hx. subst. apply list_elem_of_here. }
  destruct (terminated s2); [done|].
  destruct (same_erase_if_finished task s2) as (_ & _ & Hq' & _).
  by rewrite Hq'.
Qed.

Lemma queues_finish_all l acc ty p :
  p ∈ queue_of ty (foldl (finish_one processTask) acc l) →
  p ∈ queue_of ty acc ∨ (p, ty) ∈ l.
Proof.
  revert acc. induction l as [|[task ty0] l IH]; intros acc; [by left|].
  simpl. intros [Hp|Hp]%IH; [|right; by apply list_elem_of_further].
  destruct (terminated acc); [by left|].
  apply queues_dispatch_run in Hp as [?|[-> ->]]; [by left|].
  right. apply list_elem_of_here.
Qed.

Lemma task_has_type_stable s s' ty p :
  objects_stable s s' → task_has_type s ty p → task_has_type s' ty p.
Proof.
  unfold task_has_type. intros Hst Hty.
  destruct (task_objects s !! p) as [t|] eqn:Hp; [|done].
  destruct (Hst p t Hp) as (t' & -> & _ & Ety & _). simpl in *. congruence.
Qed.

(** A step after which every queued task was queued before or comes from
    [extra], and the tasks in flight are among [flying]. *)
Lemma ris_queues_typed_step s s' (extra flying : list (nat * TaskType)) :
  queues_typed s →
  objects_stable s s' →
  (∀ ty p, p ∈ queue_of ty s' → p ∈ queue_of ty s ∨ (p, ty) ∈ extra) →
  (∀ p ty, (p, ty) ∈ extra → task_has_type s ty p) →
  (∀ e, e ∈ in_flight s' → e ∈ in_flight s ∨ e ∈ flying) →
  (∀ p ty, (p, ty) ∈ flying →
           task_has_type s ty p ∧ ty ≠ IMAGE_GENERATION) →
  queues_typed s'.
Proof.
  intros [Hq Hf] Hst Hqueues Hextra Hflight Hflying. split.
  - intros ty p [Hp|Hp]%Hqueues; eapply task_has_type_stable; eauto.
  - intros p ty [Hp|Hp]%Hflight.
    + destruct (Hf p ty Hp). split; [|done].
      by eapply task_has_type_stable.
    + destruct (Hflying p ty Hp). split; [|done].
      by eapply task_has_type_stable.
Qed.

Lemma ris_queues_typed_shrink s s' :
  queues_typed s →
  objects_stable s s' →
  (∀ ty p, p ∈ queue_of ty s' → p ∈ queue_of ty s) →
  (∀ e, e ∈ in_flight s' → e ∈ in_flight s) →
  queues_typed s'.
Proof.
  intros Hinv Hst Hq Hf.
  apply (ris_queues_typed_step s s' [] []); try done.
  - intros ty p Hp. left. by apply Hq.
  - intros p ty Hp. by apply elem_of_nil in Hp.
  - intros e He. left. by apply Hf.
  - intros p ty Hp. by apply elem_of_nil in Hp.
Qed.

Lemma ris_queues_typed_new ws : queues_typed (ResourceIsolationScheduler_new ws).
Proof.
  split.
  - intros [] p Hp; by apply elem_of_nil in Hp.
  - intros p ty Hp. by apply elem_of_nil in Hp.
Qed.

Lemma ris_queues_typed_same s s' :
  queues_typed s → objects_stable s s' →
  (∀ ty, queue_of ty s' = queue_of ty s) →
  in_flight s' = in_flight s → queues_typed s'.
Proof.
  intros Hinv Hst Hqs Hfl. apply (ris_queues_typed_shrink s s'); try done.
  - intros ty p. by rewrite Hqs.
  - intros e. by rewrite Hfl.
Qed.

Lemma ris_queues_typed_join_step s step :
  queues_typed s → queues_typed (join_step processTask s step).
Proof.
  intros Hinv. pose proof Hinv as [Hq Hf].
  pose proof (objects_stable_join_step s step) as Hst.
  revert Hst. unfold join_step. destruct (terminated s); [done|].
  destruct step as [|i| |w b]; intros Hst.
  - revert Hst.
    pose proof (queues_dispatch_fetch s) as Hqs.
    pose proof (fr_in_flight _ _ (frame_dispatch_fetch s)) as Hfl.
    destruct (dispatch_fetch s) as [[|task0|task ty] s1] eqn:Hd; simpl in *;
      intros Hst.
    + apply (ris_queues_typed_shrink s s1); try done. intros e. by rewrite Hfl.
    + apply (ris_queues_typed_shrink s s1); try done. intros e. by rewrite Hfl.
    + apply dispatch_fetch_Taken in Hd as [_ Hhead].
      assert (task ∈ queue_of ty s ∧ ty ≠ IMAGE_GENERATION) as [Hin Hty].
      { destruct ty; simpl.
        - destruct Hhead as [rest ->]. split; [apply list_elem_of_here|done].
        - destruct Hhead as [_ [rest ->]].
          split; [apply list_elem_of_here|done].
        - done. }
      apply (ris_queues_typed_step s _ [] [(task, ty)]); try done.
      * intros ty' p Hp. left. apply Hqs. revert Hp. clear.
        split_sched s1. by destruct ty'.
      * intros p ty' Hp. by apply elem_of_nil in Hp.
      * clear -Hfl. split_sched s1. simpl in *. subst.
        intros e [?|?]%elem_of_app; eauto.
      * intros p ty' Hp. apply list_elem_of_singleton in Hp.
        injection Hp as -> ->. split; [by apply Hq|done].
  - revert Hst. destruct (in_flight s !! i) as [[task ty]|] eqn:Hi; [|done].
    intros Hst.
    assert ((task, ty) ∈ in_flight s) as Hin
      by by eapply list_elem_of_lookup_2.
    set (s0 := set_in_flight (delete i (in_flight s)) s) in *.
    apply (ris_queues_typed_step s _ [(task, ty)] []); try done.
    + intros ty' p [Hp|[-> ->]]%queues_dispatch_run.
      * left. revert Hp. subst s0. clear. split_sched s. by destruct ty'.
      * right. apply list_elem_of_here.
    + intros p ty' Hp. apply list_elem_of_singleton in Hp.
      injection Hp as -> ->. by apply Hf.
    + intros e. rewrite (fr_in_flight _ _ (frame_dispatch_run _ _ _ _)).
      subst s0. intros He. left.
      assert (e ∈ delete i (in_flight s)) as He'
        by (revert He; clear; by split_sched s).
      by eapply list_elem_of_delete_inv.
    + intros p ty' Hp. by apply elem_of_nil in Hp.
  - apply (ris_queues_typed_shrink s _); try done.
    + intros ty p Hp. by eapply queues_image.
    + intros e.
      by rewrite (fr_in_flight _ _ (frame_processImageGenerationQueue _ _)).
  - apply (ris_queues_typed_same s); [done|done| |]; by split_sched s.
Qed.

Lemma ris_queues_typed_join_threads s :
  queues_typed s → queues_typed (join_threads processTask s).
Proof.
  intros Hinv. pose proof Hinv as [Hq Hf].
  rewrite join_threads_unfold.
  pose proof (queues_finish_all (in_flight s) (set_in_flight [] s)) as Hqs.
  pose proof (fr_in_flight _ _
    (frame_finish_all processTask (in_flight s) (set_in_flight [] s)))
    as Hfl.
  assert (∀ ty, queue_of ty (set_in_flight [] s) = queue_of ty s) as Hq1
    by (intros ty; split_sched s; by destruct ty).
  assert (in_flight (set_in_flight [] s) = []) as Hf0 by (by split_sched s).
  rewrite Hf0 in Hfl.
  assert (objects_stable s
            (foldl (finish_one processTask) (set_in_flight [] s)
               (in_flight s))) as Hst.
  { eapply objects_stable_trans; [|apply objects_stable_finish_all].
    apply objects_stable_same. by split_sched s. }
  revert Hqs Hfl Hst.
  generalize (foldl (finish_one processTask) (set_in_flight [] s)
                (in_flight s)).
  intros s2 Hqs Hfl Hst.
  apply (ris_queues_typed_step s s2 (in_flight s) []); try done.
  - intros ty p [Hp|Hp]%Hqs; [left; by rewrite <-Hq1|by right].
  - intros p ty Hp. by apply Hf.
  - intros e. rewrite Hfl. intros He. by apply elem_of_nil in He.
  - intros p ty Hp. by apply elem_of_nil in Hp.
Qed.

Lemma ris_queues_typed_shutdown steps s :
  queues_typed s → queues_typed (shutdown processTask steps s).
Proof.
  intros Hinv. unfold shutdown. destruct (initialized_ s); [|done].
  set (s0 := set_threads _ _ _ _ s).
  assert (queues_typed s0) as H0.
  { apply (ris_queues_typed_same s); [done| | |].
    - apply objects_stable_same. subst s0. by split_sched s.
    - intros ty. subst s0. split_sched s. by destruct ty.
    - subst s0. by split_sched s. }
  assert (queues_typed (late_work processTask steps s0)) as H1.
  { apply (late_work_ind processTask queues_typed); [|done].
    intros acc step. apply ris_queues_typed_join_step. }
  apply ris_queues_typed_join_threads in H1.
  revert H1. generalize (join_threads processTask
                           (late_work processTask steps s0)).
  intros s2 H2. destruct (terminated s2); [done|].
  assert (in_flight s2 = in_flight s2) as _ by done.
  split.
  - intros ty p Hp. exfalso. revert Hp. clear. split_sched s2.
    destruct ty; simpl; apply not_elem_of_nil.
  - intros p ty Hp.
    assert ((p, ty) ∈ in_flight s2) as Hin
      by (revert Hp; clear; by split_sched s2).
    destruct H2 as [_ Hf2]. destruct (Hf2 p ty Hin) as [Hty Hne].
    split; [|done]. revert Hty. clear. unfold task_has_type.
    by split_sched s2.
Qed.

Lemma ris_queues_typed_exec s a :
  queues_typed s → queues_typed (exec processTask s a).
Proof.
  intros Hinv. pose proof Hinv as [Hq Hf].
  pose proof (λ step, ris_queues_typed_join_step s step Hinv) as Hstep.
  unfold join_step in Hstep.
  pose proof (objects_stable_exec s a) as Hst.
  revert Hst. unfold exec. destruct (terminated s); [done|].
  pose proof (λ s', ris_queues_typed_same s s' Hinv) as Hsame.
  destruct a as [n|w|ty pr now|id| |i| |steps|w b]; intros Hst.
  - apply Hsame; [done| |]; unfold initialize;
      destruct (initialized_ s); try done; by split_sched s.
  - apply Hsame; [done| |]; unfold addWorker;
      (destruct w as [w|]; [|done]);
      (destruct (worker_objects s !! w) as [wo|]; [|done]);
      (destruct (initialize_throws wo); [by split_sched s|]);
      (destruct (canHandle wo LLM_INFERENCE
                 || canHandle wo IMAGE_GENERATION);
         [|destruct (canHandle wo TTS_SYNTHESIS)]); by split_sched s.
  - set (p0 := fresh (dom (task_objects s))).
    split.
    + intros ty' p Hp.
      assert (p ∈ queue_of ty' s ∨ (p = p0 ∧ ty' = ty)) as [Hold|[-> ->]].
      { revert Hp. unfold submitTask. fold p0. split_sched s.
        destruct ty, ty'; simpl; try (by left);
          rewrite elem_of_app, list_elem_of_singleton;
          intros [?| ->]; eauto. }
      * eapply task_has_type_stable; [done|]. by apply Hq.
      * unfold task_has_type, submitTask. fold p0. split_sched s.
        destruct ty; simpl; by rewrite lookup_insert_eq.
    + intros p ty' Hp.
      assert ((p, ty') ∈ in_flight s) as Hold.
      { revert Hp. unfold submitTask. split_sched s. by destruct ty. }
      destruct (Hf p ty' Hold). split; [|done].
      by eapply task_has_type_stable.
  - apply Hsame; [done| |]; unfold cancelTask;
      (destruct (tasks_ s !! id); [|done]);
      (case_bool_decide; [|done]); by split_sched s.
  - destruct (running_ s && _); [|done]. apply (Hstep JoinFetch).
  - apply (Hstep (JoinResume i)).
  - destruct (running_ s && imageQueueThread_ s); [|done].
    apply (Hstep JoinImage).
  - by apply ris_queues_typed_shutdown.
  - apply (Hstep (JoinBusy w b)).
Qed.

(** **** The index *)

Lemma shutdown_tasks_shrink steps s :
  tasks_ (shutdown processTask steps s) ⊆ tasks_ s.
Proof. apply shutdown_tasks_subseteq. Qed.

Lemma exec_tasks_subseteq s a :
  is_submit a = false → tasks_ (exec processTask s a) ⊆ tasks_ s.
Proof.
  intros Hns. unfold exec. destruct (terminated s); [done|].
  destruct a as [n|w|ty pr now|id| |i| |steps|w b]; try done.
  - unfold initialize. destruct (initialized_ s); [done|].
    by split_sched s.
  - unfold addWorker. destruct w as [w|]; [|done].
    destruct (worker_objects s !! w) as [wo|]; [|done].
    destruct (initialize_throws wo); [by split_sched s|].
    destruct (canHandle wo LLM_INFERENCE || canHandle wo IMAGE_GENERATION);
      [|destruct (canHandle wo TTS_SYNTHESIS)]; by split_sched s.
  - unfold cancelTask. destruct (tasks_ s !! id) as [task'|]; [|done].
    case_bool_decide; [|done]. split_sched s. simpl. apply delete_subseteq.
  - destruct (running_ s && _); [|done].
    pose proof (fr_tasks _ _ (frame_dispatch_fetch s)) as Hf.
    destruct (dispatch_fetch s) as [[|task0|task' ty] s1]; simpl in *; try done.
    by split_sched s1.
  - destruct (in_flight s !! i) as [[task' ty]|]; [|done].
    etrans; [apply (fr_tasks _ _ (frame_dispatch_run _ _ _ _))|].
    by split_sched s.
  - destruct (running_ s && imageQueueThread_ s); [|done].
    apply (fr_tasks _ _ (frame_processImageGenerationQueue _ s)).
  - apply shutdown_tasks_shrink.
  - by split_sched s.
Qed.

Lemma index_consistent_exec s a :
  index_consistent s → index_consistent (exec processTask s a).
Proof.
  intros Hinv. pose proof (objects_stable_exec s a) as Hst.
  destruct (is_submit a) eqn:Hsub.
  - destruct a as [| |ty pr now| | | | | |]; try done.
    revert Hst. unfold exec. destruct (terminated s); [done|].
    intros Hst id p Hp.
    set (p0 := fresh (dom (task_objects s))).
    assert ((id = taskId_ (Task_new ty pr now) ∧ p = p0)
            ∨ tasks_ s !! id = Some p) as [[-> ->]|Hold].
    { revert Hp. unfold submitTask. fold p0. split_sched s.
      destruct ty; simpl; rewrite lookup_insert; case_decide;
        intros; simplify_eq; eauto. }
    + unfold submitTask. fold p0. split_sched s.
      destruct ty; simpl; by rewrite lookup_insert_eq.
    + specialize (Hinv id p Hold).
      destruct (task_objects s !! p) as [t|] eqn:Ht; [|done].
      destruct (Hst p t Ht) as (t' & -> & Eid & _). simpl in *. congruence.
  - intros id p Hp.
    pose proof (exec_tasks_subseteq s a Hsub) as Hsubset.
    assert (tasks_ s !! id = Some p) as Hold
      by by eapply lookup_weaken.
    specialize (Hinv id p Hold).
    destruct (task_objects s !! p) as [t|] eqn:Ht; [|done].
    destruct (Hst p t Ht) as (t' & -> & Eid & _). simpl in *. congruence.
Qed.

Lemma index_consistent_new ws :
  index_consistent (ResourceIsolationScheduler_new ws).
Proof. intros id p Hp. by simpl in Hp. Qed.

(** **** Worker calls *)

Lemma workers_stable_same s s' :
  worker_objects s' = worker_objects s → workers_stable s s'.
Proof. intros Hw w wo Hwo. rewrite Hw. by exists wo. Qed.

Lemma workers_stable_busy w b s :
  workers_stable s
    (set_worker_objects (alter (set_busy b) w (worker_objects s)) s).
Proof.
  intros w' wo Hw'. split_sched s. simpl in *. rewrite lookup_alter.
  case_decide as Hd; [|by exists wo]. subst. rewrite Hw'. simpl.
  by eexists.
Qed.

Lemma workers_stable_join_step s step :
  workers_stable s (join_step processTask s step).
Proof.
  unfold join_step. destruct (terminated s); [apply workers_stable_refl|].
  destruct step as [|i| |w b].
  - pose proof (fr_worker_objects _ _ (frame_dispatch_fetch s)) as Hf.
    apply workers_stable_same.
    destruct (dispatch_fetch s) as [[|task0|task' ty] s1]; simpl in *;
      try done.
    rewrite <-Hf. by split_sched s1.
  - destruct (in_flight s !! i) as [[task' ty]|];
      [|apply workers_stable_refl].
    apply workers_stable_same.
    rewrite (fr_worker_objects _ _ (frame_dispatch_run _ _ _ _)).
    by split_sched s.
  - apply workers_stable_frame, frame_processImageGenerationQueue.
  - apply workers_stable_busy.
Qed.

Lemma workers_stable_shutdown steps s :
  workers_stable s (shutdown processTask steps s).
Proof.
  unfold shutdown. destruct (initialized_ s); [|apply workers_stable_refl].
  set (s0 := set_threads _ _ _ _ s).
  assert (workers_stable s s0) as H0
    by (apply workers_stable_same; subst s0; by split_sched s).
  assert (workers_stable s (late_work processTask steps s0)) as H1.
  { apply (late_work_ind processTask (workers_stable s)); [|done].
    intros acc step Hacc. eapply workers_stable_trans; [done|].
    apply workers_stable_join_step. }
  revert H1. generalize (late_work processTask steps s0). intros s1 H1.
  rewrite join_threads_unfold.
  pose proof (fr_worker_objects _ _
    (frame_finish_all processTask (in_flight s1) (set_in_flight [] s1)))
    as Hf.
  assert (worker_objects (set_in_flight [] s1) = worker_objects s1) as Hw1
    by (by split_sched s1).
  rewrite Hw1 in Hf. revert Hf.
  generalize (foldl (finish_one processTask) (set_in_flight [] s1)
                (in_flight s1)).
  intros s2 Hf. eapply workers_stable_trans; [done|].
  apply workers_stable_same. destruct (terminated s2); [done|].
  rewrite <-Hf. by split_sched s2.
Qed.

Lemma workers_stable_exec s a : workers_stable s (exec processTask s a).
Proof.
  pose proof (workers_stable_join_step s) as Hstep.
  unfold join_step in Hstep.
  unfold exec. destruct (terminated s); [apply workers_stable_refl|].
  pose proof (workers_stable_same s) as Hsame.
  destruct a as [n|w|ty pr now|id| |i| |steps|w b].
  - apply Hsame. unfold initialize.
    destruct (initialized_ s); [done|]. by split_sched s.
  - apply Hsame. unfold addWorker. destruct w as [w|]; [|done].
    destruct (worker_objects s !! w) as [wo|]; [|done].
    destruct (initialize_throws wo); [by split_sched s|].
    destruct (canHandle wo LLM_INFERENCE || canHandle wo IMAGE_GENERATION);
      [|destruct (canHandle wo TTS_SYNTHESIS)]; by split_sched s.
  - apply Hsame. unfold submitTask. split_sched s. by destruct ty.
  - apply Hsame. unfold cancelTask. destruct (tasks_ s !! id); [|done].
    case_bool_decide; [|done]. by split_sched s.
  - destruct (running_ s && _); [|apply workers_stable_refl].
    apply (Hstep JoinFetch).
  - apply (Hstep (JoinResume i)).
  - destruct (running_ s && imageQueueThread_ s);
      [|apply workers_stable_refl].
    apply (Hstep JoinImage).
  - apply workers_stable_shutdown.
  - apply workers_stable_busy.
Qed.

Lemma call_ok_stable s s' w p :
  objects_stable s s' → workers_stable s s' →
  call_ok s w p → call_ok s' w p.
Proof.
  intros Ho Hw (wo & t & Hwo & Ht & Hcap).
  destruct (Hw w wo Hwo) as (wo' & Hwo' & Ecap & _).
  destruct (Ho p t Ht) as (t' & Ht' & _ & Ety & _).
  exists wo', t'. split_and!; [done|done|].
  unfold canHandle in *. by rewrite Ecap, Ety.
Qed.

(** The events that one call of [run_worker] adds. *)
Lemma run_worker_calls prefix w task s :
  trace (run_worker processTask prefix w task s) = trace s
  ∨ (trace (run_worker processTask prefix w task s)
     = trace s ++ [EvProcessTask w task]
     ∧ is_Some (task_objects s !! task)).
Proof.
  unfold run_worker.
  destruct (worker_objects s !! w) as [wo|]; [|by left].
  destruct (task_objects s !! task) as [t|]; [|by left].
  right. split; [|eauto].
  destruct (processTask wo t) as [st res ex [[what|]|]];
    split_sched s; simpl; try destruct st; done.
Qed.

Lemma task_has_type_same s s' ty p :
  task_objects s' = task_objects s →
  task_has_type s ty p → task_has_type s' ty p.
Proof. unfold task_has_type. by intros ->. Qed.

Lemma selectWorker_image s :
  selectWorker IMAGE_GENERATION s = select_image_worker s.
Proof.
  unfold selectWorker, select_image_worker.
  destruct (llmWorker_ s); by simpl.
Qed.

Lemma chosen_same s s' w p :
  worker_objects s' = worker_objects s → task_objects s' = task_objects s →
  gpuWorkers_ s' = gpuWorkers_ s → cpuWorkers_ s' = cpuWorkers_ s →
  llmWorker_ s' = llmWorker_ s →
  chosen s w p → chosen s' w p.
Proof.
  intros Hw Ho Hg Hc Hl (ty & Hty & Hsel). exists ty. split.
  - by apply (task_has_type_same s).
  - by rewrite (selectWorker_same ty s s').
Qed.

Lemma chosen_call_ok s w p : registry_sound s → chosen s w p → call_ok s w p.
Proof.
  intros Hreg (ty & Hty & Hsel).
  destruct (selectWorker_sound ty s w Hreg Hsel) as (_ & wo & Hwo & Hcap & _).
  unfold task_has_type in Hty.
  destruct (task_objects s !! p) as [t|] eqn:Ht; [|done].
  simpl in Hty. injection Hty as Ety. exists wo, t. by rewrite Ety.
Qed.

Lemma dispatch_run_calls task ty s :
  task_has_type s ty task →
  ∃ new, trace (dispatch_run processTask task ty s) = trace s ++ new
         ∧ ∀ w p, EvProcessTask w p ∈ new → chosen s w p.
Proof.
  intros Hty. unfold dispatch_run.
  set (s1 := match selectWorker ty s with Some _ => _ | None => _ end).
  assert (∃ new, trace s1 = trace s ++ new
                 ∧ ∀ w p, EvProcessTask w p ∈ new → chosen s w p)
    as (new & Hnew & Hok).
  { subst s1. destruct (selectWorker ty s) as [w|] eqn:Hsel.
    - destruct (run_worker_calls "Error processing task " w task s)
        as [Hsame|[Hadd _]].
      + exists []. rewrite app_nil_r. split; [done|].
        intros w' p Hin. by apply elem_of_nil in Hin.
      + exists [EvProcessTask w task]. split; [done|].
        intros w' p Hin. apply list_elem_of_singleton in Hin.
        injection Hin as -> ->. by exists ty.
    - exists []. rewrite app_nil_r. split; [destruct ty; by split_sched s|].
      intros w' p Hin. by apply elem_of_nil in Hin. }
  exists new. split; [|done].
  destruct (terminated s1); [done|].
  destruct (same_erase_if_finished task s1) as (_ & -> & _). done.
Qed.

Lemma image_calls s :
  (∀ p, p ∈ imageTaskQueue_ s → task_has_type s IMAGE_GENERATION p) →
  ∃ new, trace (processImageGenerationQueue processTask s) = trace s ++ new
         ∧ ∀ w p, EvProcessTask w p ∈ new → chosen s w p.
Proof.
  intros Hty. unfold processImageGenerationQueue.
  assert (∀ s', trace s' = trace s →
            ∃ new, trace s' = trace s ++ new
                   ∧ ∀ w p, EvProcessTask w p ∈ new → chosen s w p)
    as Hnone.
  { intros s' ->. exists []. rewrite app_nil_r. split; [done|].
    intros w p Hin. by apply elem_of_nil in Hin. }
  destruct (imageTaskQueue_ s) as [|task rest] eqn:Hq; [by apply Hnone|].
  set (s1 := set_queue IMAGE_GENERATION rest s).
  assert (trace s1 = trace s ∧ task_objects s1 = task_objects s
          ∧ worker_objects s1 = worker_objects s
          ∧ select_image_worker s1 = select_image_worker s)
    as (Et & Eo & Ew & Es) by (subst s1; by split_sched s).
  destruct (_ || _); [by apply Hnone|].
  set (s2 := match select_image_worker s1 with Some _ => _ | None => _ end).
  assert (∃ new, trace s2 = trace s ++ new
                 ∧ ∀ w p, EvProcessTask w p ∈ new → chosen s w p)
    as (new & Hnew & Hok).
  { subst s2. rewrite Es.
    destruct (select_image_worker s) as [w|] eqn:Hsel.
    - destruct (run_worker_calls "Error processing image task " w task s1)
        as [Hsame|[Hadd _]].
      + apply Hnone. by rewrite Hsame.
      + exists [EvProcessTask w task]. split; [by rewrite Hadd, Et|].
        intros w' p Hin. apply list_elem_of_singleton in Hin.
        injection Hin as -> ->. exists IMAGE_GENERATION. split.
        * apply Hty, list_elem_of_here.
        * by rewrite selectWorker_image.
    - apply Hnone. rewrite <-Et. by split_sched s1. }
  exists new. split; [|done].
  destruct (terminated s2); [done|].
  destruct (same_erase_if_finished task s2) as (_ & -> & _). done.
Qed.

Lemma finish_all_calls l acc :
  (∀ p ty, (p, ty) ∈ l → task_has_type acc ty p) →
  ∃ new, trace (foldl (finish_one processTask) acc l) = trace acc ++ new
         ∧ ∀ w p, EvProcessTask w p ∈ new → chosen acc w p.
Proof.
  revert acc. induction l as [|[task ty] l IH]; intros acc Hty.
  { exists []. rewrite app_nil_r. split; [done|].
    intros w p Hin. by apply elem_of_nil in Hin. }
  simpl.
  set (acc1 := if terminated acc then acc
               else dispatch_run processTask task ty acc).
  assert (frame acc acc1 ∧ objects_stable acc acc1
          ∧ ∃ new, trace acc1 = trace acc ++ new
                   ∧ ∀ w p, EvProcessTask w p ∈ new → chosen acc w p)
    as (Hfr & Hst & new1 & Hnew1 & Hok1).
  { subst acc1. destruct (terminated acc).
    - split_and!; [apply frame_refl|apply objects_stable_refl|].
      exists []. rewrite app_nil_r. split; [done|].
      intros w p Hin. by apply elem_of_nil in Hin.
    - split_and!; [apply frame_dispatch_run|apply objects_stable_dispatch_run|].
      apply dispatch_run_calls. apply Hty, list_elem_of_here. }
  destruct (IH acc1) as (new2 & Hnew2 & Hok2).
  { intros p ty' Hin. eapply task_has_type_stable; [done|].
    by apply Hty, list_elem_of_further. }
  exists (new1 ++ new2). split; [by rewrite Hnew2, Hnew1, app_assoc|].
  intros w p [Hin|Hin]%elem_of_app; [by apply Hok1|].
  specialize (Hok2 w p Hin). destruct Hok2 as (ty' & Hty' & Hsel).
  rewrite (selectWorker_frame ty' acc acc1 Hfr) in Hsel.
  exists ty'. split; [|done].
  unfold task_has_type in *.
  destruct (task_objects acc1 !! p) as [t|] eqn:Ht; [|done].
  simpl in Hty'. injection Hty' as Ety'.
  assert (is_Some (task_objects acc !! p)) as [t0 Ht0].
  { destruct (task_objects acc !! p) as [t0|] eqn:Hp; [eauto|].
    exfalso.
    assert (touches task acc acc1) as [Hother _].
    { subst acc1. destruct (terminated acc);
        [apply touches_refl|apply touches_dispatch_run]. }
    destruct (decide (p = task)) as [->|Hne].
    - specialize (Hty task ty (list_elem_of_here _ _)).
      by rewrite Hp in Hty.
    - rewrite (Hother p Hne), Hp in Ht. done. }
  destruct (Hst p t0 Ht0) as (t' & Ht' & _ & Ety & _).
  rewrite Ht in Ht'. injection Ht' as <-.
  rewrite Ht0. simpl. by rewrite <-Ety, Ety'.
Qed.

Lemma call_ok_same s s' w p :
  worker_objects s' = worker_objects s → task_objects s' = task_objects s →
  call_ok s w p → call_ok s' w p.
Proof. unfold call_ok. by intros -> ->. Qed.

Lemma registry_sound_same s s' :
  worker_objects s' = worker_objects s → workers_ s' = workers_ s →
  gpuWorkers_ s' = gpuWorkers_ s → cpuWorkers_ s' = cpuWorkers_ s →
  llmWorker_ s' = llmWorker_ s →
  registry_sound s → registry_sound s'.
Proof. unfold registry_sound. by intros -> -> -> -> ->. Qed.

Lemma trace_erase_task_id task s : trace (erase_task_id task s) = trace s.
Proof.
  unfold erase_task_id. destruct (getTaskId s task); [|done].
  by split_sched s.
Qed.

Lemma trace_dispatch_fetch s : trace (dispatch_fetch s).2 = trace s.
Proof.
  unfold dispatch_fetch, check_cancelled.
  destruct (llmTaskQueue_ s) as [|t1 r1].
  - destruct (ttsTaskQueue_ s) as [|t2 r2]; [done|].
    case_bool_decide; simpl; [rewrite trace_erase_task_id|];
      by split_sched s.
  - case_bool_decide; simpl; [rewrite trace_erase_task_id|];
      by split_sched s.
Qed.

(** **** Stretches of a run that leave the pools alone *)

Lemma workers_stable_busy_back w b s :
  workers_stable
    (set_worker_objects (alter (set_busy b) w (worker_objects s)) s) s.
Proof.
  intros w' wo'. split_sched s. simpl. rewrite lookup_alter.
  case_decide as Hd; [|by exists wo'].
  subst. destruct (wobjs !! w') as [wo|]; [|done].
  simpl. intros [= <-]. by exists wo.
Qed.

Lemma workers_stable_join_step_back s step :
  workers_stable (join_step processTask s step) s.
Proof.
  unfold join_step. destruct (terminated s); [apply workers_stable_refl|].
  destruct step as [|i| |w b].
  - pose proof (fr_worker_objects _ _ (frame_dispatch_fetch s)) as Hf.
    apply workers_stable_same.
    destruct (dispatch_fetch s) as [[|task0|task' ty] s1]; simpl in *;
      try done.
    rewrite <-Hf. by split_sched s1.
  - destruct (in_flight s !! i) as [[task' ty]|];
      [|apply workers_stable_refl].
    apply workers_stable_same.
    rewrite (fr_worker_objects _ _ (frame_dispatch_run _ _ _ _)).
    by split_sched s.
  - apply workers_stable_same.
    by rewrite (fr_worker_objects _ _
                  (frame_processImageGenerationQueue _ s)).
  - apply workers_stable_busy_back.
Qed.

Lemma pools_same_refl s : pools_same s s.
Proof. done. Qed.

Lemma pools_same_trans s1 s2 s3 :
  pools_same s1 s2 → pools_same s2 s3 → pools_same s1 s3.
Proof.
  intros (E1 & E2 & E3 & E4) (F1 & F2 & F3 & F4).
  split_and!; congruence.
Qed.

Lemma pools_same_frame s s' : frame s s' → pools_same s s'.
Proof. by intros []. Qed.

Lemma pools_same_join_step s step :
  pools_same s (join_step processTask s step).
Proof.
  unfold join_step. destruct (terminated s); [done|].
  destruct step as [|i| |w b].
  - pose proof (pools_same_frame _ _ (frame_dispatch_fetch s)) as Hf.
    destruct (dispatch_fetch s) as [[|task0|task' ty] s1]; simpl in *;
      try done.
    eapply pools_same_trans; [done|]. by split_sched s1.
  - destruct (in_flight s !! i) as [[task' ty]|]; [|done].
    apply (pools_same_trans _ (set_in_flight (delete i (in_flight s)) s));
      [by split_sched s|].
    apply pools_same_frame, frame_dispatch_run.
  - apply pools_same_frame, frame_processImageGenerationQueue.
  - by split_sched s.
Qed.

Lemma stable_refl s : stable s s.
Proof.
  split_and!; [apply objects_stable_refl|apply workers_stable_refl..].
Qed.

Lemma stable_trans s1 s2 s3 : stable s1 s2 → stable s2 s3 → stable s1 s3.
Proof.
  intros (H1 & H2 & H3) (G1 & G2 & G3). split_and!.
  - by eapply objects_stable_trans.
  - by eapply workers_stable_trans.
  - by eapply workers_stable_trans.
Qed.

Lemma stable_same s s' :
  task_objects s' = task_objects s → worker_objects s' = worker_objects s →
  stable s s'.
Proof.
  intros Ho Ew. split_and!.
  - by apply objects_stable_same.
  - by apply workers_stable_same.
  - by apply workers_stable_same.
Qed.

Lemma stable_join_step s step : stable s (join_step processTask s step).
Proof.
  split_and!.
  - apply objects_stable_join_step.
  - apply workers_stable_join_step.
  - apply workers_stable_join_step_back.
Qed.

Lemma registry_sound_between s s0 :
  workers_stable s s0 → pools_same s s0 →
  registry_sound s → registry_sound s0.
Proof.
  intros Hw (E1 & E2 & E3 & E4) (Hg & Hc & Hl).
  unfold registry_sound. rewrite E1, E2, E3, E4. split_and!.
  - intros w Hin. destruct (Hg w Hin) as (? & wo & Hwo & Hcap).
    split; [done|]. destruct (Hw w wo Hwo) as (wo' & -> & Ecap & _).
    exists wo'. unfold canHandle in *. by rewrite Ecap.
  - intros w Hin. destruct (Hc w Hin) as (? & wo & Hwo & H1 & H2 & H3).
    split; [done|]. destruct (Hw w wo Hwo) as (wo' & -> & Ecap & _).
    exists wo'. unfold canHandle in *. by rewrite Ecap.
  - intros l Hlw. destruct (Hl l Hlw) as (? & wo & Hwo & Hcap).
    split; [done|]. destruct (Hw l wo Hwo) as (wo' & -> & Ecap & _).
    exists wo'. unfold canHandle in *. by rewrite Ecap.
Qed.

Lemma chosen_between_start s s' w p :
  stable s s' → chosen s w p → chosen_between s s' w p.
Proof. intros Hst Hch. exists s. split_and!; [apply stable_refl|done..]. Qed.

Lemma chosen_between_later s s' s'' w p :
  stable s' s'' → chosen_between s s' w p → chosen_between s s'' w p.
Proof.
  intros Hst (s0 & H1 & H2 & Hp & Hch). exists s0.
  split_and!; [done| |done|done]. by eapply stable_trans.
Qed.

Lemma chosen_between_earlier s s' s'' w p :
  stable s s' → pools_same s s' →
  chosen_between s' s'' w p → chosen_between s s'' w p.
Proof.
  intros Hst Hpools (s0 & H1 & H2 & Hp & Hch). exists s0.
  split_and!; [by eapply stable_trans|done| |done].
  by eapply pools_same_trans.
Qed.

Lemma link_refl s : link s s.
Proof.
  split_and!; [apply stable_refl|done|].
  exists []. rewrite app_nil_r. split; [done|].
  intros w p Hin. by apply elem_of_nil in Hin.
Qed.

Lemma link_trans s1 s2 s3 : link s1 s2 → link s2 s3 → link s1 s3.
Proof.
  intros (Hst1 & Hp1 & new1 & E1 & Hc1) (Hst2 & Hp2 & new2 & E2 & Hc2).
  split_and!; [by eapply stable_trans|by eapply pools_same_trans|].
  exists (new1 ++ new2). split; [by rewrite E2, E1, app_assoc|].
  intros w p [Hin|Hin]%elem_of_app.
  - eapply chosen_between_later; [done|]. by apply Hc1.
  - eapply chosen_between_earlier; [done..|]. by apply Hc2.
Qed.

Lemma link_chosen s s' :
  stable s s' → pools_same s s' →
  (∃ new, trace s' = trace s ++ new
          ∧ ∀ w p, EvProcessTask w p ∈ new → chosen s w p) →
  link s s'.
Proof.
  intros Hst Hp (new & E & Hc). split_and!; [done..|].
  exists new. split; [done|]. intros w p Hin.
  by apply chosen_between_start, Hc.
Qed.

Lemma link_quiet s s' :
  task_objects s' = task_objects s → worker_objects s' = worker_objects s →
  pools_same s s' → trace s' = trace s → link s s'.
Proof.
  intros Ho Ew Hp Et. apply link_chosen; [by apply stable_same|done|].
  exists []. rewrite app_nil_r. split; [done|].
  intros w p Hin. by apply elem_of_nil in Hin.
Qed.

(** The worker calls that one join step adds to the trace: each is made
    on the worker that [selectWorker] answers in the state before the
    step. *)
Lemma join_step_calls s step :
  queues_typed s →
  ∃ new, trace (join_step processTask s step) = trace s ++ new
         ∧ ∀ w p, EvProcessTask w p ∈ new → chosen s w p.
Proof.
  intros [Hq Hf].
  assert (∀ s', trace s' = trace s →
            ∃ new, trace s' = trace s ++ new
                   ∧ ∀ w p, EvProcessTask w p ∈ new → chosen s w p)
    as Hnone.
  { intros s' ->. exists []. rewrite app_nil_r. split; [done|].
    intros w p Hin. by apply elem_of_nil in Hin. }
  unfold join_step. destruct (terminated s); [by apply Hnone|].
  destruct step as [|i| |w b].
  - pose proof (trace_dispatch_fetch s) as Hfr.
    apply Hnone.
    destruct (dispatch_fetch s) as [[|task0|task' ty] s1]; simpl in *;
      try done.
    rewrite <-Hfr. by split_sched s1.
  - destruct (in_flight s !! i) as [[task' ty]|] eqn:Hi; [|by apply Hnone].
    set (s1 := set_in_flight (delete i (in_flight s)) s).
    assert (trace s1 = trace s ∧ task_objects s1 = task_objects s
            ∧ worker_objects s1 = worker_objects s
            ∧ workers_ s1 = workers_ s ∧ gpuWorkers_ s1 = gpuWorkers_ s
            ∧ cpuWorkers_ s1 = cpuWorkers_ s ∧ llmWorker_ s1 = llmWorker_ s)
      as (Et & Eo & Ew & E1 & E2 & E3 & E4) by (subst s1; by split_sched s).
    destruct (dispatch_run_calls task' ty s1) as (new & Hnew & Hok).
    { apply (task_has_type_same s); [done|].
      by apply Hf, (list_elem_of_lookup_2 _ i). }
    exists new. split; [by rewrite Hnew, Et|].
    intros w p Hin. apply (chosen_same s1); [done..|]. by apply Hok.
  - apply image_calls. intros p Hp. by apply (Hq IMAGE_GENERATION).
  - apply Hnone. by split_sched s.
Qed.

Lemma link_join_step s step :
  queues_typed s → link s (join_step processTask s step).
Proof.
  intros Hq. apply link_chosen.
  - apply stable_join_step.
  - apply pools_same_join_step.
  - by apply join_step_calls.
Qed.

Lemma link_late_work steps s :
  queues_typed s →
  queues_typed (late_work processTask steps s)
  ∧ link s (late_work processTask steps s).
Proof.
  intros Hq.
  apply (late_work_ind processTask (λ acc, queues_typed acc ∧ link s acc));
    [|split; [done|apply link_refl]].
  intros acc step [Hacc Hl]. split.
  - by apply ris_queues_typed_join_step.
  - eapply link_trans; [done|]. by apply link_join_step.
Qed.

Lemma link_join_threads s :
  queues_typed s → link s (join_threads processTask s).
Proof.
  intros [Hq Hf]. rewrite join_threads_unfold.
  set (s0 := set_in_flight [] s).
  assert (trace s0 = trace s ∧ task_objects s0 = task_objects s
          ∧ worker_objects s0 = worker_objects s
          ∧ workers_ s0 = workers_ s ∧ gpuWorkers_ s0 = gpuWorkers_ s
          ∧ cpuWorkers_ s0 = cpuWorkers_ s ∧ llmWorker_ s0 = llmWorker_ s)
    as (Et & Eo & Ew & E1 & E2 & E3 & E4) by (subst s0; by split_sched s).
  destruct (finish_all_calls (in_flight s) s0) as (new & Hnew & Hok).
  { intros p ty Hin. apply (task_has_type_same s); [done|]. by apply Hf. }
  pose proof (frame_finish_all processTask (in_flight s) s0) as Hfr.
  pose proof (objects_stable_finish_all (in_flight s) s0) as Hos.
  revert Hnew Hfr Hos.
  generalize (foldl (finish_one processTask) s0 (in_flight s)).
  intros s2 Hnew Hfr Hos. apply link_chosen.
  - split_and!.
    + eapply objects_stable_trans; [|done]. by apply objects_stable_same.
    + apply workers_stable_same.
      by rewrite (fr_worker_objects _ _ Hfr).
    + apply workers_stable_same.
      by rewrite (fr_worker_objects _ _ Hfr).
  - apply (pools_same_trans _ s0); [done|by apply pools_same_frame].
  - exists new. split; [by rewrite Hnew, Et|].
    intros w p Hin. apply (chosen_same s0); [done..|]. by apply Hok.
Qed.

(** [shutdown]: up to the return of the joins the pools are left alone;
    after that nothing but the [shutdown] of the workers is called. *)
Lemma shutdown_link steps s :
  queues_typed s →
  ∃ s2, link s s2
        ∧ (shutdown processTask steps s = s2
           ∨ (task_objects (shutdown processTask steps s) = task_objects s2
              ∧ worker_objects (shutdown processTask steps s)
                = worker_objects s2
              ∧ trace (shutdown processTask steps s)
                = trace s2 ++ (EvShutdown <$> workers_ s2)
              ∧ workers_ (shutdown processTask steps s) = []
              ∧ gpuWorkers_ (shutdown processTask steps s) = []
              ∧ cpuWorkers_ (shutdown processTask steps s) = []
              ∧ llmWorker_ (shutdown processTask steps s) = None)).
Proof.
  intros Hq. unfold shutdown.
  destruct (initialized_ s); [|exists s; split; [apply link_refl|by left]].
  set (s0 := set_threads _ _ _ _ s).
  assert (link s s0) as H0
    by (apply link_quiet; subst s0; by split_sched s).
  assert (queues_typed s0) as Hq0.
  { apply (ris_queues_typed_same s); [done| | |].
    - apply objects_stable_same. subst s0. by split_sched s.
    - intros ty. subst s0. split_sched s. by destruct ty.
    - subst s0. by split_sched s. }
  destruct (link_late_work steps s0 Hq0) as [Hq1 H1].
  pose proof (link_join_threads _ Hq1) as H2.
  pose proof (link_trans _ _ _ H0 (link_trans _ _ _ H1 H2)) as Hl.
  revert Hl. generalize (join_threads processTask
                           (late_work processTask steps s0)).
  intros s2 Hl. exists s2. split; [done|].
  destruct (terminated s2); [by left|].
  right. by split_sched s2.
Qed.

Lemma workers_stable_exec_back s a :
  workers_stable (exec processTask s a) s.
Proof.
  pose proof (workers_stable_join_step_back s) as Hstep.
  unfold join_step in Hstep.
  unfold exec. destruct (terminated s); [apply workers_stable_refl|].
  assert (∀ s', worker_objects s' = worker_objects s → workers_stable s' s)
    as Hsame by (intros s' E; by apply workers_stable_same).
  destruct a as [n|w|ty pr now|id| |i| |steps|w b].
  - apply Hsame. unfold initialize.
    destruct (initialized_ s); [done|]. by split_sched s.
  - apply Hsame. unfold addWorker. destruct w as [w|]; [|done].
    destruct (worker_objects s !! w) as [wo|]; [|done].
    destruct (initialize_throws wo); [by split_sched s|].
    destruct (canHandle wo LLM_INFERENCE || canHandle wo IMAGE_GENERATION);
      [|destruct (canHandle wo TTS_SYNTHESIS)]; by split_sched s.
  - apply Hsame. unfold submitTask. split_sched s. by destruct ty.
  - apply Hsame. unfold cancelTask. destruct (tasks_ s !! id); [|done].
    case_bool_decide; [|done]. by split_sched s.
  - destruct (running_ s && _); [|apply workers_stable_refl].
    apply (Hstep JoinFetch).
  - apply (Hstep (JoinResume i)).
  - destruct (running_ s && imageQueueThread_ s);
      [|apply workers_stable_refl].
    apply (Hstep JoinImage).
  - unfold shutdown.
    destruct (initialized_ s); [|apply workers_stable_refl].
    set (s0 := set_threads _ _ _ _ s).
    assert (workers_stable s0 s) as H0
      by (apply Hsame; subst s0; by split_sched s).
    assert (workers_stable (late_work processTask steps s0) s) as H1.
    { apply (late_work_ind processTask (λ acc, workers_stable acc s));
        [|done].
      intros acc step Hacc. eapply workers_stable_trans; [|done].
      apply workers_stable_join_step_back. }
    revert H1. generalize (late_work processTask steps s0). intros s1 H1.
    rewrite join_threads_unfold.
    pose proof (fr_worker_objects _ _
      (frame_finish_all processTask (in_flight s1) (set_in_flight [] s1)))
      as Hf.
    assert (worker_objects (set_in_flight [] s1) = worker_objects s1) as Hw1
      by (by split_sched s1).
    rewrite Hw1 in Hf. revert Hf.
    generalize (foldl (finish_one processTask) (set_in_flight [] s1)
                  (in_flight s1)).
    intros s2 Hf. eapply workers_stable_trans; [|done].
    apply workers_stable_same. destruct (terminated s2); [done|].
    rewrite <-Hf. by split_sched s2.
  - apply workers_stable_busy_back.
Qed.

Lemma stable_exec s a : stable s (exec processTask s a).
Proof.
  split_and!.
  - apply objects_stable_exec.
  - apply workers_stable_exec.
  - apply workers_stable_exec_back.
Qed.

(** The worker calls that one action adds to the trace: each is made on
    a worker that [selectWorker] answered, in the state before the action
    or, during [shutdown], in a state between two join steps. *)
Lemma exec_calls s a :
  queues_typed s → calls_between s (exec processTask s a).
Proof.
  intros Hqt. pose proof Hqt as [Hq Hf].
  pose proof (stable_exec s a) as Hstable.
  assert (∀ s', stable s s' →
            (∃ new, trace s' = trace s ++ new
                    ∧ ∀ w p, EvProcessTask w p ∈ new → chosen s w p) →
            calls_between s s') as Hstart.
  { intros s' Hst (new & E & Hc). exists new. split; [done|].
    intros w p Hin. by apply chosen_between_start, Hc. }
  assert (∀ s', stable s s' → trace s' = trace s → calls_between s s')
    as Hnone.
  { intros s' Hst E. apply Hstart; [done|]. exists [].
    rewrite app_nil_r. split; [done|].
    intros w p Hin. by apply elem_of_nil in Hin. }
  pose proof (λ step, join_step_calls s step Hqt) as Hstep.
  revert Hstable. unfold join_step in Hstep.
  unfold exec. destruct (terminated s) eqn:Hterm;
    [intros Hst; by apply Hnone|].
  destruct a as [n|w|ty pr now|id| |i| |steps|w b]; intros Hst.
  - apply Hnone; [done|]. unfold initialize.
    destruct (initialized_ s); [done|]. by split_sched s.
  - apply Hstart; [done|].
    unfold addWorker. destruct w as [w|];
      [|exists []; rewrite app_nil_r; split; [done|];
        intros w p Hin; by apply elem_of_nil in Hin].
    destruct (worker_objects s !! w) as [wo|];
      [|exists []; rewrite app_nil_r; split; [done|];
        intros w' p Hin; by apply elem_of_nil in Hin].
    exists [EvInitialize w]. split.
    + destruct (initialize_throws wo); [by split_sched s|].
      destruct (canHandle wo LLM_INFERENCE || canHandle wo IMAGE_GENERATION);
        [|destruct (canHandle wo TTS_SYNTHESIS)]; by split_sched s.
    + intros w' p Hin. by apply list_elem_of_singleton in Hin.
  - apply Hnone; [done|]. unfold submitTask. split_sched s. by destruct ty.
  - apply Hnone; [done|]. unfold cancelTask.
    destruct (tasks_ s !! id); [|done].
    case_bool_decide; [|done]. by split_sched s.
  - revert Hst. destruct (running_ s && _); intros Hst; [|by apply Hnone].
    apply Hstart; [done|]. apply (Hstep JoinFetch).
  - apply Hstart; [done|]. apply (Hstep (JoinResume i)).
  - revert Hst. destruct (running_ s && imageQueueThread_ s); intros Hst;
      [|by apply Hnone].
    apply Hstart; [done|]. apply (Hstep JoinImage).
  - destruct (shutdown_link steps s Hqt)
      as (s2 & (Hst2 & Hp2 & new & E & Hc) & Hend).
    destruct Hend as [->|(Eo & Ew & Et & _)]; [by exists new|].
    exists (new ++ (EvShutdown <$> workers_ s2)). split.
    + by rewrite Et, E, app_assoc.
    + intros w p [Hin|Hin]%elem_of_app.
      * eapply chosen_between_later; [|by apply Hc].
        by apply stable_same.
      * apply list_elem_of_fmap in Hin as (? & ? & _). done.
  - apply Hstart; [done|]. apply (Hstep (JoinBusy w b)).
Qed.

Lemma trace_sound_exec s a :
  registry_sound s → queues_typed s → trace_sound s →
  trace_sound (exec processTask s a).
Proof.
  intros Hreg Hq Htr w p Hin.
  destruct (exec_calls s a Hq) as (new & Hnew & Hok).
  rewrite Hnew in Hin.
  apply elem_of_app in Hin as [Hin|Hin].
  - apply (call_ok_stable s);
      [apply objects_stable_exec|apply workers_stable_exec|].
    by apply Htr.
  - destruct (Hok w p Hin)
      as (s0 & (_ & Hw0 & _) & (Ho1 & Hw1 & _) & Hp0 & Hch).
    apply (call_ok_stable s0); [done..|].
    apply chosen_call_ok; [|done].
    by apply (registry_sound_between s).
Qed.

Lemma sound_new ws : sound (ResourceIsolationScheduler_new ws).
Proof.
  split_and!.
  - apply registry_sound_new.
  - apply ris_queues_typed_new.
  - apply index_consistent_new.
  - intros w p Hin. by apply elem_of_nil in Hin.
Qed.

Lemma sound_exec s a : sound s → sound (exec processTask s a).
Proof.
  intros (Hreg & Hq & Hidx & Htr). split_and!.
  - by apply registry_sound_exec.
  - by apply ris_queues_typed_exec.
  - by apply index_consistent_exec.
  - by apply trace_sound_exec.
Qed.

Lemma sound_run acts s : sound s → sound (run processTask s acts).
Proof.
  revert s. induction acts as [|a acts IH]; intros s Hs; [done|].
  simpl. apply IH. by apply sound_exec.
Qed.

(** **** What the actions do to the registry *)

Lemma addWorker_registry worker s :
  let s' := (addWorker worker s).2 in
  worker_objects s' = worker_objects s
  ∧ ((workers_ s' = workers_ s ∧ gpuWorkers_ s' = gpuWorkers_ s
      ∧ cpuWorkers_ s' = cpuWorkers_ s ∧ llmWorker_ s' = llmWorker_ s)
     ∨ ∃ w wo,
         worker = Some w ∧ worker_objects s !! w = Some wo
         ∧ initialize_throws wo = false
         ∧ workers_ s' = workers_ s ++ [w]
         ∧ ((canHandle wo LLM_INFERENCE || canHandle wo IMAGE_GENERATION
             = true
             ∧ gpuWorkers_ s' = gpuWorkers_ s ++ [w]
             ∧ cpuWorkers_ s' = cpuWorkers_ s
             ∧ llmWorker_ s'
               = match llmWorker_ s with
                 | None => if canHandle wo LLM_INFERENCE then Some w else None
                 | Some l => Some l
                 end)
            ∨ (canHandle wo LLM_INFERENCE = false
               ∧ canHandle wo IMAGE_GENERATION = false
               ∧ gpuWorkers_ s' = gpuWorkers_ s
               ∧ (cpuWorkers_ s' = cpuWorkers_ s ++ [w]
                  ∨ cpuWorkers_ s' = cpuWorkers_ s)
               ∧ llmWorker_ s' = llmWorker_ s))).
Proof.
  unfold addWorker. destruct worker as [w|]; [|by eauto 10].
  destruct (worker_objects s !! w) as [wo|] eqn:Hw; [|by eauto 10].
  destruct (initialize_throws wo) eqn:Hthrows.
  { split; [by split_sched s|]. left. by split_sched s. }
  destruct (canHandle wo LLM_INFERENCE || canHandle wo IMAGE_GENERATION)
    eqn:Hgpu.
  - split; [by split_sched s|]. right. exists w, wo.
    split_and!; [done|done|done|by split_sched s|].
    left. split_and!; [done|by split_sched s..].
  - apply orb_false_iff in Hgpu as [Hllm Himg].
    split; [destruct (canHandle wo TTS_SYNTHESIS); by split_sched s|].
    right. exists w, wo.
    split_and!; [done|done|done|
                 destruct (canHandle wo TTS_SYNTHESIS); by split_sched s|].
    right. split_and!; [done|done|..];
      destruct (canHandle wo TTS_SYNTHESIS); try by split_sched s.
    + left. by split_sched s.
    + right. by split_sched s.
Qed.

Lemma shutdown_pools steps s :
  let s' := shutdown processTask steps s in
  pools_same s s'
  ∨ (workers_ s' = [] ∧ gpuWorkers_ s' = [] ∧ cpuWorkers_ s' = []
     ∧ llmWorker_ s' = None).
Proof.
  unfold shutdown. destruct (initialized_ s); [|by left].
  set (s0 := set_threads _ _ _ _ s).
  assert (pools_same s s0) as H0 by (subst s0; by split_sched s).
  assert (pools_same s (late_work processTask steps s0)) as H1.
  { apply (late_work_ind processTask (pools_same s)); [|done].
    intros acc step Hacc. eapply pools_same_trans; [done|].
    apply pools_same_join_step. }
  revert H1. generalize (late_work processTask steps s0). intros s1 H1.
  rewrite join_threads_unfold.
  pose proof (pools_same_frame _ _
    (frame_finish_all processTask (in_flight s1) (set_in_flight [] s1)))
    as Hf.
  assert (pools_same s1 (set_in_flight [] s1)) as H1'
    by (by split_sched s1).
  pose proof (pools_same_trans _ _ _ H1 (pools_same_trans _ _ _ H1' Hf))
    as H2.
  revert H2.
  generalize (foldl (finish_one processTask) (set_in_flight [] s1)
                (in_flight s1)).
  intros s2 H2. cbv zeta. destruct (terminated s2); [by left|].
  right. by split_sched s2.
Qed.

Lemma exec_registry s a :
  let s' := exec processTask s a in
  (worker_objects s' = worker_objects s ∧ workers_ s' = workers_ s
   ∧ gpuWorkers_ s' = gpuWorkers_ s ∧ cpuWorkers_ s' = cpuWorkers_ s
   ∧ llmWorker_ s' = llmWorker_ s)
  ∨ (∃ w, a = DoAddWorker w ∧ s' = (addWorker w s).2)
  ∨ ((∃ steps, a = DoShutdown steps) ∧ stable s s'
     ∧ (pools_same s s'
        ∨ (workers_ s' = [] ∧ gpuWorkers_ s' = [] ∧ cpuWorkers_ s' = []
           ∧ llmWorker_ s' = None)))
  ∨ (∃ w b, a = WorkerSetsBusy w b
            ∧ worker_objects s' = alter (set_busy b) w (worker_objects s)
            ∧ workers_ s' = workers_ s ∧ gpuWorkers_ s' = gpuWorkers_ s
            ∧ cpuWorkers_ s' = cpuWorkers_ s
            ∧ llmWorker_ s' = llmWorker_ s).
Proof.
  assert (∀ s', frame s s' →
            worker_objects s' = worker_objects s ∧ workers_ s' = workers_ s
            ∧ gpuWorkers_ s' = gpuWorkers_ s ∧ cpuWorkers_ s' = cpuWorkers_ s
            ∧ llmWorker_ s' = llmWorker_ s) as Hframe by by intros s' [].
  pose proof (stable_exec s a) as Hstable. revert Hstable.
  unfold exec. destruct (terminated s); [by left|].
  destruct a as [n|w|ty pr now|id| |i| |steps|w b]; intros Hstable.
  - left. unfold initialize. destruct (initialized_ s); [done|].
    by split_sched s.
  - right. left. by exists w.
  - left. unfold submitTask. split_sched s. by destruct ty.
  - left. unfold cancelTask. destruct (tasks_ s !! id); [|done].
    case_bool_decide; [|done]. by split_sched s.
  - left. destruct (running_ s && _); [|done].
    pose proof (Hframe _ (frame_dispatch_fetch s)) as Hf.
    destruct (dispatch_fetch s) as [[|task0|task ty] s1]; simpl in Hf;
      try done.
    destruct Hf as (<- & <- & <- & <- & <-). by split_sched s1.
  - left. destruct (in_flight s !! i) as [[task ty]|]; [|done].
    destruct (frame_dispatch_run processTask task ty
                (set_in_flight (delete i (in_flight s)) s))
      as [-> -> -> -> -> _ _ _ _ _ _].
    by split_sched s.
  - left. destruct (running_ s && imageQueueThread_ s); [|done].
    apply Hframe, frame_processImageGenerationQueue.
  - right. right. left. split; [by exists steps|]. split; [done|].
    apply shutdown_pools.
  - right. right. right. exists w, b. by split_sched s.
Qed.

Lemma registry_initialized_new ws :
  registry_initialized (ResourceIsolationScheduler_new ws).
Proof. intros w Hw. by apply elem_of_nil in Hw. Qed.

Lemma registry_initialized_exec s a :
  registry_initialized s → registry_initialized (exec processTask s a).
Proof.
  intros Hinv.
  destruct (exec_registry s a)
    as [(Ew & Ews & _)|[(w & -> & Es)
        |[(_ & (_ & Hw & _) & [(Ews & _)|(Ews & _)])
         |(w & b & -> & Ew & Ews & _)]]].
  - intros w. rewrite Ew, Ews. apply Hinv.
  - rewrite Es. destruct (addWorker_registry w s) as [Ew Hreg].
    intros w'. rewrite Ew.
    destruct Hreg as [(-> & _)|(w0 & wo & -> & Hwo & Hthrows & -> & _)];
      [apply Hinv|].
    rewrite elem_of_app, list_elem_of_singleton. intros [Hin| ->]; eauto.
  - intros w. rewrite Ews. intros Hin.
    destruct (Hinv w Hin) as (wo & Hwo & Hthrows).
    destruct (Hw w wo Hwo) as (wo' & Hwo' & _ & _ & Ethrows).
    exists wo'. split; [done|congruence].
  - intros w. rewrite Ews. intros Hw'. by apply elem_of_nil in Hw'.
  - intros w'. rewrite Ew, Ews. intros Hin.
    destruct (Hinv w' Hin) as (wo & Hwo & Hthrows).
    rewrite lookup_alter. case_decide as Hd; [|eauto].
    subst. rewrite Hwo. simpl. eauto.
Qed.

Lemma selectWorker_tts_cpu s w :
  selectWorker TTS_SYNTHESIS s = Some w → w ∈ cpuWorkers_ s.
Proof.
  unfold selectWorker. destruct (llmWorker_ s); simpl;
    intros [Hin _]%find_some; by apply list_elem_of_In.
Qed.

Lemma chosen_call_isolated s w p :
  registry_sound s → registry_initialized s →
  chosen s w p → call_isolated s w p.
Proof.
  intros Hreg Hinit (ty & Hty & Hsel).
  destruct (selectWorker_sound ty s w Hreg Hsel) as (Hin & wo & Hwo & _).
  destruct (Hinit w Hin) as (wo' & Hwo' & Hthrows).
  rewrite Hwo in Hwo'. injection Hwo' as <-.
  unfold task_has_type in Hty.
  destruct (task_objects s !! p) as [t|] eqn:Ht; [|done].
  simpl in Hty. injection Hty as Ety. exists wo, t.
  split_and!; [done..|]. rewrite Ety. intros ->.
  apply selectWorker_tts_cpu in Hsel. destruct Hreg as (_ & Hc & _).
  destruct (Hc w Hsel) as (_ & wo' & Hwo' & Hllm & Himg & _).
  rewrite Hwo in Hwo'. by injection Hwo' as <-.
Qed.

Lemma call_isolated_stable s s' w p :
  objects_stable s s' → workers_stable s s' →
  call_isolated s w p → call_isolated s' w p.
Proof.
  intros Ho Hw (wo & t & Hwo & Ht & Hthrows & Htts).
  destruct (Hw w wo Hwo) as (wo' & Hwo' & Ecap & _ & Ethrows).
  destruct (Ho p t Ht) as (t' & Ht' & _ & Ety & _).
  exists wo', t'. split_and!; [done|done|congruence|].
  unfold canHandle in *. rewrite Ecap, Ety. apply Htts.
Qed.

Lemma registry_initialized_between s s0 :
  workers_stable s s0 → pools_same s s0 →
  registry_initialized s → registry_initialized s0.
Proof.
  intros Hw (E1 & _) Hinv w. rewrite E1. intros Hin.
  destruct (Hinv w Hin) as (wo & Hwo & Hthrows).
  destruct (Hw w wo Hwo) as (wo' & Hwo' & _ & _ & Ethrows).
  exists wo'. split; [done|congruence].
Qed.

Lemma trace_isolated_exec s a :
  registry_sound s → registry_initialized s → queues_typed s →
  trace_isolated s → trace_isolated (exec processTask s a).
Proof.
  intros Hreg Hinit Hq Htr w p Hin.
  destruct (exec_calls s a Hq) as (new & Hnew & Hok).
  rewrite Hnew in Hin.
  apply elem_of_app in Hin as [Hin|Hin].
  - apply (call_isolated_stable s);
      [apply objects_stable_exec|apply workers_stable_exec|].
    by apply Htr.
  - destruct (Hok w p Hin)
      as (s0 & (_ & Hw0 & _) & (Ho1 & Hw1 & _) & Hp0 & Hch).
    apply (call_isolated_stable s0); [done..|].
    apply chosen_call_isolated; [| |done].
    + by apply (registry_sound_between s).
    + by apply (registry_initialized_between s).
Qed.

Lemma trace_isolated_run acts s :
  sound s → registry_initialized s → trace_isolated s →
  trace_isolated (run processTask s acts).
Proof.
  revert s. induction acts as [|a acts IH]; intros s Hs Hinit Htr; [done|].
  simpl. apply IH.
  - by apply sound_exec.
  - by apply registry_initialized_exec.
  - destruct Hs as (Hreg & Hq & _). by apply trace_isolated_exec.
Qed.

(** **** The dedicated worker *)

Lemma registry_sound_dedicated_apart s : registry_sound s → dedicated_apart s.
Proof.
  intros (_ & Hc & Hl). split.
  - intros w wo Hin Hwo. destruct (Hc w Hin) as (_ & wo' & Hwo' & Hllm & _).
    rewrite Hwo in Hwo'. by injection Hwo' as <-.
  - intros l Hlw. by destruct (Hl l Hlw) as [_ ?].
Qed.

Lemma llmWorker_sticky s a l :
  is_shutdown a = false →
  llmWorker_ s = Some l → llmWorker_ (exec processTask s a) = Some l.
Proof.
  intros Hns Hl.
  destruct (exec_registry s a)
    as [(_ & _ & _ & _ & El)|[(w & -> & Es)|[((steps & ->) & _)
                                            |(w & b & -> & _ & _ & _ & _ & El)]]];
    [congruence| |done|congruence].
  rewrite Es. destruct (addWorker_registry w s) as [_ Hreg].
  destruct Hreg as [(_ & _ & _ & ->)|(w0 & wo & _ & _ & _ & _ & Hpool)];
    [done|].
  destruct Hpool as [(_ & _ & _ & ->)|(_ & _ & _ & _ & ->)]; [|done].
  by rewrite Hl.
Qed.

Lemma pools_grow s a w :
  is_shutdown a = false →
  (w ∈ gpuWorkers_ s → w ∈ gpuWorkers_ (exec processTask s a))
  ∧ (w ∈ cpuWorkers_ s → w ∈ cpuWorkers_ (exec processTask s a)).
Proof.
  intros Hns.
  destruct (exec_registry s a)
    as [(_ & _ & -> & -> & _)|[(w' & -> & Es)|[((steps & ->) & _)
                                            |(w' & b & -> & _ & _ & -> & -> & _)]]];
    [done| |done|done].
  rewrite Es. destruct (addWorker_registry w' s) as [_ Hreg].
  destruct Hreg as [(_ & -> & -> & _)|(w0 & wo & _ & _ & _ & _ & Hpool)];
    [done|].
  destruct Hpool as [(_ & -> & -> & _)|(_ & _ & -> & [->| ->] & _)];
    rewrite ?elem_of_app; eauto.
Qed.

Lemma selectWorker_in_pool ty s w :
  registry_sound s → selectWorker ty s = Some w →
  w ∈ gpuWorkers_ s ∨ w ∈ cpuWorkers_ s.
Proof.
  intros (_ & _ & Hl). unfold selectWorker.
  destruct (llmWorker_ s) as [l|] eqn:Hlw.
  - destruct (bool_decide (ty = LLM_INFERENCE) && worker_idle s l).
    + intros [= <-]. left. by apply Hl.
    + case_bool_decide; intros [Hin _]%find_some;
        apply list_elem_of_In in Hin; eauto.
  - case_bool_decide; intros [Hin _]%find_some;
      apply list_elem_of_In in Hin; eauto.
Qed.

Lemma dedicated_first_new ws :
  dedicated_first (ResourceIsolationScheduler_new ws).
Proof. intros _ w wo Hin. by apply elem_of_nil in Hin. Qed.

Lemma dedicated_first_exec s a :
  dedicated_first s → dedicated_first (exec processTask s a).
Proof.
  intros Hinv.
  destruct (exec_registry s a)
    as [(Ew & _ & Eg & _ & El)|[(w & -> & Es)
        |[(_ & (_ & _ & Hback) & [(_ & Eg & _ & El)|(_ & Eg & _)])
         |(w & b & -> & Ew & _ & Eg & _ & El)]]].
  - unfold dedicated_first. rewrite Ew, Eg, El. apply Hinv.
  - rewrite Es. destruct (addWorker_registry w s) as [Ew Hreg].
    unfold dedicated_first. rewrite Ew.
    destruct Hreg as [(_ & -> & _ & ->)|(w0 & wo & _ & Hwo & _ & _ & Hpool)];
      [apply Hinv|].
    destruct Hpool as [(_ & -> & _ & ->)|(_ & _ & -> & _ & ->)];
      [|apply Hinv].
    destruct (llmWorker_ s) as [l|] eqn:Hl; [done|].
    destruct (canHandle wo LLM_INFERENCE) eqn:Hllm; [done|].
    intros _ w' wo'. rewrite elem_of_app, list_elem_of_singleton.
    intros [Hin| ->] Hwo'; [by eapply Hinv|]. congruence.
  - unfold dedicated_first. rewrite Eg, El. intros Hl w wo' Hin Hwo'.
    destruct (Hback w wo' Hwo') as (wo & Hwo & Ecap & _).
    unfold canHandle. rewrite <-Ecap. by apply (Hinv Hl w wo).
  - intros _ w wo. rewrite Eg. intros Hin. by apply elem_of_nil in Hin.
  - unfold dedicated_first. rewrite Ew, Eg, El. intros Hl w' wo' Hin.
    rewrite lookup_alter. case_decide as Hd; [|by apply Hinv].
    subst. destruct (worker_objects s !! w') as [wo|] eqn:Hwo; [|done].
    simpl. intros [= <-]. by apply (Hinv Hl w' wo).
Qed.

Lemma objects_stable_run acts s : objects_stable s (run processTask s acts).
Proof.
  revert s. induction acts as [|a acts IH]; intros s;
    [apply objects_stable_refl|].
  simpl. eapply objects_stable_trans; [apply objects_stable_exec|apply IH].
Qed.

Lemma workers_stable_run acts s : workers_stable s (run processTask s acts).
Proof.
  revert s. induction acts as [|a acts IH]; intros s;
    [apply workers_stable_refl|].
  simpl. eapply workers_stable_trans; [apply workers_stable_exec|apply IH].
Qed.

Lemma chosen_between_in_pool s s' w p :
  registry_sound s → chosen_between s s' w p →
  w ∈ gpuWorkers_ s ∨ w ∈ cpuWorkers_ s.
Proof.
  intros Hreg (s0 & (_ & Hw0 & _) & _ & Hp0 & ty & _ & Hsel).
  pose proof (registry_sound_between s s0 Hw0 Hp0 Hreg) as Hreg0.
  destruct Hp0 as (_ & <- & <- & _).
  by eapply selectWorker_in_pool.
Qed.

Lemma calls_registered_exec s a :
  is_shutdown a = false →
  registry_sound s → queues_typed s →
  calls_registered s → calls_registered (exec processTask s a).
Proof.
  intros Hns Hreg Hq Hinv w p Hin.
  destruct (exec_calls s a Hq) as (new & Hnew & Hok).
  rewrite Hnew in Hin.
  assert (w ∈ gpuWorkers_ s ∨ w ∈ cpuWorkers_ s) as Hpool.
  { apply elem_of_app in Hin as [Hin|Hin]; [by eapply Hinv|].
    by eapply chosen_between_in_pool, Hok. }
  destruct (pools_grow s a w Hns) as [Hg Hc]. destruct Hpool; eauto.
Qed.

Lemma dedicated_calls_llm_exec s a :
  is_shutdown a = false →
  registry_sound s → queues_typed s → dedicated_first s →
  calls_registered s →
  dedicated_calls_llm s → dedicated_calls_llm (exec processTask s a).
Proof.
  intros Hns Hreg Hq Hfirst Hcalls Hinv l p Hl Hin.
  destruct (exec_calls s a Hq) as (new & Hnew & Hok).
  rewrite Hnew in Hin.
  destruct (llmWorker_ s) as [l0|] eqn:Hl0.
  - rewrite (llmWorker_sticky s a l0 Hns Hl0) in Hl. injection Hl as ->.
    apply elem_of_app in Hin as [Hin|Hin].
    { apply (task_has_type_stable s); [apply objects_stable_exec|].
      by apply (Hinv l p). }
    destruct (Hok l p Hin)
      as (s0 & (_ & Hw0 & _) & (Ho1 & _) & Hp0 & ty & Hty & Hsel).
    apply (task_has_type_stable s0); [done|].
    destruct (decide (ty = LLM_INFERENCE)) as [->|Hne]; [done|].
    exfalso.
    pose proof (registry_sound_between s s0 Hw0 Hp0 Hreg) as Hreg0.
    destruct Hp0 as (_ & _ & _ & El0).
    apply (selectWorker_not_dedicated s0 ty l
             (registry_sound_dedicated_apart s0 Hreg0) Hne Hsel).
    congruence.
  - exfalso.
    assert (l ∈ gpuWorkers_ s ∨ l ∈ cpuWorkers_ s) as Hpool.
    { apply elem_of_app in Hin as [Hin|Hin]; [by eapply Hcalls|].
      by eapply chosen_between_in_pool, Hok. }
    assert (∃ wo, worker_objects s !! l = Some wo
                  ∧ canHandle wo LLM_INFERENCE = false) as (wo & Hwo & Hno).
    { destruct Hreg as (Hg & Hc & _). destruct Hpool as [Hin'|Hin'].
      - destruct (Hg l Hin') as (_ & wo & Hwo & _). exists wo.
        split; [done|]. by apply (Hfirst Hl0 l).
      - destruct (Hc l Hin') as (_ & wo & Hwo & Hllm & _). eauto. }
    destruct (workers_stable_exec s a l wo Hwo) as (wo' & Hwo' & Ecap & _).
    destruct (registry_sound_exec s a Hreg) as (_ & _ & Hl').
    destruct (Hl' l Hl) as (_ & wo'' & Hwo'' & Hyes).
    rewrite Hwo' in Hwo''. injection Hwo'' as <-.
    unfold canHandle in *. rewrite Ecap in Hyes. congruence.
Qed.

(** **** Image work without a free GPU worker *)

Lemma find_all_false {A} (f : A → bool) (l : list A) :
  (∀ x, x ∈ l → f x = false) → find f l = None.
Proof.
  induction l as [|x l IH]; intros Hall; [done|]. simpl.
  rewrite (Hall x (list_elem_of_here _ _)). apply IH.
  intros y Hy. by apply Hall, list_elem_of_further.
Qed.

Lemma only_dedicated_gpu_no_image_worker s :
  only_dedicated_gpu s → select_image_worker s = None.
Proof.
  intros Hall. unfold select_image_worker. apply find_all_false.
  intros w Hin. apply andb_false_iff. left.
  unfold not_dedicated. apply bool_decide_eq_false. intros Hne.
  by apply Hne, eq_sym, Hall.
Qed.

Lemma only_dedicated_gpu_exec s a :
  is_addWorker a = false →
  only_dedicated_gpu s → only_dedicated_gpu (exec processTask s a).
Proof.
  intros Hna Hinv.
  destruct (exec_registry s a)
    as [(_ & _ & Eg & _ & El)|[(w & -> & _)
        |[(_ & _ & [(_ & Eg & _ & El)|(_ & Eg & _)])
         |(w & b & -> & _ & _ & Eg & _ & El)]]];
    [|done| | |].
  - unfold only_dedicated_gpu. rewrite Eg, El. apply Hinv.
  - unfold only_dedicated_gpu. rewrite Eg, El. apply Hinv.
  - intros w. rewrite Eg. intros Hin. by apply elem_of_nil in Hin.
  - unfold only_dedicated_gpu. rewrite Eg, El. apply Hinv.
Qed.

Lemma no_image_calls_run acts s :
  registry_sound s → queues_typed s → only_dedicated_gpu s →
  Forall (λ a, is_addWorker a = false) acts →
  ∃ new, trace (run processTask s acts) = trace s ++ new
         ∧ ∀ w p, EvProcessTask w p ∈ new →
                  ∃ ty, task_has_type (run processTask s acts) ty p
                        ∧ ty ≠ IMAGE_GENERATION.
Proof.
  revert s. induction acts as [|a acts IH]; intros s Hreg Hq Honly Hall.
  { exists []. rewrite app_nil_r. split; [done|].
    intros w p Hin. by apply elem_of_nil in Hin. }
  apply Forall_cons in Hall as [Ha Hall]. simpl.
  destruct (exec_calls s a Hq) as (new1 & Hnew1 & Hok1).
  destruct (IH (exec processTask s a)) as (new2 & Hnew2 & Hok2).
  { by apply registry_sound_exec. }
  { by apply ris_queues_typed_exec. }
  { by apply only_dedicated_gpu_exec. }
  { done. }
  exists (new1 ++ new2). split; [by rewrite Hnew2, Hnew1, app_assoc|].
  intros w p [Hin|Hin]%elem_of_app; [|by apply (Hok2 w p)].
  destruct (Hok1 w p Hin)
    as (s0 & _ & (Ho1 & _) & (_ & Eg & _ & El) & ty & Hty & Hsel).
  exists ty. split.
  - apply (task_has_type_stable s0); [|done].
    eapply objects_stable_trans; [done|apply objects_stable_run].
  - intros ->. rewrite selectWorker_image in Hsel.
    rewrite (only_dedicated_gpu_no_image_worker s0) in Hsel; [done|].
    unfold only_dedicated_gpu. rewrite Eg, El. apply Honly.
Qed.

Lemma llmWorker_sticky_run acts s l :
  Forall (λ a, is_shutdown a = false) acts →
  llmWorker_ s = Some l → llmWorker_ (run processTask s acts) = Some l.
Proof.
  revert s. induction acts as [|a acts IH]; intros s Hall Hl; [done|].
  apply Forall_cons in Hall as [Ha Hall]. simpl.
  apply IH; [done|]. by apply llmWorker_sticky.
Qed.

Lemma dedicated_calls_llm_run acts s :
  Forall (λ a, is_shutdown a = false) acts →
  registry_sound s → queues_typed s → dedicated_first s →
  calls_registered s → dedicated_calls_llm s →
  dedicated_calls_llm (run processTask s acts).
Proof.
  revert s. induction acts as [|a acts IH];
    intros s Hall Hreg Hq Hfirst Hcalls Hinv; [done|].
  apply Forall_cons in Hall as [Ha Hall]. simpl. apply IH; [done|..].
  - by apply registry_sound_exec.
  - by apply ris_queues_typed_exec.
  - by apply dedicated_first_exec.
  - by apply calls_registered_exec.
  - by apply dedicated_calls_llm_exec.
Qed.

(** **** A task cancelled right after its submission *)

Lemma submit_then_cancel ty pr now s :
  let submitted := submitTask ty pr now s in
  let cancelled := cancelTask (taskId_ (Task_new ty pr now)) submitted.2 in
  submitted.1 = fresh (dom (task_objects s))
  ∧ cancelled.1 = true
  ∧ task_objects cancelled.2 !! submitted.1
    = Some (setStatus CANCELLED (Task_new ty pr now))
  ∧ in_flight cancelled.2 = in_flight s.
Proof.
  unfold submitTask, cancelTask, getStatus, store_status.
  split_sched s. destruct ty; simpl; rewrite lookup_insert_eq; simpl;
    rewrite lookup_insert_eq; simpl;
    (split_and!; [done|done| |done]);
    simpl; by rewrite lookup_alter_eq, lookup_insert_eq.
Qed.

Lemma fresh_not_in_flight s :
  queues_typed s → fresh (dom (task_objects s)) ∉ (in_flight s).*1.
Proof.
  intros [_ Hf] Hin. apply list_elem_of_fmap in Hin as ([p ty] & Hp & Hin).
  destruct (Hf p ty Hin) as [Hty _]. simpl in Hp. subst p.
  unfold task_has_type in Hty.
  destruct (task_objects s !! fresh (dom (task_objects s))) as [t|] eqn:Ht;
    [|done].
  apply (is_fresh (dom (task_objects s))). apply elem_of_dom. eauto.
Qed.

(** **** A task that finds no idle worker *)

Lemma requeued_behind_later_submission s task rest pr now :
  terminated s = false → running_ s = true →
  (length (in_flight s) < workerThreads_ s)%nat →
  llmTaskQueue_ s = task :: rest →
  getStatus s task = Some PENDING →
  selectWorker LLM_INFERENCE s = None →
  let s' := run processTask s
              [DoFetch; DoSubmit LLM_INFERENCE pr now;
               DoResume (length (in_flight s))] in
  llmTaskQueue_ s' = rest ++ [fresh (dom (task_objects s)); task]
  ∧ trace s' = trace s ∧ in_flight s' = in_flight s
  ∧ getStatus s' task = Some PENDING.
Proof.
  intros Hterm Hrun Hthreads Hq Hst Hsel s'.
  set (s1 := set_in_flight (in_flight s ++ [(task, LLM_INFERENCE)])
               (set_queue LLM_INFERENCE rest s)).
  assert (exec processTask s DoFetch = s1) as E1.
  { unfold exec. rewrite Hterm, Hrun. simpl.
    rewrite (bool_decide_eq_true_2 _ Hthreads).
    unfold dispatch_fetch. rewrite Hq. unfold check_cancelled.
    assert (getStatus (set_queue LLM_INFERENCE rest s) task = getStatus s task)
      as Hg by by split_sched s.
    rewrite bool_decide_eq_false_2 by (by rewrite Hg, Hst).
    subst s1. by split_sched s. }
  set (p := fresh (dom (task_objects s))).
  assert (task ≠ p) as Hne.
  { intros ->. unfold getStatus in Hst.
    destruct (task_objects s !! p) as [t|] eqn:Ht; [|done].
    apply (is_fresh (dom (task_objects s))). apply elem_of_dom. eauto. }
  set (s2 := (submitTask LLM_INFERENCE pr now s1).2).
  assert (exec processTask s1 (DoSubmit LLM_INFERENCE pr now) = s2) as E2.
  { unfold exec.
    assert (terminated s1 = false) as -> by (subst s1; by split_sched s).
    done. }
  assert (terminated s2 = false
          ∧ in_flight s2 = in_flight s ++ [(task, LLM_INFERENCE)]
          ∧ llmTaskQueue_ s2 = rest ++ [p] ∧ trace s2 = trace s
          ∧ task_objects s2
            = <[p := Task_new LLM_INFERENCE pr now]> (task_objects s))
    as (T2 & F2 & Q2 & Tr2 & O2).
  { subst s2 s1 p. unfold submitTask. split_sched s. simpl in *.
    by split_and!. }
  set (s3 := set_queue LLM_INFERENCE (rest ++ [p; task])
               (set_in_flight (in_flight s) s2)).
  assert (exec processTask s2 (DoResume (length (in_flight s))) = s3) as E3.
  { unfold exec. rewrite T2, F2.
    rewrite lookup_app_r by done. rewrite Nat.sub_diag. simpl.
    assert (delete (length (in_flight s))
              (in_flight s ++ [(task, LLM_INFERENCE)]) = in_flight s) as ->
      by by rewrite delete_middle, app_nil_r.
    unfold dispatch_run.
    rewrite (selectWorker_same LLM_INFERENCE s)
      by by (subst s2 s1; split_sched s).
    rewrite Hsel.
    assert (llmTaskQueue_ (set_in_flight (in_flight s) s2) = rest ++ [p])
      as -> by (clear -Q2; by split_sched s2).
    rewrite <-app_assoc. simpl. fold s3.
    assert (terminated s3 = false ∧ task_objects s3 = task_objects s2)
      as [-> O3] by (subst s3; clear -T2; by split_sched s2).
    unfold erase_if_finished, getStatus. rewrite O3, O2.
    rewrite lookup_insert_ne by done. unfold getStatus in Hst.
    by rewrite Hst. }
  subst s'. unfold run. simpl. rewrite E1, E2, E3.
  assert (llmTaskQueue_ s3 = rest ++ [p; task] ∧ trace s3 = trace s2
          ∧ in_flight s3 = in_flight s ∧ task_objects s3 = task_objects s2)
    as (-> & -> & -> & O3) by (subst s3; clear; by split_sched s2).
  split_and!; [done..|]. unfold getStatus in *. rewrite O3, O2.
  by rewrite lookup_insert_ne.
Qed.

(** **** The counts of getSystemStatus *)

Lemma filter_status_after_cancel s id p st :
  index_consistent s → tasks_ s !! id = Some p →
  let s' := set_tasks (delete id (tasks_ s)) (store_status p CANCELLED s) in
  filter (has_status s' st) (tasks_ s')
  = delete id (filter (has_status s st) (tasks_ s)).
Proof.
  intros Hidx Hp s'.
  assert (tasks_ s' = delete id (tasks_ s)) as -> by (subst s'; by split_sched s).
  rewrite <-map_filter_delete. apply map_filter_ext.
  intros id' p' [Hne Hp']%lookup_delete_Some.
  assert (p' ≠ p) as Hpp.
  { intros ->. pose proof (Hidx id p Hp) as H1.
    pose proof (Hidx id' p Hp') as H2. rewrite H1 in H2.
    by injection H2. }
  unfold has_status, getStatus. simpl.
  assert (task_objects s' !! p' = task_objects s !! p') as ->; [|done].
  subst s'. unfold store_status. split_sched s. simpl.
  by rewrite lookup_alter_ne.
Qed.

(** **** The counters *)

Lemma incr_le n : incr n ≤ n + 1.
Proof. unfold incr. apply N.Div0.mod_le. Qed.

Lemma queued_same s s' :
  (∀ ty, queue_of ty s' = queue_of ty s) → queued s' = queued s.
Proof.
  intros Hq. unfold queued.
  pose proof (Hq LLM_INFERENCE) as H1. pose proof (Hq TTS_SYNTHESIS) as H2.
  pose proof (Hq IMAGE_GENERATION) as H3. simpl in H1, H2, H3.
  by rewrite H1, H2, H3.
Qed.

Lemma counted_more_refl s : counted_more 0 s s.
Proof. unfold counted_more. split_and!; [done..|]. lia. Qed.

Lemma counted_more_trans k1 k2 s1 s2 s3 :
  counted_more k1 s1 s2 → counted_more k2 s2 s3 →
  counted_more (k1 + k2) s1 s3.
Proof.
  intros (T1 & F1 & C1) (T2 & F2 & C2). unfold counted_more.
  split_and!; [congruence..|]. lia.
Qed.

Lemma counted_more_weaken k k' s s' :
  (k ≤ k')%nat → counted_more k s s' → counted_more k' s s'.
Proof.
  intros Hk (T & F & C). unfold counted_more. split_and!; [done..|]. lia.
Qed.

Lemma counted_more_run_worker prefix w task s :
  counted_more 1 s (run_worker processTask prefix w task s).
Proof.
  pose proof (queued_same s _ (queues_run_worker prefix w task s)) as Hq.
  unfold counted_more. rewrite Hq. revert Hq. unfold run_worker.
  destruct (worker_objects s !! w) as [wo|];
    [|intros _; split_and!; [done..|lia]].
  destruct (task_objects s !! task) as [t|];
    [|intros _; split_and!; [done..|lia]].
  intros _.
  pose proof (incr_le (completedTasks_ s)).
  pose proof (incr_le (failedTasks_ s)).
  destruct (processTask wo t) as [st res ex [[what|]|]];
    split_sched s; simpl in *; try destruct st; simpl;
    (split_and!; [done..|lia]).
Qed.

Lemma counted_more_erase_if_finished task s :
  counted_more 0 s (erase_if_finished task s).
Proof.
  destruct (same_erase_if_finished task s) as (_ & _ & Hq & Ht & Hc & Hf).
  unfold counted_more. rewrite (queued_same s _ Hq), Ht, Hc, Hf.
  split_and!; [done| |lia].
  unfold erase_if_finished, erase_task_id.
  destruct (getStatus s task) as [[]|]; try done;
    destruct (getTaskId s task); try done; by split_sched s.
Qed.

Lemma counted_more_dispatch_run task ty s :
  counted_more 1 s (dispatch_run processTask task ty s).
Proof.
  unfold dispatch_run.
  set (s1 := match selectWorker ty s with Some _ => _ | None => _ end).
  assert (counted_more 1 s s1) as H1.
  { subst s1. destruct (selectWorker ty s);
      [apply counted_more_run_worker|].
    unfold counted_more, queued.
    destruct ty; split_sched s; simpl; rewrite ?length_app; simpl;
      (split_and!; [done..|lia]). }
  destruct (terminated s1); [done|].
  apply (counted_more_trans 1 0 s s1); [done|].
  apply counted_more_erase_if_finished.
Qed.

Lemma counted_more_image s :
  counted_more 0 s (processImageGenerationQueue processTask s).
Proof.
  unfold processImageGenerationQueue.
  destruct (imageTaskQueue_ s) as [|task rest] eqn:Hq;
    [apply counted_more_refl|].
  set (s1 := set_queue IMAGE_GENERATION rest s).
  assert (totalTasks_ s1 = totalTasks_ s ∧ in_flight s1 = in_flight s
          ∧ completedTasks_ s1 = completedTasks_ s
          ∧ failedTasks_ s1 = failedTasks_ s
          ∧ S (queued s1) = queued s ∧ imageTaskQueue_ s1 = rest)
    as (T1 & F1 & C1 & E1 & Q1 & I1).
  { subst s1. unfold queued. split_sched s. simpl in *. subst.
    split_and!; try done; simpl; lia. }
  destruct (_ || _).
  { unfold counted_more. split_and!; [done..|]. lia. }
  set (s2 := match select_image_worker s1 with Some _ => _ | None => _ end).
  assert (counted_more 1 s1 s2) as (T2 & F2 & C2).
  { subst s2. destruct (select_image_worker s1);
      [apply counted_more_run_worker|].
    unfold counted_more, queued. clearbody s1. clear.
    split_sched s1; simpl; rewrite ?length_app; simpl.
    split_and!; [done..|lia]. }
  assert (counted_more 0 s s2) as H2.
  { unfold counted_more. split_and!; [congruence..|]. lia. }
  destruct (terminated s2); [done|].
  apply (counted_more_trans 0 0 s s2); [done|].
  apply counted_more_erase_if_finished.
Qed.

Lemma counted_more_finish_all l acc :
  counted_more (length l) acc (foldl (finish_one processTask) acc l).
Proof.
  revert acc. induction l as [|[task ty] l IH]; intros acc;
    [apply counted_more_refl|].
  simpl.
  apply (counted_more_trans 1 (length l) acc
           (if terminated acc then acc
            else dispatch_run processTask task ty acc)); [|apply IH].
  destruct (terminated acc);
    [apply (counted_more_weaken 0); [lia|apply counted_more_refl]|].
  apply counted_more_dispatch_run.
Qed.

Lemma counts_dispatch_fetch s :
  totalTasks_ (dispatch_fetch s).2 = totalTasks_ s
  ∧ completedTasks_ (dispatch_fetch s).2 = completedTasks_ s
  ∧ failedTasks_ (dispatch_fetch s).2 = failedTasks_ s
  ∧ in_flight (dispatch_fetch s).2 = in_flight s
  ∧ (queued (dispatch_fetch s).2
     + match (dispatch_fetch s).1 with Taken _ _ => 1 | _ => 0 end
     ≤ queued s)%nat.
Proof.
  assert (∀ task ty0 s0,
            totalTasks_ (check_cancelled task ty0 s0).2 = totalTasks_ s0
            ∧ completedTasks_ (check_cancelled task ty0 s0).2
              = completedTasks_ s0
            ∧ failedTasks_ (check_cancelled task ty0 s0).2 = failedTasks_ s0
            ∧ in_flight (check_cancelled task ty0 s0).2 = in_flight s0
            ∧ queued (check_cancelled task ty0 s0).2 = queued s0) as Hcheck.
  { intros task ty0 s0. unfold check_cancelled, erase_task_id, queued.
    case_bool_decide; simpl; [|done].
    destruct (getTaskId s0 task); [|done]. by split_sched s0. }
  unfold dispatch_fetch.
  destruct (llmTaskQueue_ s) as [|t1 r1] eqn:Hl.
  - destruct (ttsTaskQueue_ s) as [|t2 r2] eqn:Ht.
    { simpl. split_and!; [done..|lia]. }
    destruct (Hcheck t2 TTS_SYNTHESIS (set_queue TTS_SYNTHESIS r2 s))
      as (-> & -> & -> & -> & ->).
    assert (S (queued (set_queue TTS_SYNTHESIS r2 s)) = queued s) as <-
      by (unfold queued; split_sched s; simpl in *; subst; simpl; lia).
    split_and!; try by split_sched s.
    unfold check_cancelled. case_bool_decide; simpl; lia.
  - destruct (Hcheck t1 LLM_INFERENCE (set_queue LLM_INFERENCE r1 s))
      as (-> & -> & -> & -> & ->).
    assert (S (queued (set_queue LLM_INFERENCE r1 s)) = queued s) as <-
      by (unfold queued; split_sched s; simpl in *; subst; simpl; lia).
    split_and!; try by split_sched s.
    unfold check_cancelled. case_bool_decide; simpl; lia.
Qed.

Lemma accounted_new ws : accounted (ResourceIsolationScheduler_new ws).
Proof. unfold accounted, waiting, queued. simpl. lia. Qed.

Lemma accounted_same s s' :
  accounted s →
  totalTasks_ s' = totalTasks_ s →
  completedTasks_ s' = completedTasks_ s →
  failedTasks_ s' = failedTasks_ s →
  in_flight s' = in_flight s →
  (∀ ty, queue_of ty s' = queue_of ty s) →
  accounted s' ∧ totalTasks_ s' ≤ totalTasks_ s.
Proof.
  intros Hinv T C F Fl Q. unfold accounted, waiting.
  rewrite T, C, F, Fl, (queued_same s s' Q). split; [done|lia].
Qed.

Lemma accounted_more k s0 s' :
  counted_more k s0 s' →
  completedTasks_ s0 + failedTasks_ s0
  + N.of_nat (queued s0 + k + length (in_flight s0))
  ≤ totalTasks_ s0 →
  accounted s'.
Proof.
  intros (T & Fl & C) Hle. unfold accounted, waiting.
  rewrite T, Fl. lia.
Qed.

Lemma accounted_join_step s step :
  accounted s →
  accounted (join_step processTask s step)
  ∧ totalTasks_ (join_step processTask s step) ≤ totalTasks_ s.
Proof.
  intros Hinv.
  pose proof (accounted_same s) as Hsame.
  pose proof accounted_more as Hmore.
  unfold join_step. destruct (terminated s); [split; [done|lia]|].
  destruct step as [|i| |w b].
  - destruct (counts_dispatch_fetch s) as (T & C & F & Fl & Q).
    destruct (dispatch_fetch s) as [[|task0|task ty] s1]; simpl in *.
    + unfold accounted, waiting in *. rewrite T, C, F, Fl. split; lia.
    + unfold accounted, waiting in *. rewrite T, C, F, Fl. split; lia.
    + assert (accounted (set_in_flight (in_flight s1 ++ [(task, ty)]) s1)
              ↔ completedTasks_ s1 + failedTasks_ s1
                + N.of_nat (queued s1 + S (length (in_flight s1)))
                ≤ totalTasks_ s1) as ->.
      { unfold accounted, waiting, queued. split_sched s1. simpl.
        rewrite length_app. simpl. by rewrite Nat.add_1_r. }
      assert (totalTasks_ (set_in_flight (in_flight s1 ++ [(task, ty)]) s1)
              = totalTasks_ s1) as -> by by split_sched s1.
      unfold accounted, waiting in Hinv. rewrite T, C, F, Fl. split; lia.
  - destruct (in_flight s !! i) as [[task ty]|] eqn:Hi;
      [|split; [done|lia]].
    set (s0 := set_in_flight (delete i (in_flight s)) s).
    pose proof (counted_more_dispatch_run task ty s0) as Hrun.
    assert (totalTasks_ s0 = totalTasks_ s
            ∧ completedTasks_ s0 = completedTasks_ s
            ∧ failedTasks_ s0 = failedTasks_ s ∧ queued s0 = queued s
            ∧ in_flight s0 = delete i (in_flight s))
      as (T & C & F & Q & Fl) by (subst s0; unfold queued; by split_sched s).
    pose proof (length_delete (in_flight s) i (mk_is_Some _ _ Hi)) as Hlen.
    pose proof (lookup_lt_Some _ _ _ Hi) as Hlt.
    split.
    + apply (Hmore 1%nat s0); [done|]. rewrite T, C, F, Q, Fl, Hlen.
      unfold accounted, waiting in Hinv. lia.
    + destruct Hrun as (-> & _). lia.
  - pose proof (counted_more_image s) as Hrun. split.
    + apply (Hmore 0%nat s); [done|]. unfold accounted, waiting in Hinv. lia.
    + destruct Hrun as (-> & _). lia.
  - apply Hsame; try done; try (by split_sched s);
      intros ty; split_sched s; by destruct ty.
Qed.

Lemma accounted_join_threads s :
  accounted s →
  accounted (join_threads processTask s)
  ∧ totalTasks_ (join_threads processTask s) ≤ totalTasks_ s.
Proof.
  intros Hinv. rewrite join_threads_unfold.
  set (s0 := set_in_flight [] s).
  pose proof (counted_more_finish_all (in_flight s) s0) as Hrun.
  assert (totalTasks_ s0 = totalTasks_ s
          ∧ completedTasks_ s0 = completedTasks_ s
          ∧ failedTasks_ s0 = failedTasks_ s ∧ queued s0 = queued s
          ∧ in_flight s0 = [])
    as (T & C & F & Q & Fl)
    by (subst s0; unfold queued; by split_sched s).
  revert Hrun.
  generalize (foldl (finish_one processTask) s0 (in_flight s)).
  intros s2 Hrun. split.
  - apply (accounted_more (length (in_flight s)) s0); [done|].
    rewrite T, C, F, Q, Fl. unfold accounted, waiting in Hinv.
    simpl. lia.
  - destruct Hrun as (-> & _). lia.
Qed.

Lemma accounted_shutdown steps s :
  accounted s →
  accounted (shutdown processTask steps s)
  ∧ totalTasks_ (shutdown processTask steps s) ≤ totalTasks_ s.
Proof.
  intros Hinv. unfold shutdown.
  destruct (initialized_ s); [|split; [done|lia]].
  set (s0 := set_threads _ _ _ _ s).
  assert (accounted s0 ∧ totalTasks_ s0 ≤ totalTasks_ s) as H0.
  { apply accounted_same; try done; subst s0; try (by split_sched s);
      intros ty; split_sched s; by destruct ty. }
  assert (accounted (late_work processTask steps s0)
          ∧ totalTasks_ (late_work processTask steps s0) ≤ totalTasks_ s)
    as [H1 T1].
  { apply (late_work_ind processTask
             (λ acc, accounted acc ∧ totalTasks_ acc ≤ totalTasks_ s));
      [|done].
    intros acc step [Hacc Htot].
    destruct (accounted_join_step acc step Hacc). split; [done|lia]. }
  destruct (accounted_join_threads _ H1) as [Hacc Htot].
  revert Hacc Htot.
  generalize (join_threads processTask (late_work processTask steps s0)).
  intros s2 Hacc Htot.
  assert (totalTasks_ s2 ≤ totalTasks_ s) as Htot' by lia.
  destruct (terminated s2); [done|].
  unfold accounted, waiting, queued in *. clear -Hacc Htot'.
  split_sched s2. simpl in *. split; lia.
Qed.

Lemma accounted_exec s a :
  (is_submit a = true → totalTasks_ s + 1 < size_t_modulus) →
  accounted s →
  accounted (exec processTask s a)
  ∧ totalTasks_ (exec processTask s a)
    ≤ totalTasks_ s + (if is_submit a then 1 else 0).
Proof.
  intros Hwrap Hinv.
  pose proof (accounted_same s) as Hsame.
  pose proof (λ step, accounted_join_step s step Hinv) as Hstep.
  unfold join_step in Hstep.
  unfold exec. destruct (terminated s).
  { split; [done|]. destruct (is_submit a); lia. }
  destruct a as [n|w|ty pr now|id| |i| |steps|w b]; simpl.
  - rewrite N.add_0_r. apply Hsame; try done; unfold initialize;
      destruct (initialized_ s); try done; try (by split_sched s);
      intros ty; split_sched s; by destruct ty.
  - rewrite N.add_0_r. unfold addWorker. destruct w as [w|];
      [|by apply Hsame].
    destruct (worker_objects s !! w) as [wo|]; [|by apply Hsame].
    destruct (initialize_throws wo);
      [apply Hsame; try done; try (by split_sched s);
       intros ty; split_sched s; by destruct ty|].
    destruct (canHandle wo LLM_INFERENCE || canHandle wo IMAGE_GENERATION);
      [|destruct (canHandle wo TTS_SYNTHESIS)];
      (apply Hsame; try done; try (by split_sched s);
       intros ty; split_sched s; by destruct ty).
  - specialize (Hwrap eq_refl). unfold accounted, waiting, queued in *.
    unfold submitTask, incr.
    split_sched s. destruct ty; simpl in *; rewrite ?length_app; simpl;
      rewrite (N.mod_small _ _ Hwrap); split; lia.
  - rewrite N.add_0_r. unfold cancelTask.
    destruct (tasks_ s !! id) as [p|]; [|by apply Hsame].
    case_bool_decide; [|by apply Hsame]. simpl.
    apply Hsame; try done; unfold store_status; try (by split_sched s);
      intros ty; split_sched s; by destruct ty.
  - rewrite N.add_0_r.
    destruct (running_ s && _); [|by apply Hsame].
    apply (Hstep JoinFetch).
  - rewrite N.add_0_r. apply (Hstep (JoinResume i)).
  - rewrite N.add_0_r.
    destruct (running_ s && imageQueueThread_ s); [|by apply Hsame].
    apply (Hstep JoinImage).
  - rewrite N.add_0_r. by apply accounted_shutdown.
  - rewrite N.add_0_r. apply (Hstep (JoinBusy w b)).
Qed.

Lemma accounted_run acts s :
  totalTasks_ s + N.of_nat (length (filter (λ a, is_submit a = true) acts))
  < size_t_modulus →
  accounted s → accounted (run processTask s acts).
Proof.
  revert s. induction acts as [|a acts IH]; intros s Hwrap Hinv; [done|].
  simpl. rewrite filter_cons in Hwrap.
  destruct (accounted_exec s a) as [Hacc Htot]; [|done|].
  { intros Ha. rewrite decide_True in Hwrap by done. simpl in Hwrap. lia. }
  apply IH; [|done].
  destruct (is_submit a) eqn:Ha.
  - rewrite decide_True in Hwrap by done. simpl in Hwrap. lia.
  - rewrite decide_False in Hwrap by congruence. lia.
Qed.

End WithWorkers.

End RISMoreFacts.

(** *** ResourceIsolationScheduler: who is given which task *)

(** processTaskQueues, processImageGenerationQueue, selectWorker and
    addWorker together: in every run from the constructor, every call of
    [processTask] was made on a worker that can handle the type of the task
    it was given. *)
Theorem ris_worker_handles_type_of_its_task processTask workers acts w p :
  let s := RIS.run processTask (RIS.ResourceIsolationScheduler_new workers)
             acts in
  RIS.EvProcessTask w p ∈ RIS.trace s →
  ∃ wo t, RIS.worker_objects s !! w = Some wo
          ∧ RIS.task_objects s !! p = Some t
          ∧ RIS.canHandle wo (RIS.type_ t) = true.
Proof.
  intros s Hin.
  destruct (RISMoreFacts.sound_run processTask acts
              (RIS.ResourceIsolationScheduler_new workers)
              (RISMoreFacts.sound_new workers)) as (_ & _ & _ & Htr).
  by apply Htr.
Qed.

Lemma ris_worker_handles_type_witness :
  RIS.EvProcessTask 1%nat 1%nat
    ∈ RIS.trace (RIS.run Scenarios.worker_completes
                   (RIS.ResourceIsolationScheduler_new Scenarios.three_workers)
                   Scenarios.mixed_run)
  ∧ ∃ wo t,
      RIS.worker_objects
        (RIS.run Scenarios.worker_completes
           (RIS.ResourceIsolationScheduler_new Scenarios.three_workers)
           Scenarios.mixed_run) !! 1%nat = Some wo
      ∧ RIS.task_objects
          (RIS.run Scenarios.worker_completes
             (RIS.ResourceIsolationScheduler_new Scenarios.three_workers)
             Scenarios.mixed_run) !! 1%nat = Some t
      ∧ RIS.canHandle wo (RIS.type_ t) = true.
Proof.
  assert (RIS.EvProcessTask 1%nat 1%nat
            ∈ RIS.trace (RIS.run Scenarios.worker_completes
                           (RIS.ResourceIsolationScheduler_new
                              Scenarios.three_workers)
                           Scenarios.mixed_run)) as Hin.
  { vm_compute. repeat constructor. }
  split; [done|].
  by apply (ris_worker_handles_type_of_its_task Scenarios.worker_completes
              Scenarios.three_workers Scenarios.mixed_run 1%nat 1%nat).
Defined.

(** addWorker and selectWorker: in every run from the constructor, a TTS
    task was only ever given to a worker of the CPU pool, that is, to a
    worker that handles neither LLM nor image work. *)
Theorem ris_tts_task_runs_on_cpu_worker processTask workers acts w p :
  let s := RIS.run processTask (RIS.ResourceIsolationScheduler_new workers)
             acts in
  RIS.EvProcessTask w p ∈ RIS.trace s →
  RIS.type_ <$> RIS.task_objects s !! p = Some RIS.TTS_SYNTHESIS →
  ∃ wo, RIS.worker_objects s !! w = Some wo
        ∧ RIS.canHandle wo RIS.LLM_INFERENCE = false
        ∧ RIS.canHandle wo RIS.IMAGE_GENERATION = false.
Proof.
  intros s Hin Hty.
  destruct (RISMoreFacts.trace_isolated_run processTask acts
              (RIS.ResourceIsolationScheduler_new workers)
              (RISMoreFacts.sound_new workers)
              (RISMoreFacts.registry_initialized_new workers)) with w p
    as (wo & t & Hwo & Ht & _ & Htts); [|done|].
  { intros w' p' Hin'. by apply elem_of_nil in Hin'. }
  fold s in Hwo, Ht. rewrite Ht in Hty. simpl in Hty.
  injection Hty as Hty. exists wo. split; [done|]. by apply Htts.
Qed.

Lemma ris_tts_task_runs_on_cpu_worker_witness :
  ∃ wo,
    RIS.worker_objects
      (RIS.run Scenarios.worker_completes
         (RIS.ResourceIsolationScheduler_new Scenarios.three_workers)
         Scenarios.mixed_run) !! 1%nat = Some wo
    ∧ RIS.canHandle wo RIS.LLM_INFERENCE = false
    ∧ RIS.canHandle wo RIS.IMAGE_GENERATION = false.
Proof.
  apply (ris_tts_task_runs_on_cpu_worker Scenarios.worker_completes
           Scenarios.three_workers Scenarios.mixed_run 1%nat 1%nat).
  - vm_compute. repeat constructor.
  - by vm_compute.
Defined.

(** addWorker catches the exception of a worker whose [initialize]
    throws: in every run from the constructor no task is ever given to
    such a worker. *)
Theorem ris_worker_that_failed_to_initialize_is_never_called
    processTask workers acts w wo p :
  workers !! w = Some wo →
  RIS.initialize_throws wo = true →
  ¬ (RIS.EvProcessTask w p
       ∈ RIS.trace (RIS.run processTask
                      (RIS.ResourceIsolationScheduler_new workers) acts)).
Proof.
  intros Hw Hthrows Hin.
  destruct (RISMoreFacts.trace_isolated_run processTask acts
              (RIS.ResourceIsolationScheduler_new workers)
              (RISMoreFacts.sound_new workers)
              (RISMoreFacts.registry_initialized_new workers)) with w p
    as (wo' & t & Hwo' & _ & Hok & _); [|done|].
  { intros w' p' Hin'. by apply elem_of_nil in Hin'. }
  destruct (RISMoreFacts.workers_stable_run processTask acts
              (RIS.ResourceIsolationScheduler_new workers) w wo Hw)
    as (wo'' & Hwo'' & _ & _ & Esame).
  rewrite Hwo' in Hwo''. injection Hwo'' as <-. congruence.
Qed.

Lemma ris_worker_that_failed_to_initialize_witness :
  RIS.ttsTaskQueue_
    (RIS.run Scenarios.worker_completes
       (RIS.ResourceIsolationScheduler_new Scenarios.faulty_worker)
       Scenarios.faulty_run) = [0%nat]
  ∧ ¬ (RIS.EvProcessTask 0%nat 0%nat
         ∈ RIS.trace (RIS.run Scenarios.worker_completes
                        (RIS.ResourceIsolationScheduler_new
                           Scenarios.faulty_worker)
                        Scenarios.faulty_run)).
Proof.
  split; [by vm_compute|].
  apply (ris_worker_that_failed_to_initialize_is_never_called
           Scenarios.worker_completes Scenarios.faulty_worker
           Scenarios.faulty_run 0%nat
           (RIS.mkWorker "cpu-tts" [RIS.TTS_SYNTHESIS] false true
              "no voice model") 0%nat);
    by vm_compute.
Defined.

(** addWorker, selectWorker and both dispatch loops: in a run from the
    constructor without shutdown, the worker that is the dedicated LLM
    worker at the end has never been given anything but LLM tasks. *)
Theorem ris_dedicated_worker_ran_only_llm_tasks processTask workers acts l p :
  let s := RIS.run processTask (RIS.ResourceIsolationScheduler_new workers)
             acts in
  Forall (λ a, RIS.is_shutdown a = false) acts →
  RIS.llmWorker_ s = Some l →
  RIS.EvProcessTask l p ∈ RIS.trace s →
  RIS.type_ <$> RIS.task_objects s !! p = Some RIS.LLM_INFERENCE.
Proof.
  intros s Hall Hl Hin.
  assert (Invariants.dedicated_calls_llm s) as Hinv.
  { apply RISMoreFacts.dedicated_calls_llm_run; [done|..].
    - apply RISMoreFacts.registry_sound_new.
    - apply RISMoreFacts.ris_queues_typed_new.
    - apply RISMoreFacts.dedicated_first_new.
    - intros w' p' Hin'. by apply elem_of_nil in Hin'.
    - intros l' p' _ Hin'. by apply elem_of_nil in Hin'. }
  by apply (Hinv l p).
Qed.

Lemma ris_dedicated_worker_ran_only_llm_witness :
  RIS.type_
    <$> RIS.task_objects
          (RIS.run Scenarios.worker_completes
             (RIS.ResourceIsolationScheduler_new Scenarios.three_workers)
             Scenarios.mixed_run) !! 0%nat
  = Some RIS.LLM_INFERENCE.
Proof.
  apply (ris_dedicated_worker_ran_only_llm_tasks Scenarios.worker_completes
           Scenarios.three_workers Scenarios.mixed_run 0%nat 0%nat).
  - repeat constructor.
  - by vm_compute.
  - vm_compute. repeat constructor.
Defined.

(** addWorker: the first worker registered that can handle LLM work
    becomes the dedicated LLM worker, and no later action other than
    shutdown replaces it. *)
Theorem ris_first_llm_worker_stays_dedicated processTask s w wo acts :
  RIS.llmWorker_ s = None →
  RIS.worker_objects s !! w = Some wo →
  RIS.initialize_throws wo = false →
  RIS.canHandle wo RIS.LLM_INFERENCE = true →
  Forall (λ a, RIS.is_shutdown a = false) acts →
  (RIS.addWorker (Some w) s).1 = true
  ∧ RIS.llmWorker_ (RIS.run processTask (RIS.addWorker (Some w) s).2 acts)
    = Some w.
Proof.
  intros Hl Hw Hthrows Hcap Hall.
  assert ((RIS.addWorker (Some w) s).1 = true
          ∧ RIS.llmWorker_ (RIS.addWorker (Some w) s).2 = Some w)
    as [Hret Hded].
  { unfold RIS.addWorker. rewrite Hw, Hthrows, Hcap, Hl. simpl.
    split; [done|]. by RISFacts.split_sched s. }
  split; [done|]. by apply RISMoreFacts.llmWorker_sticky_run.
Qed.

Lemma ris_first_llm_worker_stays_dedicated_witness :
  (RIS.addWorker (Some 0%nat)
     (RIS.ResourceIsolationScheduler_new Scenarios.three_workers)).1 = true
  ∧ RIS.llmWorker_
      (RIS.run Scenarios.worker_completes
         (RIS.addWorker (Some 0%nat)
            (RIS.ResourceIsolationScheduler_new Scenarios.three_workers)).2
         [RIS.DoAddWorker (Some 2%nat); RIS.DoAddWorker (Some 0%nat)])
    = Some 0%nat.
Proof.
  apply (ris_first_llm_worker_stays_dedicated Scenarios.worker_completes
           (RIS.ResourceIsolationScheduler_new Scenarios.three_workers)
           0%nat
           (RIS.mkWorker "gpu-all"
              [RIS.LLM_INFERENCE; RIS.TTS_SYNTHESIS; RIS.IMAGE_GENERATION]
              false false ""));
    try by vm_compute.
  repeat constructor.
Defined.

(** processImageGenerationQueue and selectWorker: when every worker of
    the GPU pool is the dedicated LLM worker, no image task is given to any
    worker, whatever is done afterwards, until another worker is added. *)
Theorem ris_image_tasks_starve_behind_dedicated_worker
    processTask workers before acts :
  let s := RIS.run processTask (RIS.ResourceIsolationScheduler_new workers)
             before in
  let s' := RIS.run processTask s acts in
  Invariants.only_dedicated_gpu s →
  Forall (λ a, RIS.is_addWorker a = false) acts →
  ∃ new, RIS.trace s' = RIS.trace s ++ new
         ∧ ∀ w p, RIS.EvProcessTask w p ∈ new →
                  RIS.type_ <$> RIS.task_objects s' !! p
                  ≠ Some RIS.IMAGE_GENERATION.
Proof.
  intros s s' Honly Hall.
  destruct (RISMoreFacts.sound_run processTask before
              (RIS.ResourceIsolationScheduler_new workers)
              (RISMoreFacts.sound_new workers)) as (Hreg & Hq & _).
  destruct (RISMoreFacts.no_image_calls_run processTask acts s
              Hreg Hq Honly Hall) as (new & Hnew & Hok).
  exists new. split; [done|]. intros w p Hin.
  destruct (Hok w p Hin) as (ty & Hty & Hne).
  unfold Invariants.task_has_type in Hty. fold s' in Hty. rewrite Hty.
  congruence.
Qed.

Lemma ris_image_tasks_starve_witness :
  RIS.imageTaskQueue_ Scenarios.single_gpu_waiting = [0%nat]
  ∧ RIS.getStatus
      (RIS.run Scenarios.worker_completes Scenarios.single_gpu_waiting
         [RIS.DoImage; RIS.DoImage; RIS.DoFetch])
      0%nat = Some RIS.PENDING
  ∧ ∃ new,
      RIS.trace
        (RIS.run Scenarios.worker_completes Scenarios.single_gpu_waiting
           [RIS.DoImage; RIS.DoImage; RIS.DoFetch])
      = RIS.trace Scenarios.single_gpu_waiting ++ new
      ∧ ∀ w p, RIS.EvProcessTask w p ∈ new →
               RIS.type_
                 <$> RIS.task_objects
                       (RIS.run Scenarios.worker_completes
                          Scenarios.single_gpu_waiting
                          [RIS.DoImage; RIS.DoImage; RIS.DoFetch]) !! p
               ≠ Some RIS.IMAGE_GENERATION.
Proof.
  split; [by vm_compute|]. split; [by vm_compute|].
  apply (ris_image_tasks_starve_behind_dedicated_worker
           Scenarios.worker_completes Scenarios.single_gpu
           Scenarios.single_gpu_setup
           [RIS.DoImage; RIS.DoImage; RIS.DoFetch]).
  - intros w Hin. vm_compute in Hin. apply list_elem_of_singleton in Hin.
    subst w. by vm_compute.
  - repeat constructor.
Defined.

(** submitTask, cancelTask and the erasures of the dispatch loops: in
    every run from the constructor, every entry of [tasks_] leads to a task
    object that carries the id it is filed under. *)
Theorem ris_index_entry_leads_to_task_with_that_id
    processTask workers acts id p :
  let s := RIS.run processTask (RIS.ResourceIsolationScheduler_new workers)
             acts in
  RIS.tasks_ s !! id = Some p → RIS.getTaskId s p = Some id.
Proof.
  intros s Hp.
  destruct (RISMoreFacts.sound_run processTask acts
              (RIS.ResourceIsolationScheduler_new workers)
              (RISMoreFacts.sound_new workers)) as (_ & _ & Hidx & _).
  by apply Hidx.
Qed.

Lemma ris_index_entry_witness :
  RIS.getTaskId Scenarios.ris_s2 1%nat = Some "task_101".
Proof.
  apply (ris_index_entry_leads_to_task_with_that_id Scenarios.worker_completes
           Scenarios.three_workers
           (Scenarios.register_three
            ++ [RIS.DoSubmit RIS.TTS_SYNTHESIS RIS.LOW 100;
                RIS.DoSubmit RIS.TTS_SYNTHESIS RIS.HIGH 101;
                RIS.DoSubmit RIS.TTS_SYNTHESIS RIS.MEDIUM 102])
           "task_101" 1%nat).
  by vm_compute.
Defined.

(** selectWorker after addWorker: in every state reached from the
    constructor, the worker that selectWorker returns is registered in
    [workers_], can handle the requested type and is not busy. *)
Theorem ris_selected_worker_is_registered_able_and_idle
    processTask workers acts ty w :
  let s := RIS.run processTask (RIS.ResourceIsolationScheduler_new workers)
             acts in
  RIS.selectWorker ty s = Some w →
  w ∈ RIS.workers_ s
  ∧ ∃ wo, RIS.worker_objects s !! w = Some wo
          ∧ RIS.canHandle wo ty = true ∧ RIS.isBusy wo = false.
Proof.
  intros s Hsel.
  destruct (RISMoreFacts.sound_run processTask acts
              (RIS.ResourceIsolationScheduler_new workers)
              (RISMoreFacts.sound_new workers)) as (Hreg & _).
  by apply RISMoreFacts.selectWorker_sound.
Qed.

Lemma ris_selected_worker_witness :
  1%nat ∈ RIS.workers_ Scenarios.ris_ready
  ∧ ∃ wo, RIS.worker_objects Scenarios.ris_ready !! 1%nat = Some wo
          ∧ RIS.canHandle wo RIS.TTS_SYNTHESIS = true
          ∧ RIS.isBusy wo = false.
Proof.
  apply (ris_selected_worker_is_registered_able_and_idle
           Scenarios.worker_completes Scenarios.three_workers
           Scenarios.register_three RIS.TTS_SYNTHESIS 1%nat).
  by vm_compute.
Defined.

(** *** ResourceIsolationScheduler: what callers get back *)

(** The future that submitTask returns, together with cancelTask: a task
    cancelled before any dispatch thread took it keeps the status CANCELLED
    and never gets a result or an exception, whatever happens afterwards,
    so the deferred function behind the future leaves its loop and
    dereferences a null result pointer. *)
Theorem ris_future_of_cancelled_task_has_no_result
    processTask workers before ty pr now acts :
  let s := RIS.run processTask (RIS.ResourceIsolationScheduler_new workers)
             before in
  let submitted := RIS.submitTask ty pr now s in
  let cancelled :=
    RIS.cancelTask (RIS.taskId_ (RIS.Task_new ty pr now)) submitted.2 in
  let s' := RIS.run processTask cancelled.2 acts in
  cancelled.1 = true
  ∧ ∃ t, RIS.task_objects s' !! submitted.1 = Some t
         ∧ RIS.status_ t = RIS.CANCELLED
         ∧ RIS.future_get [t] = Some RIS.NullDereference.
Proof.
  intros s submitted cancelled s'.
  destruct (RISMoreFacts.submit_then_cancel ty pr now s)
    as (Hp & Hret & Hobj & Hfl).
  fold submitted in Hp, Hret, Hobj, Hfl. fold cancelled in Hret, Hobj, Hfl.
  split; [done|].
  destruct (RISMoreFacts.sound_run processTask before
              (RIS.ResourceIsolationScheduler_new workers)
              (RISMoreFacts.sound_new workers)) as (_ & Hq & _).
  fold s in Hq.
  assert (Invariants.cancelled_and_idle submitted.1 cancelled.2) as Hc.
  { split.
    - unfold RIS.getStatus. by rewrite Hobj.
    - rewrite Hfl, Hp. by apply RISMoreFacts.fresh_not_in_flight. }
  destruct (RISFacts.run_cancelled processTask submitted.1 acts cancelled.2 Hc)
    as [_ [Hsame _]].
  fold s' in Hsame. rewrite Hobj in Hsame.
  exists (RIS.setStatus RIS.CANCELLED (RIS.Task_new ty pr now)).
  by split_and!.
Qed.

(** getSystemStatus after cancelTask: in every state reached from the
    constructor, a cancelTask that returns true lowers the reported number
    of pending tasks by exactly one and leaves every other reported number
    and the worker states as they were. *)
Theorem ris_cancel_lowers_pending_count processTask workers acts id :
  let s := RIS.run processTask (RIS.ResourceIsolationScheduler_new workers)
             acts in
  (RIS.cancelTask id s).1 = true →
  let before := RIS.getSystemStatus s in
  let after := RIS.getSystemStatus (RIS.cancelTask id s).2 in
  RIS.pendingTasks after + 1 = RIS.pendingTasks before
  ∧ RIS.runningTasks after = RIS.runningTasks before
  ∧ RIS.totalTasks after = RIS.totalTasks before
  ∧ RIS.completedTasks after = RIS.completedTasks before
  ∧ RIS.failedTasks after = RIS.failedTasks before
  ∧ RIS.workerStatus after = RIS.workerStatus before.
Proof.
  intros s.
  destruct (RISMoreFacts.sound_run processTask acts
              (RIS.ResourceIsolationScheduler_new workers)
              (RISMoreFacts.sound_new workers)) as (_ & _ & Hidx & _).
  fold s in Hidx. unfold RIS.cancelTask.
  destruct (RIS.tasks_ s !! id) as [p|] eqn:Hp; [|done].
  case_bool_decide as Hst; [|done]. simpl. intros _.
  unfold RIS.getSystemStatus. simpl.
  rewrite !(RISMoreFacts.filter_status_after_cancel s id p _ Hidx Hp).
  split_and!.
  - assert (filter (RIS.has_status s RIS.PENDING) (RIS.tasks_ s) !! id
            = Some p) as Hin by by apply map_lookup_filter_Some_2.
    rewrite map_size_delete_Some by eauto.
    pose proof (map_size_ne_0_lookup_2 _ id (mk_is_Some _ _ Hin)). lia.
  - rewrite delete_id; [done|]. apply map_lookup_filter_None_2. right.
    intros p' Hp' Hrun. rewrite Hp in Hp'. injection Hp' as <-.
    unfold RIS.has_status in Hrun. simpl in Hrun. congruence.
  - by RISFacts.split_sched s.
  - by RISFacts.split_sched s.
  - by RISFacts.split_sched s.
  - unfold RIS.store_status.
    assert (∀ o i,
              RIS.worker_objects (RIS.set_tasks i (RIS.set_task_objects o s))
              = RIS.worker_objects s
              ∧ RIS.workers_ (RIS.set_tasks i (RIS.set_task_objects o s))
                = RIS.workers_ s) as Hsame
      by (intros o i; by RISFacts.split_sched s).
    destruct (Hsame (alter (RIS.setStatus RIS.CANCELLED) p (RIS.task_objects s))
                (delete id (RIS.tasks_ s))) as [-> ->].
    done.
Qed.

Lemma ris_cancel_lowers_pending_count_witness :
  RIS.pendingTasks
    (RIS.getSystemStatus (RIS.cancelTask "task_100" Scenarios.ris_one_llm).2)
  + 1
  = RIS.pendingTasks (RIS.getSystemStatus Scenarios.ris_one_llm).
Proof.
  destruct (ris_cancel_lowers_pending_count Scenarios.worker_completes
              Scenarios.three_workers
              (Scenarios.register_three
               ++ [RIS.DoSubmit RIS.LLM_INFERENCE RIS.MEDIUM 100])
              "task_100") as (Hpending & _); [by vm_compute|].
  exact Hpending.
Defined.

(** waitForAllTasks: the call returns in the first round of its loop in
    which the index and the LLM and TTS queues are found empty at the first
    look, or the image queue is found empty at the second look; an empty
    image queue alone is enough, whatever waits in the other queues. *)
Theorem ris_wait_returns_at_first_quiet_look polls n :
  RIS.waitForAllTasks polls = Some n
  ↔ (∃ first second,
       polls !! n = Some (first, second)
       ∧ (RIS.nothing_indexed_or_queued first = true
          ∨ RIS.image_queue_empty second = true))
    ∧ ∀ m first second,
        (m < n)%nat → polls !! m = Some (first, second) →
        RIS.nothing_indexed_or_queued first = false
        ∧ RIS.image_queue_empty second = false.
Proof.
  revert n. induction polls as [|[first second] polls IH]; intros n; simpl.
  { split; [done|]. by intros [(? & ? & ? & _) _]. }
  destruct (RIS.nothing_indexed_or_queued first) eqn:H1.
  { split.
    - intros [= <-]. split; [by eauto|]. intros; lia.
    - intros [_ Hfirst]. destruct n as [|n]; [done|].
      destruct (Hfirst 0%nat first second) as [? _]; [lia|done|congruence]. }
  destruct (RIS.image_queue_empty second) eqn:H2.
  { split.
    - intros [= <-]. split; [by eauto|]. intros; lia.
    - intros [_ Hfirst]. destruct n as [|n]; [done|].
      destruct (Hfirst 0%nat first second) as [_ ?]; [lia|done|congruence]. }
  destruct n as [|n].
  { split.
    - by destruct (RIS.waitForAllTasks polls).
    - intros [(f & s & [= <- <-] & [?|?]) _]; congruence. }
  specialize (IH n). split.
  - intros Hret.
    assert (RIS.waitForAllTasks polls = Some n) as Hrec
      by (destruct (RIS.waitForAllTasks polls); simpl in Hret; congruence).
    apply IH in Hrec as [Hleave Hfirst]. split; [done|].
    intros [|m] f s Hlt; simpl.
    + by intros [= <- <-].
    + apply Hfirst. lia.
  - intros [Hleave Hfirst].
    assert (RIS.waitForAllTasks polls = Some n) as ->; [|done].
    apply IH. split; [done|]. intros m f s Hlt Hm.
    apply (Hfirst (S m) f s); [lia|done].
Qed.

(** addWorker: in every state reached from the constructor, every worker
    of the GPU pool and of the CPU pool is registered in [workers_], no
    worker is in both pools, and the dedicated LLM worker is in the GPU
    pool. *)
Theorem ris_pools_are_disjoint_and_registered processTask workers acts :
  let s := RIS.run processTask (RIS.ResourceIsolationScheduler_new workers)
             acts in
  (∀ w, w ∈ RIS.gpuWorkers_ s →
        w ∈ RIS.workers_ s ∧ ¬ (w ∈ RIS.cpuWorkers_ s))
  ∧ (∀ w, w ∈ RIS.cpuWorkers_ s → w ∈ RIS.workers_ s)
  ∧ (∀ l, RIS.llmWorker_ s = Some l → l ∈ RIS.gpuWorkers_ s).
Proof.
  intros s.
  destruct (RISMoreFacts.sound_run processTask acts
              (RIS.ResourceIsolationScheduler_new workers)
              (RISMoreFacts.sound_new workers)) as ((Hg & Hc & Hl) & _).
  fold s in Hg, Hc, Hl. split_and!.
  - intros w Hin. destruct (Hg w Hin) as (Hreg & wo & Hwo & Hcap).
    split; [done|]. intros Hin'.
    destruct (Hc w Hin') as (_ & wo' & Hwo' & Hllm & Himg & _).
    rewrite Hwo in Hwo'. injection Hwo' as <-.
    by rewrite Hllm, Himg in Hcap.
  - intros w Hin. by destruct (Hc w Hin).
  - intros l Hlw. by destruct (Hl l Hlw).
Qed.

(** processTaskQueues with selectWorker finding nobody: a task taken from
    the LLM queue while no worker is free goes back to the end of the
    queue, behind a task that was submitted in the meantime, and no worker
    is called. *)
Theorem ris_task_without_worker_goes_to_the_back
    processTask s task rest pr now :
  RIS.terminated s = false → RIS.running_ s = true →
  (length (RIS.in_flight s) < RIS.workerThreads_ s)%nat →
  RIS.llmTaskQueue_ s = task :: rest →
  RIS.getStatus s task = Some RIS.PENDING →
  RIS.selectWorker RIS.LLM_INFERENCE s = None →
  let s' := RIS.run processTask s
              [RIS.DoFetch; RIS.DoSubmit RIS.LLM_INFERENCE pr now;
               RIS.DoResume (length (RIS.in_flight s))] in
  RIS.llmTaskQueue_ s' = rest ++ [fresh (dom (RIS.task_objects s)); task]
  ∧ RIS.trace s' = RIS.trace s ∧ RIS.in_flight s' = RIS.in_flight s
  ∧ RIS.getStatus s' task = Some RIS.PENDING.
Proof. apply RISMoreFacts.requeued_behind_later_submission. Qed.

Lemma ris_task_without_worker_witness :
  RIS.llmTaskQueue_
    (RIS.run Scenarios.worker_completes Scenarios.ris_llm_worker_busy
       [RIS.DoFetch; RIS.DoSubmit RIS.LLM_INFERENCE RIS.HIGH 101;
        RIS.DoResume 0])
  = [1%nat; 0%nat].
Proof.
  destruct (ris_task_without_worker_goes_to_the_back
              Scenarios.worker_completes Scenarios.ris_llm_worker_busy
              0%nat [] RIS.HIGH 101) as (Hq & _);
    [by vm_compute|by vm_compute|vm_compute; lia|by vm_compute..|].
  etrans; [exact Hq|by vm_compute].
Defined.

(** The counters behind getSystemStatus: in a run from the constructor
    with fewer than 2^64 submissions, the tasks counted as completed or
    failed together with the tasks that still wait in a queue or in the
    hands of a dispatch thread are never more than the tasks counted as
    submitted. *)
Theorem ris_counters_account_for_tasks processTask workers acts :
  N.of_nat (length (filter (λ a, RIS.is_submit a = true) acts))
  < RIS.size_t_modulus →
  let s := RIS.run processTask (RIS.ResourceIsolationScheduler_new workers)
             acts in
  RIS.completedTasks (RIS.getSystemStatus s)
  + RIS.failedTasks (RIS.getSystemStatus s) + Invariants.waiting s
  ≤ RIS.totalTasks (RIS.getSystemStatus s).
Proof.
  intros Hwrap s.
  apply (RISMoreFacts.accounted_run processTask acts
           (RIS.ResourceIsolationScheduler_new workers)).
  - simpl. lia.
  - apply RISMoreFacts.accounted_new.
Qed.

Lemma ris_counters_account_for_tasks_witness :
  RIS.totalTasks
    (RIS.getSystemStatus
       (RIS.run Scenarios.worker_completes
          (RIS.ResourceIsolationScheduler_new Scenarios.three_workers)
          Scenarios.mixed_run)) = 3
  ∧ RIS.completedTasks
      (RIS.getSystemStatus
         (RIS.run Scenarios.worker_completes
            (RIS.ResourceIsolationScheduler_new Scenarios.three_workers)
            Scenarios.mixed_run))
    + RIS.failedTasks
        (RIS.getSystemStatus
           (RIS.run Scenarios.worker_completes
              (RIS.ResourceIsolationScheduler_new Scenarios.three_workers)
              Scenarios.mixed_run))
    + Invariants.waiting
        (RIS.run Scenarios.worker_completes
           (RIS.ResourceIsolationScheduler_new Scenarios.three_workers)
           Scenarios.mixed_run)
    ≤ RIS.totalTasks
        (RIS.getSystemStatus
           (RIS.run Scenarios.worker_completes
              (RIS.ResourceIsolationScheduler_new Scenarios.three_workers)
              Scenarios.mixed_run)).
Proof.
  split; [by vm_compute|].
  apply (ris_counters_account_for_tasks Scenarios.worker_completes
           Scenarios.three_workers Scenarios.mixed_run).
  by vm_compute.
Defined.
